(** * Context Jar: a shallow embedding of the consolidation and finalization
    engines, the protection predicate and the session stats store.

    The TypeScript sources embedded here are [src/cleanup.ts],
    [src/finalize.ts], [src/patterns.ts], [src/path-utils.ts],
    [src/token.ts], [src/stats.ts] and [src/types.ts].

    Conventions of the embedding.
    - A JavaScript string is a [string] of ASCII characters (code units below
      128); the string builtins used by the sources ([trim], [toLowerCase],
      [split], [padStart], the regular expressions) are written out on them.
    - An [unknown] value (tool input, tool metadata) is a [JValue], a JSON
      tree; an object is an ordered list of fields, as a JavaScript object is
      for [JSON.stringify] and for the spread operator.
    - What the sources import from outside the repository (Node's [path] and
      [os] modules, [JSON.stringify], the tokenizer's [encode]) is the
      interface [Runtime]; every theorem holds for every instance of it.
    - A [Map] that is only looked up is a [gmap]; a [Set] that is iterated is
      its list of elements in insertion order; the read-only invalidation set
      is a [gset].
    - The engines mutate the message window in place.  A reference to a Part
      object is the position (message index, part index) it occupies in the
      window, each position holding an object of its own; a mutation through a
      reference is an update at that position, and an engine returns the
      window it leaves behind next to its delta. *)

From Stdlib Require Import ZArith String Ascii List DecimalString.
From stdpp Require Import base strings list gmap.

Open Scope string_scope.

(** ** JavaScript strings *)

Definition ch (n : nat) : ascii := ascii_of_nat n.
Definition dquote : ascii := ch 34.
Definition squote : ascii := ch 39.
Definition LF : ascii := ch 10.
Definition CR : ascii := ch 13.
Definition str1 (a : ascii) : string := String a EmptyString.

(** [!text] for a string: the empty string is the only falsy one. *)
Definition str_empty (s : string) : bool :=
  match s with EmptyString => true | String _ _ => false end.

Definition is_ws (a : ascii) : bool :=
  let n := nat_of_ascii a in
  ((n =? 9) || (n =? 10) || (n =? 11) || (n =? 12) || (n =? 13) || (n =? 32))%nat.

Fixpoint trimStart (s : string) : string :=
  match s with
  | EmptyString => EmptyString
  | String a s' => if is_ws a then trimStart s' else s
  end.

Fixpoint trimEnd (s : string) : string :=
  match s with
  | EmptyString => EmptyString
  | String a s' =>
      let r := trimEnd s' in
      if is_ws a && str_empty r then EmptyString else String a r
  end.

(** [s.trim()] *)
Definition trim (s : string) : string := trimEnd (trimStart s).

Definition is_quote (a : ascii) : bool :=
  bool_decide (a = squote) || bool_decide (a = dquote).

Fixpoint drop_last_quote (s : string) : string :=
  match s with
  | EmptyString => EmptyString
  | String a EmptyString => if is_quote a then EmptyString else s
  | String a s' => String a (drop_last_quote s')
  end.

(** [s.replace(/^['"]|['"]$/g, "")]: one quote is removed at the start and,
    from what is left, one at the end. *)
Definition strip_quotes (s : string) : string :=
  drop_last_quote
    (match s with
     | String a s' => if is_quote a then s' else s
     | EmptyString => EmptyString
     end).

Definition startsWith_tilde (s : string) : bool :=
  match s with String a _ => bool_decide (a = ch 126) | EmptyString => false end.

(** [s.slice(1)] *)
Definition slice1 (s : string) : string :=
  match s with String _ s' => s' | EmptyString => EmptyString end.

Definition lower_ascii (a : ascii) : ascii :=
  let n := nat_of_ascii a in
  if ((65 <=? n) && (n <=? 90))%nat then ch (n + 32) else a.

(** [s.toLowerCase()] *)
Fixpoint toLowerCase (s : string) : string :=
  match s with
  | EmptyString => EmptyString
  | String a s' => String (lower_ascii a) (toLowerCase s')
  end.

(** [xs.includes(x)] *)
Definition includes (xs : list string) (x : string) : bool :=
  bool_decide (x ∈ xs).

(** [text.replaceAll("\r\n", "\n")] *)
Fixpoint normalizeNewlines (text : string) : string :=
  match text with
  | EmptyString => EmptyString
  | String a rest =>
      match rest with
      | String b rest' =>
          if bool_decide (a = CR) && bool_decide (b = LF)
          then String LF (normalizeNewlines rest')
          else String a (normalizeNewlines rest)
      | EmptyString => text
      end
  end.

(** [text.split("\n")]: never empty, one more piece than there are newlines. *)
Fixpoint split_lines (text : string) : list string :=
  match text with
  | EmptyString => [EmptyString]
  | String a rest =>
      let pieces := split_lines rest in
      if bool_decide (a = LF) then EmptyString :: pieces
      else match pieces with
           | first :: others => String a first :: others
           | [] => [str1 a]
           end
  end.

(** [pieces.join("\n")] *)
Fixpoint join_lines (pieces : list string) : string :=
  match pieces with
  | [] => EmptyString
  | [p] => p
  | p :: rest => p +:+ str1 LF +:+ join_lines rest
  end.

(** [n.toString()] for a natural number. *)
Definition toString (n : nat) : string := NilEmpty.string_of_uint (Nat.to_uint n).

Fixpoint zeros (n : nat) : string :=
  match n with O => EmptyString | S n' => String (ch 48) (zeros n') end.

(** [s.padStart(width, "0")] *)
Definition padStart0 (width : nat) (s : string) : string :=
  zeros (width - String.length s) +:+ s.

Definition is_label_char (a : ascii) : bool :=
  let n := nat_of_ascii a in
  (((97 <=? n) && (n <=? 122)) || ((65 <=? n) && (n <=? 90))
   || ((48 <=? n) && (n <=? 57)) || (n =? 95) || (n =? 45))%nat.

(** [label.replace(/[^a-zA-Z0-9_-]/g, "_")] *)
Fixpoint sanitize_label (label : string) : string :=
  match label with
  | EmptyString => EmptyString
  | String a rest =>
      String (if is_label_char a then a else ch 95) (sanitize_label rest)
  end.

(** ** Unknown values *)

#[warnings="-register-all"]
Inductive JValue : Type :=
| JNull
| JBool (b : bool)
| JNum (n : Z)
| JStr (s : string)
| JArr (items : list JValue)
| JObj (fields : list (string * JValue)).

(** JavaScript truthiness, as tested by [if (x)], [!x] and [x && ...]. *)
Definition truthy (v : JValue) : bool :=
  match v with
  | JNull => false
  | JBool b => b
  | JNum n => negb (n =? 0)%Z
  | JStr s => negb (str_empty s)
  | JArr _ | JObj _ => true
  end.

Fixpoint assoc (key : string) (fields : list (string * JValue)) : option JValue :=
  match fields with
  | [] => None
  | (k, v) :: rest => if bool_decide (k = key) then Some v else assoc key rest
  end.

(** [v.key] on a value that is not null: a field of an object, [undefined]
    (here [None]) on anything else, none of the keys read by the sources
    being a builtin property of strings or arrays. *)
Definition prop (key : string) (v : JValue) : option JValue :=
  match v with JObj fields => assoc key fields | _ => None end.

(** [typeof x === "string"] on a property that may be absent. *)
Definition as_string (x : option JValue) : option string :=
  match x with Some (JStr s) => Some s | _ => None end.

(** [{ ...o, key: v }] on the fields of [o]: an existing key keeps its place
    and takes the new value, a new key goes last. *)
Fixpoint obj_set (key : string) (v : JValue) (fields : list (string * JValue))
  : list (string * JValue) :=
  match fields with
  | [] => [(key, v)]
  | (k, old) :: rest =>
      if bool_decide (k = key) then (k, v) :: rest
      else (k, old) :: obj_set key v rest
  end.

(** The own enumerable fields that [...(input ?? {})] copies from a tool
    input; the inputs that reach the spread are objects. *)
Definition spread (v : JValue) : list (string * JValue) :=
  match v with JObj fields => fields | _ => [] end.

(** ** The runtime the sources import *)

Class Runtime := {
  (** [path.extname], [path.basename], [path.isAbsolute], [path.normalize],
      [path.resolve(...segments)] (relative to the process's working
      directory), [path.join], [path.relative] *)
  path_extname : string -> string;
  path_basename : string -> string;
  path_isAbsolute : string -> bool;
  path_normalize : string -> string;
  path_resolve : list string -> string;
  path_join : string -> string -> string;
  path_relative : string -> string -> string;
  (** [os.homedir()] *)
  homedir : string;
  (** [JSON.stringify(obj)], [None] when it throws *)
  JSON_stringify : JValue -> option string;
  (** [encode(text)] of gpt-tokenizer, [None] when it throws *)
  encode : string -> option (list nat);
}.

(** ** types.ts *)

Record ModelRef := { providerID : string; modelID : string }.

Record WorkPath := { root : option string; cwd : option string }.

Record MessageInfo := {
  role : string;
  sessionID : option string;
  agent : option string;
  model : option ModelRef;
  path : option WorkPath;
}.

Record ToolStateCompleted := {
  input : JValue;
  output : string;
  title : string;
  metadata : JValue;
  time_start : Z;
  time_end : Z;
  time_compacted : option Z;
  attachments : option (list JValue);
}.

Inductive ToolState : Type :=
| Pending (pending_input : JValue) (raw : string)
| Running (running_input : JValue) (running_title : option string)
    (running_metadata : option JValue) (running_start : Z)
| Completed (c : ToolStateCompleted)
| Error (error_input : JValue) (error : string)
    (error_metadata : option JValue) (error_start error_end : Z).

Record ToolPart := {
  id : option string;
  callID : option string;
  tool : string;
  state : ToolState;
  part_metadata : option JValue;
}.

(** [ChatMessagePart]: a tool Part, a text Part, or a Part of another type
    (whose [type] is not ["tool"]). *)
Inductive ChatMessagePart : Type :=
| PTool (t : ToolPart)
| PText (text : string) (rest : JValue)
| POther (type : string) (rest : JValue).

Record ChatMessage := {
  info : MessageInfo;
  parts : list ChatMessagePart;
}.

Record ProtectedFiles := { extensions : list string; patterns : list string }.

Record WhitelistConfig := {
  allowedModels : list string;
  enforced : bool;
  toolOverrides : option (list (string * string));
  protectedFiles : option ProtectedFiles;
}.

(** ** stats.ts *)

Record StepTokenDelta := {
  tokensBefore : nat;
  tokensAfter : nat;
  readTokensBefore : nat;
  readTokensAfter : nat;
  editTokensBefore : nat;
  editTokensAfter : nat;
  invalidatedTokensBefore : nat;
  filesConsolidated : nat;
  filesInvalidated : nat;
}.

Record SessionTokenStats := {
  stats_sessionID : string;
  total : StepTokenDelta;
  lastStep : StepTokenDelta;
  lastUpdatedAt : Z;
  lastReportedAt : option Z;
  lastReportedNetDelta : option Z;
}.

Definition zeroDelta : StepTokenDelta :=
  {| tokensBefore := 0; tokensAfter := 0;
     readTokensBefore := 0; readTokensAfter := 0;
     editTokensBefore := 0; editTokensAfter := 0;
     invalidatedTokensBefore := 0;
     filesConsolidated := 0; filesInvalidated := 0 |}.

Definition netDelta (delta : StepTokenDelta) : Z :=
  (Z.of_nat (tokensBefore delta) - Z.of_nat (tokensAfter delta))%Z.

(** The tracker's [bySession] map. *)
Abbreviation StatsStore := (gmap string SessionTokenStats).

(** [record(sessionID, delta)], with [now] the value of [Date.now()]: the
    store after the call and the stats returned. *)
Definition record (sessionID : string) (delta : StepTokenDelta) (now : Z)
    (bySession : StatsStore) : StatsStore * SessionTokenStats :=
  let prev := bySession !! sessionID in
  let next :=
    {| stats_sessionID := sessionID;
       total := delta;
       lastStep := delta;
       lastUpdatedAt := now;
       lastReportedAt := prev ≫= lastReportedAt;
       lastReportedNetDelta := prev ≫= lastReportedNetDelta |} in
  (<[sessionID := next]> bySession, next).

Definition get (sessionID : string) (bySession : StatsStore)
  : option SessionTokenStats := bySession !! sessionID.

(** A timestamp is falsy when it is absent or zero. *)
Definition shouldReportOnIdle (sessionID : string) (bySession : StatsStore) : bool :=
  match bySession !! sessionID with
  | None => false
  | Some stats =>
      match lastReportedAt stats with
      | None => true
      | Some reported =>
          if (reported =? 0)%Z then true
          else (reported <? lastUpdatedAt stats)%Z
      end
  end.

Definition markReported (sessionID : string) (now : Z) (bySession : StatsStore)
  : StatsStore :=
  match bySession !! sessionID with
  | None => bySession
  | Some stats =>
      <[sessionID :=
          {| stats_sessionID := stats_sessionID stats;
             total := total stats;
             lastStep := lastStep stats;
             lastUpdatedAt := lastUpdatedAt stats;
             lastReportedAt := Some now;
             lastReportedNetDelta := Some (netDelta (total stats)) |}]> bySession
  end.

(** ** patterns.ts, path-utils.ts, token.ts and the helpers that cleanup.ts
    and finalize.ts both define *)

Section Sources.
Context {rt : Runtime}.

(** *** patterns.ts *)

Definition matchesExtension (filePath : string) (extensions : list string) : bool :=
  let ext := toLowerCase (path_extname filePath) in
  if str_empty ext then false
  else includes extensions ext || includes extensions (slice1 ext).

(** [.] of a regular expression without flags: any character but a line
    terminator. *)
Definition regex_dot (a : ascii) : bool :=
  negb (bool_decide (a = LF) || bool_decide (a = CR)).

(** [globToRegex(pattern).test(text)]: the expression is anchored at both
    ends, [*] became [.*], [?] became [.], every other character stands for
    itself ([escapeRegexChar] escapes the ones a regular expression would read
    as syntax). *)
Fixpoint glob_test (pattern : string) : string -> bool :=
  match pattern with
  | EmptyString => str_empty
  | String c pattern' =>
      if bool_decide (c = ch 42) then
        fix star (text : string) : bool :=
          glob_test pattern' text
          || match text with
             | String a text' => regex_dot a && star text'
             | EmptyString => false
             end
      else if bool_decide (c = ch 63) then
        fun text =>
          match text with
          | String a text' => regex_dot a && glob_test pattern' text'
          | EmptyString => false
          end
      else
        fun text =>
          match text with
          | String a text' => bool_decide (a = c) && glob_test pattern' text'
          | EmptyString => false
          end
  end.

Definition matchesPattern (filePath : string) (patterns : list string) : bool :=
  let base := path_basename filePath in
  existsb (fun pattern => glob_test pattern filePath || glob_test pattern base)
    patterns.

Definition isFileProtected (filePath : string) (extensions patterns : list string)
  : bool :=
  if str_empty filePath then false
  else matchesExtension filePath extensions || matchesPattern filePath patterns.

(** *** path-utils.ts *)

(** The last message whose [info.path.root] is a non-empty string. *)
Fixpoint inferWorktreeRoot (messages : list ChatMessage) : option string :=
  match messages with
  | [] => None
  | m :: rest =>
      match inferWorktreeRoot rest with
      | Some r => Some r
      | None =>
          match path (info m) ≫= root with
          | Some r => if str_empty r then None else Some r
          | None => None
          end
      end
  end.

(** Node's [path] functions throw on arguments that are not strings only, so
    the [catch] branch of the source is not reached. *)
Definition normalizeFilePath (filePath : string) (worktreeRoot : option string)
  : option string :=
  if str_empty filePath then None
  else
    let trimmed := strip_quotes (trim filePath) in
    let expanded :=
      if startsWith_tilde trimmed then path_join homedir (slice1 trimmed)
      else trimmed in
    if path_isAbsolute expanded then Some (path_normalize expanded)
    else
      match worktreeRoot with
      | Some r =>
          if str_empty r then Some (path_normalize (path_resolve [expanded]))
          else Some (path_normalize (path_resolve [r; expanded]))
      | None => Some (path_normalize (path_resolve [expanded]))
      end.

Definition state_input (s : ToolState) : JValue :=
  match s with
  | Pending i _ => i
  | Running i _ _ _ => i
  | Completed c => input c
  | Error i _ _ _ _ => i
  end.

Definition is_array (x : option JValue) : bool :=
  match x with Some (JArr _) => true | _ => false end.

Definition extractPrimaryFilePath (part : ToolPart) (worktreeRoot : option string)
  : option string :=
  let input := state_input (state part) in
  match (if truthy input then as_string (prop "filePath" input) else None) with
  | Some p => normalizeFilePath p worktreeRoot
  | None =>
      match (if truthy input && is_array (prop "edits" input)
             then as_string (prop "filePath" input) else None) with
      | Some p => normalizeFilePath p worktreeRoot
      | None =>
          match (if truthy input then as_string (prop "path" input) else None) with
          | Some p => normalizeFilePath p worktreeRoot
          | None => None
          end
      end
  end.

(** *** token.ts *)

Definition estimateTokens (text : string) : nat :=
  if str_empty text then 0
  else match encode text with
       | Some tokens => length tokens
       | None => Nat.div (String.length text + 3) 4
       end.

(** *** Helpers with one definition in cleanup.ts and an identical one in
    finalize.ts *)

Definition emptyDelta : StepTokenDelta := zeroDelta.

Definition isCompletedToolPart (part : ToolPart) : option ToolStateCompleted :=
  match state part with Completed c => Some c | _ => None end.

Fixpoint render_lines (i : nat) (lines : list string) : string :=
  match lines with
  | [] => EmptyString
  | line :: rest =>
      padStart0 5 (toString (i + 1)) +:+ "| " +:+ line +:+ str1 LF
      +:+ render_lines (i + 1) rest
  end.

Definition renderReadLikeOutput (rawContent : string) : string :=
  let normalized := normalizeNewlines rawContent in
  let lines := split_lines normalized in
  "<file>" +:+ str1 LF
  +:+ render_lines 0 lines
  +:+ str1 LF +:+ "(End of file - total " +:+ toString (length lines)
  +:+ " lines)" +:+ str1 LF +:+ "</file>".

Definition filediff_after (holder : JValue) : option string :=
  match prop "filediff" holder with
  | Some filediff =>
      if truthy filediff then as_string (prop "after" filediff) else None
  | None => None
  end.

Definition extractAfterFromEditMetadata (stateMetadata : JValue) : option string :=
  if negb (truthy stateMetadata) then None
  else
    match filediff_after stateMetadata with
    | Some after => Some after
    | None =>
        match prop "results" stateMetadata with
        | Some (JArr results) =>
            match last results with
            | Some lastResult =>
                match lastResult with
                | JNull => None
                | _ => filediff_after lastResult
                end
            | None => None
            end
        | _ => None
        end
    end.

Definition isFileTool (tool : string) : bool :=
  bool_decide (tool = "read") || bool_decide (tool = "edit")
  || bool_decide (tool = "write") || bool_decide (tool = "multiedit").

Definition isEditTool (tool : string) : bool :=
  bool_decide (tool = "edit") || bool_decide (tool = "multiedit")
  || bool_decide (tool = "write").

Definition safeStringify (obj : JValue) : string :=
  match JSON_stringify obj with Some s => s | None => EmptyString end.

Definition toolPartTokens (part : ToolPart) : nat :=
  match isCompletedToolPart part with
  | None => 0
  | Some st => estimateTokens (safeStringify (input st)) + estimateTokens (output st)
  end.

Definition add_before (delta : StepTokenDelta) (tool : string) (tokens : nat)
  : StepTokenDelta :=
  {| tokensBefore := tokensBefore delta + tokens;
     tokensAfter := tokensAfter delta;
     readTokensBefore :=
       if bool_decide (tool = "read") then readTokensBefore delta + tokens
       else readTokensBefore delta;
     readTokensAfter := readTokensAfter delta;
     editTokensBefore :=
       if isEditTool tool then editTokensBefore delta + tokens
       else editTokensBefore delta;
     editTokensAfter := editTokensAfter delta;
     invalidatedTokensBefore := invalidatedTokensBefore delta;
     filesConsolidated := filesConsolidated delta;
     filesInvalidated := filesInvalidated delta |}.

Definition add_after (delta : StepTokenDelta) (tool : string) (tokens : nat)
  : StepTokenDelta :=
  {| tokensBefore := tokensBefore delta;
     tokensAfter := tokensAfter delta + tokens;
     readTokensBefore := readTokensBefore delta;
     readTokensAfter :=
       if bool_decide (tool = "read") then readTokensAfter delta + tokens
       else readTokensAfter delta;
     editTokensBefore := editTokensBefore delta;
     editTokensAfter :=
       if isEditTool tool then editTokensAfter delta + tokens
       else editTokensAfter delta;
     invalidatedTokensBefore := invalidatedTokensBefore delta;
     filesConsolidated := filesConsolidated delta;
     filesInvalidated := filesInvalidated delta |}.

Definition add_invalidatedBefore (delta : StepTokenDelta) (tokens : nat)
  : StepTokenDelta :=
  {| tokensBefore := tokensBefore delta;
     tokensAfter := tokensAfter delta;
     readTokensBefore := readTokensBefore delta;
     readTokensAfter := readTokensAfter delta;
     editTokensBefore := editTokensBefore delta;
     editTokensAfter := editTokensAfter delta;
     invalidatedTokensBefore := invalidatedTokensBefore delta + tokens;
     filesConsolidated := filesConsolidated delta;
     filesInvalidated := filesInvalidated delta |}.

Definition incr_filesConsolidated (delta : StepTokenDelta) : StepTokenDelta :=
  {| tokensBefore := tokensBefore delta;
     tokensAfter := tokensAfter delta;
     readTokensBefore := readTokensBefore delta;
     readTokensAfter := readTokensAfter delta;
     editTokensBefore := editTokensBefore delta;
     editTokensAfter := editTokensAfter delta;
     invalidatedTokensBefore := invalidatedTokensBefore delta;
     filesConsolidated := filesConsolidated delta + 1;
     filesInvalidated := filesInvalidated delta |}.

Definition incr_filesInvalidated (delta : StepTokenDelta) : StepTokenDelta :=
  {| tokensBefore := tokensBefore delta;
     tokensAfter := tokensAfter delta;
     readTokensBefore := readTokensBefore delta;
     readTokensAfter := readTokensAfter delta;
     editTokensBefore := editTokensBefore delta;
     editTokensAfter := editTokensAfter delta;
     invalidatedTokensBefore := invalidatedTokensBefore delta;
     filesConsolidated := filesConsolidated delta;
     filesInvalidated := filesInvalidated delta + 1 |}.

(** [categorizeBeforeTokens] and [categorizeAfterTokens] of cleanup.ts,
    [categorizeBefore] and [categorizeAfter] of finalize.ts: the total, and
    the read or the edit bucket by the Part's tool. *)
Definition categorizeBeforeTokens (delta : StepTokenDelta) (part : ToolPart)
    (tokens : nat) : StepTokenDelta := add_before delta (tool part) tokens.

Definition categorizeAfterTokens (delta : StepTokenDelta) (part : ToolPart)
    (tokens : nat) : StepTokenDelta := add_after delta (tool part) tokens.

Definition categorizeBefore := categorizeBeforeTokens.
Definition categorizeAfter := categorizeAfterTokens.

(** [Set.prototype.add] on a set kept as its elements in insertion order. *)
Definition set_add (x : string) (s : list string) : list string :=
  if bool_decide (x ∈ s) then s else s ++ [x].

(** [for (const x of xs)] with the position of [x]. *)
Definition enumerate {A : Type} (xs : list A) : list (nat * A) := imap pair xs.

(** The path under which an engine files a completed tool Part:
    [extractPrimaryFilePath], with [if (!filePath) continue] applied. *)
Definition resolved (part : ToolPart) (worktreeRoot : option string) : option string :=
  match extractPrimaryFilePath part worktreeRoot with
  | Some filePath => if str_empty filePath then None else Some filePath
  | None => None
  end.

Definition protectedExtensions (config : WhitelistConfig) : list string :=
  match protectedFiles config with Some pf => extensions pf | None => [] end.

Definition protectedPatterns (config : WhitelistConfig) : list string :=
  match protectedFiles config with Some pf => patterns pf | None => [] end.

End Sources.

(** ** The message window as a store of Part objects *)

(** A reference to a Part object: the message and the place in its [parts]
    where the object sits. *)
Abbreviation ToolRef := (nat * nat)%type.

Definition set_parts (ps : list ChatMessagePart) (m : ChatMessage) : ChatMessage :=
  {| info := info m; parts := ps |}.

Definition on_tool (f : ToolPart -> ToolPart) (p : ChatMessagePart) : ChatMessagePart :=
  match p with PTool t => PTool (f t) | _ => p end.

(** Mutation of the tool Part behind a reference. *)
Definition update_part (f : ToolPart -> ToolPart) (ref : ToolRef)
    (messages : list ChatMessage) : list ChatMessage :=
  alter (fun m => set_parts (alter (on_tool f) ref.2 (parts m)) m) ref.1 messages.

Definition part_at (messages : list ChatMessage) (ref : ToolRef)
  : option ChatMessagePart :=
  messages !! ref.1 ≫= fun m => parts m !! ref.2.

Definition tool_at (messages : list ChatMessage) (ref : ToolRef) : option ToolPart :=
  match part_at messages ref with Some (PTool t) => Some t | _ => None end.

(** Every Part of the window, in chronological order. *)
Definition all_parts (messages : list ChatMessage) : list ChatMessagePart :=
  mjoin (parts <$> messages).

(** ** cleanup.ts: the consolidation engine *)

Module Cleanup.
Section Engine.
Context {rt : Runtime}.

Inductive ContentKind := ReadOutput | RawText.

Record LatestContent := { content : string; contentKind : ContentKind }.

(** The four collections filled by pass 1. *)
Record History := {
  latestByFile : gmap string LatestContent;
  lastReadByFile : gmap string ToolRef;
  filesWithHistory : list string;
  filesWithRead : list string;
}.

Definition noHistory : History :=
  {| latestByFile := ∅; lastReadByFile := ∅;
     filesWithHistory := []; filesWithRead := [] |}.

Definition set_latest (filePath : string) (latest : LatestContent) (h : History)
  : History :=
  {| latestByFile := <[filePath := latest]> (latestByFile h);
     lastReadByFile := lastReadByFile h;
     filesWithHistory := filesWithHistory h;
     filesWithRead := filesWithRead h |}.

Definition set_lastRead (filePath : string) (ref : ToolRef) (h : History) : History :=
  {| latestByFile := latestByFile h;
     lastReadByFile := <[filePath := ref]> (lastReadByFile h);
     filesWithHistory := filesWithHistory h;
     filesWithRead := filesWithRead h |}.

Definition add_history (filePath : string) (h : History) : History :=
  {| latestByFile := latestByFile h;
     lastReadByFile := lastReadByFile h;
     filesWithHistory := set_add filePath (filesWithHistory h);
     filesWithRead := filesWithRead h |}.

Definition add_read (filePath : string) (h : History) : History :=
  {| latestByFile := latestByFile h;
     lastReadByFile := lastReadByFile h;
     filesWithHistory := filesWithHistory h;
     filesWithRead := set_add filePath (filesWithRead h) |}.

Section Pass.
Variable config : WhitelistConfig.
Variable invalidatedFiles : gset string.
Variable worktreeRoot : option string.

(** Pass 1, the body of the inner loop, for the Part behind [ref]. *)
Definition collect_part (ref : ToolRef) (h : History) (rawPart : ChatMessagePart)
  : History :=
  match rawPart with
  | PTool toolPart =>
      match isCompletedToolPart toolPart with
      | None => h
      | Some st =>
          if negb (isFileTool (tool toolPart)) then h
          else
            match resolved toolPart worktreeRoot with
            | None => h
            | Some filePath =>
                if isFileProtected filePath (protectedExtensions config)
                     (protectedPatterns config) then h
                else
                  let h := add_history filePath h in
                  let h :=
                    if bool_decide (tool toolPart = "read")
                    then add_read filePath h else h in
                  if bool_decide (filePath ∈ invalidatedFiles) then h
                  else if bool_decide (tool toolPart = "read") then
                    if negb (str_empty (output st)) then
                      set_lastRead filePath ref
                        (set_latest filePath
                           {| content := output st; contentKind := ReadOutput |} h)
                    else h
                  else if bool_decide (tool toolPart = "edit")
                          || bool_decide (tool toolPart = "multiedit") then
                    match extractAfterFromEditMetadata (metadata st) with
                    | Some after =>
                        set_latest filePath
                          {| content := after; contentKind := RawText |} h
                    | None => h
                    end
                  else if bool_decide (tool toolPart = "write") then
                    match (if truthy (input st)
                           then as_string (prop "content" (input st)) else None) with
                    | Some written =>
                        set_latest filePath
                          {| content := written; contentKind := RawText |} h
                    | None => h
                    end
                  else h
            end
      end
  | _ => h
  end.

(** Pass 1: collect file history + latest content + last read. *)
Definition collect (messages : list ChatMessage) : History :=
  foldl
    (fun h '(i, message) =>
       foldl (fun h '(j, rawPart) => collect_part (i, j) h rawPart)
         h (enumerate (parts message)))
    noHistory (enumerate messages).

(** What pass 2 carries: the window with the keepers rewritten so far, the
    delta, and the two sets it fills. *)
Record Selection := {
  window : list ChatMessage;
  sel_delta : StepTokenDelta;
  keepCallIDs : list string;
  filesToConsolidate : list string;
}.

(** The rewrite of the keeper: its output becomes the latest content in the
    shape of a read output, its input names the normalized path, and the
    [compacted] marker goes ([removeCompactedMarker]). *)
Definition rewrite_keeper (filePath : string) (latest : option LatestContent)
    (part : ToolPart) : ToolPart :=
  match state part with
  | Completed currentState =>
      let normalizedOutput :=
        match latest with
        | Some l =>
            match contentKind l with
            | ReadOutput => content l
            | RawText => renderReadLikeOutput (content l)
            end
        | None => output currentState
        end in
      {| id := id part;
         callID := callID part;
         tool := tool part;
         state :=
           Completed
             {| input :=
                  JObj (obj_set "filePath" (JStr filePath)
                          (spread (input currentState)));
                output := normalizedOutput;
                title := title currentState;
                metadata := metadata currentState;
                time_start := time_start currentState;
                time_end := time_end currentState;
                time_compacted := None;
                attachments := attachments currentState |};
         part_metadata := part_metadata part |}
  | _ => part
  end.

(** Pass 2, the body of the loop over [filesWithRead].  A reference stored by
    pass 1 designates a tool Part of the window, so the last branch is not
    taken. *)
Definition pick_keeper (h : History) (s : Selection) (filePath : string) : Selection :=
  if bool_decide (filePath ∈ invalidatedFiles) then
    {| window := window s;
       sel_delta := incr_filesInvalidated (sel_delta s);
       keepCallIDs := keepCallIDs s;
       filesToConsolidate := filesToConsolidate s |}
  else
    match lastReadByFile h !! filePath with
    | None => s
    | Some existingRead =>
        match tool_at (window s) existingRead with
        | Some part =>
            {| window :=
                 update_part
                   (rewrite_keeper filePath (latestByFile h !! filePath))
                   existingRead (window s);
               sel_delta := incr_filesConsolidated (sel_delta s);
               keepCallIDs := set_add (default "" (callID part)) (keepCallIDs s);
               filesToConsolidate := set_add filePath (filesToConsolidate s) |}
        | None => s
        end
    end.

(** Pass 2: pick keeper read per file ONLY if there is a real read. *)
Definition pick_keepers (h : History) (messages : list ChatMessage) : Selection :=
  foldl (pick_keeper h)
    {| window := messages; sel_delta := emptyDelta;
       keepCallIDs := []; filesToConsolidate := [] |}
    (filesWithRead h).

(** Also record invalidation for files that had no read. *)
Definition count_unread_invalidated (h : History) (delta : StepTokenDelta)
  : StepTokenDelta :=
  foldl
    (fun delta filePath =>
       if negb (bool_decide (filePath ∈ filesWithRead h))
          && bool_decide (filePath ∈ invalidatedFiles)
       then incr_filesInvalidated delta else delta)
    delta (filesWithHistory h).

(** Pass 3, the body of the inner loop: the delta after the Part, and whether
    the Part is pushed to [nextParts]. *)
Definition sweep_part (h : History) (s : Selection) (delta : StepTokenDelta)
    (rawPart : ChatMessagePart) : StepTokenDelta * bool :=
  match rawPart with
  | PTool toolPart =>
      match isCompletedToolPart toolPart with
      | None => (delta, true)
      | Some _ =>
          if negb (isFileTool (tool toolPart)) then (delta, true)
          else
            match resolved toolPart worktreeRoot with
            | None => (delta, true)
            | Some filePath =>
                if negb (bool_decide (filePath ∈ filesWithHistory h)) then (delta, true)
                else if isFileProtected filePath (protectedExtensions config)
                          (protectedPatterns config) then (delta, true)
                else if bool_decide (filePath ∈ invalidatedFiles) then
                  let tokens := toolPartTokens toolPart in
                  (add_invalidatedBefore
                     (categorizeBeforeTokens delta toolPart tokens) tokens,
                   false)
                else if negb (bool_decide (filePath ∈ filesToConsolidate s)) then
                  (delta, true)
                else
                  let tokens := toolPartTokens toolPart in
                  let delta := categorizeBeforeTokens delta toolPart tokens in
                  if bool_decide (tool toolPart = "read")
                     && match callID toolPart with
                        | Some c =>
                            negb (str_empty c) && bool_decide (c ∈ keepCallIDs s)
                        | None => false
                        end
                  then
                    let keptTokens := toolPartTokens toolPart in
                    (categorizeAfterTokens delta toolPart keptTokens, true)
                  else (delta, false)
            end
      end
  | _ => (delta, true)
  end.

Fixpoint sweep_parts (h : History) (s : Selection) (delta : StepTokenDelta)
    (rawParts : list ChatMessagePart) : StepTokenDelta * list ChatMessagePart :=
  match rawParts with
  | [] => (delta, [])
  | rawPart :: rest =>
      let '(delta, pushed) := sweep_part h s delta rawPart in
      let '(delta, nextParts) := sweep_parts h s delta rest in
      (delta, if pushed then rawPart :: nextParts else nextParts)
  end.

(** Pass 3: remove file tools for consolidated files (keep one read) and for
    invalidated files. *)
Fixpoint sweep (h : History) (s : Selection) (delta : StepTokenDelta)
    (messages : list ChatMessage) : StepTokenDelta * list ChatMessage :=
  match messages with
  | [] => (delta, [])
  | message :: rest =>
      let '(delta, nextParts) := sweep_parts h s delta (parts message) in
      let '(delta, rest') := sweep h s delta rest in
      (delta, set_parts nextParts message :: rest')
  end.

End Pass.

(** The delta returned, and the window as the call leaves it. *)
Definition cleanupMessagesForContextJar (messages : list ChatMessage)
    (config : WhitelistConfig) (invalidatedFiles : gset string)
  : StepTokenDelta * list ChatMessage :=
  let worktreeRoot := inferWorktreeRoot messages in
  let h := collect config invalidatedFiles worktreeRoot messages in
  match filesWithHistory h with
  | [] => (emptyDelta, messages)
  | _ :: _ =>
      let s := pick_keepers invalidatedFiles h messages in
      let delta := count_unread_invalidated invalidatedFiles h (sel_delta s) in
      sweep config invalidatedFiles worktreeRoot h s delta (window s)
  end.

End Engine.
End Cleanup.

(** ** finalize.ts: the finalization engine *)

Module Finalize.
Section Engine.
Context {rt : Runtime}.

Record LatestContent := { content : string; isAlreadyReadFormatted : bool }.

(** The three collections filled by the gathering loop. *)
Record Gathered := {
  latestByFile : gmap string LatestContent;
  editedFiles : list string;
  allTouchedFiles : list string;
}.

Definition nothingGathered : Gathered :=
  {| latestByFile := ∅; editedFiles := []; allTouchedFiles := [] |}.

Definition add_touched (filePath : string) (g : Gathered) : Gathered :=
  {| latestByFile := latestByFile g;
     editedFiles := editedFiles g;
     allTouchedFiles := set_add filePath (allTouchedFiles g) |}.

Definition add_edited (filePath : string) (latest : LatestContent) (g : Gathered)
  : Gathered :=
  {| latestByFile := <[filePath := latest]> (latestByFile g);
     editedFiles := set_add filePath (editedFiles g);
     allTouchedFiles := allTouchedFiles g |}.

Definition set_latest (filePath : string) (latest : LatestContent) (g : Gathered)
  : Gathered :=
  {| latestByFile := <[filePath := latest]> (latestByFile g);
     editedFiles := editedFiles g;
     allTouchedFiles := allTouchedFiles g |}.

(** [output.split("\n").slice(0, 20).join("\n")] *)
Definition preview (output : string) : string :=
  join_lines (take 20 (split_lines output)).

(** [now] is the value of [Date.now()] at the call. *)
Definition makeSyntheticReadPart (filePath output label : string) (now : Z)
  : ToolPart :=
  {| id := None;
     callID := Some ("context-jar-final-read-" +:+ sanitize_label label);
     tool := "read";
     state :=
       Completed
         {| input := JObj [("filePath", JStr filePath)];
            output := output;
            title := label;
            metadata := JObj [("preview", JStr (preview output))];
            time_start := now;
            time_end := now;
            time_compacted := None;
            attachments := None |};
     part_metadata := None |}.

(** The position of the last message whose role is ["assistant"]. *)
Fixpoint findLastAssistant (messages : list ChatMessage) : option nat :=
  match messages with
  | [] => None
  | m :: rest =>
      match findLastAssistant rest with
      | Some i => Some (S i)
      | None => if bool_decide (role (info m) = "assistant") then Some 0 else None
      end
  end.

Section Pass.
Variable config : WhitelistConfig.
Variable invalidatedFiles : gset string.
Variable worktreeRoot : option string.

(** Gather latest content for edited files: the body of the inner loop. *)
Definition gather_part (g : Gathered) (rawPart : ChatMessagePart) : Gathered :=
  match rawPart with
  | PTool toolPart =>
      match isCompletedToolPart toolPart with
      | None => g
      | Some st =>
          match resolved toolPart worktreeRoot with
          | None => g
          | Some filePath =>
              if isFileProtected filePath (protectedExtensions config)
                   (protectedPatterns config) then g
              else
                let g := add_touched filePath g in
                if bool_decide (filePath ∈ invalidatedFiles) then g
                else if bool_decide (tool toolPart = "edit")
                        || bool_decide (tool toolPart = "multiedit") then
                  match extractAfterFromEditMetadata (metadata st) with
                  | Some after =>
                      add_edited filePath
                        {| content := after; isAlreadyReadFormatted := false |} g
                  | None => g
                  end
                else if bool_decide (tool toolPart = "write") then
                  match (if truthy (input st)
                         then as_string (prop "content" (input st)) else None) with
                  | Some written =>
                      add_edited filePath
                        {| content := written; isAlreadyReadFormatted := false |} g
                  | None => g
                  end
                else if bool_decide (tool toolPart = "read") then
                  if negb (str_empty (output st))
                     && negb (bool_decide (is_Some (latestByFile g !! filePath)))
                  then
                    set_latest filePath
                      {| content := output st; isAlreadyReadFormatted := true |} g
                  else g
                else g
          end
      end
  | _ => g
  end.

Definition gather (messages : list ChatMessage) : Gathered :=
  foldl (fun g message => foldl gather_part g (parts message))
    nothingGathered messages.

(** Track invalidations even for edit-only sessions. *)
Definition count_invalidated (g : Gathered) (delta : StepTokenDelta) : StepTokenDelta :=
  foldl
    (fun delta filePath =>
       if bool_decide (filePath ∈ invalidatedFiles)
       then incr_filesInvalidated delta else delta)
    delta (allTouchedFiles g).

(** Remove all file tool parts for edited/invalidated files: the body of the
    inner loop, giving the delta after the Part and whether the Part is pushed
    to [nextParts]. *)
Definition wipe_part (g : Gathered) (delta : StepTokenDelta)
    (rawPart : ChatMessagePart) : StepTokenDelta * bool :=
  match rawPart with
  | PTool toolPart =>
      match isCompletedToolPart toolPart with
      | None => (delta, true)
      | Some _ =>
          match resolved toolPart worktreeRoot with
          | None => (delta, true)
          | Some filePath =>
              if isFileProtected filePath (protectedExtensions config)
                   (protectedPatterns config) then (delta, true)
              else
                let shouldWipe :=
                  bool_decide (filePath ∈ editedFiles g)
                  || bool_decide (filePath ∈ invalidatedFiles) in
                if negb shouldWipe then (delta, true)
                else if isFileTool (tool toolPart) then
                  let tokens := toolPartTokens toolPart in
                  let delta := categorizeBefore delta toolPart tokens in
                  (if bool_decide (filePath ∈ invalidatedFiles)
                   then add_invalidatedBefore delta tokens else delta,
                   false)
                else (delta, true)
          end
      end
  | _ => (delta, true)
  end.

Fixpoint wipe_parts (g : Gathered) (delta : StepTokenDelta)
    (rawParts : list ChatMessagePart) : StepTokenDelta * list ChatMessagePart :=
  match rawParts with
  | [] => (delta, [])
  | rawPart :: rest =>
      let '(delta, pushed) := wipe_part g delta rawPart in
      let '(delta, nextParts) := wipe_parts g delta rest in
      (delta, if pushed then rawPart :: nextParts else nextParts)
  end.

Fixpoint wipe (g : Gathered) (delta : StepTokenDelta) (messages : list ChatMessage)
  : StepTokenDelta * list ChatMessage :=
  match messages with
  | [] => (delta, [])
  | message :: rest =>
      let '(delta, nextParts) := wipe_parts g delta (parts message) in
      let '(delta, rest') := wipe g delta rest in
      (delta, set_parts nextParts message :: rest')
  end.

(** What the last loop carries: the window, the delta, and how many synthetic
    Parts were made so far (the next one reads the clock at that tick). *)
Record Attached := {
  window : list ChatMessage;
  att_delta : StepTokenDelta;
  made : nat;
}.

(** Add one synthetic read per edited file with final content: the body of
    the loop, [targetAssistant] being the position of the target message. *)
Definition attach (clock : nat -> Z) (g : Gathered) (targetAssistant : nat)
    (a : Attached) (filePath : string) : Attached :=
  match latestByFile g !! filePath with
  | None => a
  | Some latest =>
      let label :=
        match worktreeRoot with
        | Some r => if str_empty r then filePath else path_relative r filePath
        | None => filePath
        end in
      let output :=
        if isAlreadyReadFormatted latest then content latest
        else renderReadLikeOutput (content latest) in
      let synthetic := makeSyntheticReadPart filePath output label (clock (made a)) in
      let tokens := toolPartTokens synthetic in
      {| window :=
           alter (fun m => set_parts (parts m ++ [PTool synthetic]) m)
             targetAssistant (window a);
         att_delta :=
           incr_filesConsolidated (categorizeAfter (att_delta a) synthetic tokens);
         made := S (made a) |}
  end.

End Pass.

(** The delta returned, and the window as the call leaves it.  [clock n] is
    what [Date.now()] returns when the n-th synthetic Part is made. *)
Definition finalizeEditedFilesForNextStep (clock : nat -> Z)
    (messages : list ChatMessage) (config : WhitelistConfig)
    (invalidatedFiles : gset string) : StepTokenDelta * list ChatMessage :=
  let worktreeRoot := inferWorktreeRoot messages in
  let g := gather config invalidatedFiles worktreeRoot messages in
  let delta := count_invalidated invalidatedFiles g emptyDelta in
  if bool_decide (editedFiles g = []) && (filesInvalidated delta =? 0)%nat
  then (delta, messages)
  else
    let '(delta, messages) :=
      wipe config invalidatedFiles worktreeRoot g delta messages in
    match findLastAssistant messages with
    | None => (delta, messages)
    | Some targetAssistant =>
        let a :=
          foldl (attach worktreeRoot clock g targetAssistant)
            {| window := messages; att_delta := delta; made := 0 |}
            (editedFiles g) in
        (att_delta a, window a)
    end.

End Engine.
End Finalize.

(** ** Vocabulary of the statements *)

Section Vocabulary.
Context {rt : Runtime}.

(** The file a Part is about, as the engines resolve it: none for a Part that
    is not a tool Part or whose path does not resolve. *)
Definition file_of (worktreeRoot : option string) (p : ChatMessagePart)
  : option string :=
  match p with PTool t => resolved t worktreeRoot | _ => None end.

Definition completed (p : ChatMessagePart) : bool :=
  match p with
  | PTool t => match state t with Completed _ => true | _ => false end
  | _ => false
  end.

Definition tool_of (p : ChatMessagePart) : option string :=
  match p with PTool t => Some (tool t) | _ => None end.

(** A completed file-operation (read, edit, multiedit or write) tool Part
    whose path resolves. *)
Definition file_operation (worktreeRoot : option string) (p : ChatMessagePart)
  : bool :=
  match p with
  | PTool t =>
      completed p && isFileTool (tool t)
      && bool_decide (is_Some (resolved t worktreeRoot))
  | _ => false
  end.

(** A completed file-operation Part of the file [k]. *)
Definition file_operation_of (worktreeRoot : option string) (k : string)
    (p : ChatMessagePart) : bool :=
  file_operation worktreeRoot p && bool_decide (file_of worktreeRoot p = Some k).

(** A completed read Part of the file [k]. *)
Definition read_of (worktreeRoot : option string) (k : string)
    (p : ChatMessagePart) : bool :=
  completed p && bool_decide (tool_of p = Some "read")
  && bool_decide (file_of worktreeRoot p = Some k).

(** A completed read Part of [k] with a non-empty output: a read the
    consolidation engine can keep. *)
Definition usable_read (worktreeRoot : option string) (k : string)
    (p : ChatMessagePart) : bool :=
  match p with
  | PTool t =>
      match state t with
      | Completed st =>
          bool_decide (tool t = "read")
          && bool_decide (resolved t worktreeRoot = Some k)
          && negb (str_empty (output st))
      | _ => false
      end
  | _ => false
  end.

(** A completed edit, multiedit or write Part of [k] from which the content of
    the file after the operation can be recovered. *)
Definition snapshot_of (worktreeRoot : option string) (k : string)
    (p : ChatMessagePart) : bool :=
  match p with
  | PTool t =>
      match state t with
      | Completed st =>
          bool_decide (resolved t worktreeRoot = Some k)
          && (((bool_decide (tool t = "edit") || bool_decide (tool t = "multiedit"))
               && bool_decide (is_Some (extractAfterFromEditMetadata (metadata st))))
              || (bool_decide (tool t = "write")
                  && bool_decide
                       (is_Some (if truthy (input st)
                                 then as_string (prop "content" (input st))
                                 else None))))
      | _ => false
      end
  | _ => false
  end.

Definition protected (config : WhitelistConfig) (k : string) : bool :=
  isFileProtected k (protectedExtensions config) (protectedPatterns config).

(** The path resolver gives a key back when it is handed that key: the keys
    of the window's Parts are fixed points of [normalizeFilePath]. *)
Definition stable_part (worktreeRoot : option string) (p : ChatMessagePart) : Prop :=
  match file_of worktreeRoot p with
  | Some k => normalizeFilePath k worktreeRoot = Some k
  | None => True
  end.

Definition stable_keys (messages : list ChatMessage) : Prop :=
  Forall (stable_part (inferWorktreeRoot messages)) (all_parts messages).

(** The call identifier of a completed read Part. *)
Definition read_callID (p : ChatMessagePart) : option string :=
  match p with
  | PTool t =>
      if completed p && bool_decide (tool t = "read") then callID t else None
  | _ => None
  end.

(** No two completed read Parts of the window carry the same call
    identifier. *)
Definition distinct_read_callIDs (messages : list ChatMessage) : Prop :=
  NoDup (omap read_callID (all_parts messages)).

End Vocabulary.

(** [revised T l l']: [l'] is [l] with some Parts removed and some replaced,
    every Part removed or replaced satisfying [T]; the other Parts stand in
    [l'] as they are, in the order they had. *)
Inductive revised (T : ChatMessagePart -> Prop)
  : list ChatMessagePart -> list ChatMessagePart -> Prop :=
| revised_nil : revised T [] []
| revised_keep p l l' : revised T l l' -> revised T (p :: l) (p :: l')
| revised_drop p l l' : T p -> revised T l l' -> revised T (p :: l) l'
| revised_replace p p' l l' : T p -> revised T l l' -> revised T (p :: l) (p' :: l').

(** [pruned T l l']: [l'] is [l] with some Parts removed, every Part removed
    satisfying [T]. *)
Inductive pruned (T : ChatMessagePart -> Prop)
  : list ChatMessagePart -> list ChatMessagePart -> Prop :=
| pruned_nil : pruned T [] []
| pruned_keep p l l' : pruned T l l' -> pruned T (p :: l) (p :: l')
| pruned_drop p l l' : T p -> pruned T l l' -> pruned T (p :: l) l'.

(** ** Auxiliary definitions of the proofs *)

(** The Parts of a window with the references to them, in chronological
    order. *)
Definition located (w : list ChatMessage) : list (ToolRef * ChatMessagePart) :=
  mjoin (imap (fun i m => imap (fun j p => ((i, j), p)) (parts m)) w).

Section Auxiliary.
Context {rt : Runtime}.
Variable config : WhitelistConfig.
Variable inv : gset string.
Variable worktreeRoot : option string.

(** Pass 1 of the consolidation engine as one loop over the located Parts. *)
Definition collect_step (h : Cleanup.History) (rp : ToolRef * ChatMessagePart)
  : Cleanup.History :=
  Cleanup.collect_part config inv worktreeRoot rp.1 h rp.2.

(** What pass 1 knows of the Part it holds as the last read of [k]. *)
Definition keeper_source (w : list ChatMessage) (k : string) (r : ToolRef) : Prop :=
  exists t, tool_at w r = Some t
    /\ usable_read worktreeRoot k (PTool t) = true
    /\ protected config k = false /\ k ∉ inv.

(** The Part behind [r] once pass 2 has gone through the files [done]. *)
Definition consolidated_part (h : Cleanup.History) (done : list string)
    (r : ToolRef) (p : ChatMessagePart) : ChatMessagePart :=
  match file_of worktreeRoot p with
  | Some k =>
      if bool_decide (k ∈ done)
         && bool_decide (Cleanup.lastReadByFile h !! k = Some r)
      then on_tool (Cleanup.rewrite_keeper k (Cleanup.latestByFile h !! k)) p
      else p
  | None => p
  end.

Definition consolidated_window (h : Cleanup.History) (done : list string)
    (w : list ChatMessage) : list ChatMessage :=
  imap (fun i m =>
          set_parts (imap (fun j => consolidated_part h done (i, j)) (parts m)) m) w.

(** Whether pass 3 of the consolidation engine pushes the Part. *)
Definition sweep_keeps (h : Cleanup.History) (s : Cleanup.Selection)
    (p : ChatMessagePart) : bool :=
  (Cleanup.sweep_part config inv worktreeRoot h s emptyDelta p).2.

(** Whether the wiping loop of the finalization engine pushes the Part. *)
Definition wipe_keeps (g : Finalize.Gathered) (p : ChatMessagePart) : bool :=
  (Finalize.wipe_part config inv worktreeRoot g emptyDelta p).2.

End Auxiliary.

(** Booleans of the model read as propositions. *)
Ltac bool_hyps :=
  repeat match goal with
  | H : bool_decide _ = true |- _ => apply bool_decide_eq_true_1 in H
  | H : bool_decide _ = false |- _ => apply bool_decide_eq_false_1 in H
  | H : negb _ = true |- _ => apply (proj1 (negb_true_iff _)) in H
  | H : negb _ = false |- _ => apply (proj1 (negb_false_iff _)) in H
  | H : _ && _ = true |- _ => apply andb_prop in H; destruct H
  | H : isCompletedToolPart _ = Some _ |- _ => unfold isCompletedToolPart in H
  | H : isCompletedToolPart _ = None |- _ => unfold isCompletedToolPart in H
  end.

Ltac bool_goal :=
  repeat first
    [ rewrite andb_true_iff | rewrite bool_decide_eq_true
    | rewrite negb_true_iff | rewrite bool_decide_eq_false ].

Section Targets.
Context {rt : Runtime}.
Variable config : WhitelistConfig.
Variable inv : gset string.

(** The Parts the consolidation engine may remove or rewrite: the completed
    file-operation Parts of a file that is not protected and is either
    invalidated or has, in the window, a read the engine can keep. *)
Definition consolidation_target (w : list ChatMessage) (p : ChatMessagePart) : Prop :=
  exists k,
    file_operation_of (inferWorktreeRoot w) k p = true
    /\ protected config k = false
    /\ (k ∈ inv
        \/ ((k ∉ inv)
            /\ (exists q, q ∈ all_parts w
                  /\ usable_read (inferWorktreeRoot w) k q = true))).

(** The Parts the finalization engine may remove: the completed
    file-operation Parts of a file that is not protected and is either
    invalidated or edited with a recoverable content. *)
Definition finalization_target (w : list ChatMessage) (p : ChatMessagePart) : Prop :=
  exists k,
    file_operation_of (inferWorktreeRoot w) k p = true
    /\ protected config k = false
    /\ (k ∈ inv
        \/ ((k ∉ inv)
            /\ (exists q, q ∈ all_parts w
                  /\ snapshot_of (inferWorktreeRoot w) k q = true))).

End Targets.

Section Synthetic.
Context {rt : Runtime}.

(** The label of a synthetic read. *)
Definition synthetic_label (worktreeRoot : option string) (filePath : string) : string :=
  match worktreeRoot with
  | Some r => if str_empty r then filePath else path_relative r filePath
  | None => filePath
  end.

(** The synthetic Parts the last loop of the finalization engine makes for
    the files [files], the first of them at tick [n] of the clock. *)
Fixpoint synthetic_parts (worktreeRoot : option string) (clock : nat -> Z)
    (g : Finalize.Gathered) (n : nat) (files : list string) : list ChatMessagePart :=
  match files with
  | [] => []
  | filePath :: rest =>
      match Finalize.latestByFile g !! filePath with
      | None => synthetic_parts worktreeRoot clock g n rest
      | Some latest =>
          PTool
            (Finalize.makeSyntheticReadPart filePath
               (if Finalize.isAlreadyReadFormatted latest
                then Finalize.content latest
                else renderReadLikeOutput (Finalize.content latest))
               (synthetic_label worktreeRoot filePath) (clock n))
          :: synthetic_parts worktreeRoot clock g (S n) rest
      end
  end.

(** A Part made by [makeSyntheticReadPart] for the file [k]. *)
Definition synthetic_read_of (k : string) (p : ChatMessagePart) : Prop :=
  exists output label now,
    p = PTool (Finalize.makeSyntheticReadPart k output label now).

Definition synthetic_read (p : ChatMessagePart) : Prop :=
  exists k, synthetic_read_of k p.

End Synthetic.

(** Whether a string holds an upper-case letter. *)
Fixpoint has_upper (s : string) : bool :=
  match s with
  | EmptyString => false
  | String a s' =>
      (let n := nat_of_ascii a in (65 <=? n) && (n <=? 90))%nat || has_upper s'
  end.

(** ** A runtime for the examples

    Node's POSIX [path] on paths written in normal form (no empty, [.] or
    [..] segment and no trailing slash), the only paths the examples use, the
    working directory of the process being [/]: on them [path.normalize]
    gives the path back and [path.resolve] joins its arguments from the last
    absolute one on.  [JSON.stringify] is written out for values
    whose strings need no escape; the tokenizer is a stand-in that makes one
    token of each character. *)

Fixpoint last_segment (s : string) : string :=
  match s with
  | EmptyString => EmptyString
  | String a s' =>
      if bool_decide (a = ch 47) then last_segment s'
      else if bool_decide (ch 47 ∈ list_ascii_of_string s') then last_segment s'
      else s
  end.

Fixpoint suffix_from_last_dot (s : string) : option string :=
  match s with
  | EmptyString => None
  | String a s' =>
      match suffix_from_last_dot s' with
      | Some e => Some e
      | None => if bool_decide (a = ch 46) then Some s else None
      end
  end.

Definition posix_extname (p : string) : string :=
  let base := last_segment p in
  if bool_decide (base = "..") then EmptyString
  else match base with
       | EmptyString => EmptyString
       | String _ rest => default EmptyString (suffix_from_last_dot rest)
       end.

Definition posix_isAbsolute (p : string) : bool :=
  match p with String a _ => bool_decide (a = ch 47) | EmptyString => false end.

(** The arguments of [path.resolve] joined from the right, up to the first
    absolute one; empty arguments are skipped. *)
Fixpoint posix_joined (segments : list string) : string :=
  match segments with
  | [] => EmptyString
  | s :: rest =>
      let r := posix_joined rest in
      if posix_isAbsolute r then r
      else if str_empty s then r
      else if str_empty r then s
      else if bool_decide (s = "/") then s +:+ r
      else s +:+ "/" +:+ r
  end.

Definition posix_resolve (segments : list string) : string :=
  let r := posix_joined segments in
  if posix_isAbsolute r then r else "/" +:+ r.

Fixpoint strip_prefix (prefix s : string) : option string :=
  match prefix, s with
  | EmptyString, _ => Some s
  | String a prefix', String b s' =>
      if bool_decide (a = b) then strip_prefix prefix' s' else None
  | String _ _, EmptyString => None
  end.

Definition posix_relative (from to : string) : string :=
  default to (strip_prefix (from +:+ "/") to).

Fixpoint join_with (sep : string) (pieces : list string) : string :=
  match pieces with
  | [] => EmptyString
  | [p] => p
  | p :: rest => p +:+ sep +:+ join_with sep rest
  end.

Definition quoted (s : string) : string := str1 dquote +:+ s +:+ str1 dquote.

Definition print_Z (z : Z) : string :=
  if (z <? 0)%Z then "-" +:+ toString (Z.to_nat (- z)) else toString (Z.to_nat z).

Fixpoint print_json (v : JValue) : string :=
  match v with
  | JNull => "null"
  | JBool true => "true"
  | JBool false => "false"
  | JNum z => print_Z z
  | JStr s => quoted s
  | JArr items => "[" +:+ join_with "," (map print_json items) +:+ "]"
  | JObj fields =>
      "{" +:+ join_with ","
                (map (fun kv => quoted kv.1 +:+ ":" +:+ print_json kv.2) fields)
      +:+ "}"
  end.

Definition posix : Runtime := {|
  path_extname := posix_extname;
  path_basename := last_segment;
  path_isAbsolute := posix_isAbsolute;
  path_normalize := fun p => p;
  path_resolve := posix_resolve;
  path_join := fun a b => a +:+ b;
  path_relative := posix_relative;
  homedir := "/home/user";
  JSON_stringify := fun v => Some (print_json v);
  encode := fun text => Some (nat_of_ascii <$> list_ascii_of_string text);
|}.

(** ** Example windows *)

Definition completed_part (callID tool : string) (input : JValue) (output : string)
    (metadata : JValue) : ChatMessagePart :=
  PTool
    {| id := None; callID := Some callID; tool := tool;
       state :=
         Completed
           {| input := input; output := output; title := tool;
              metadata := metadata;
              time_start := 1; time_end := 2; time_compacted := None;
              attachments := None |};
       part_metadata := None |}.

Definition read_part (callID filePath output : string) : ChatMessagePart :=
  completed_part callID "read" (JObj [("filePath", JStr filePath)]) output (JObj []).

Definition edit_part (callID filePath after : string) : ChatMessagePart :=
  completed_part callID "edit"
    (JObj [("filePath", JStr filePath); ("oldString", JStr "a");
           ("newString", JStr "b")])
    "ok"
    (JObj [("filediff", JObj [("file", JStr filePath); ("after", JStr after)])]).

Definition message (role : string) (parts : list ChatMessagePart) : ChatMessage :=
  {| info := {| role := role; sessionID := Some "ses_1"; agent := None;
                model := None; path := None |};
     parts := parts |}.

Definition no_protection : WhitelistConfig :=
  {| allowedModels := []; enforced := false; toolOverrides := None;
     protectedFiles := None |}.

Definition default_protection : WhitelistConfig :=
  {| allowedModels := []; enforced := false; toolOverrides := None;
     protectedFiles :=
       Some {| extensions := [".md"; ".txt"];
               patterns := ["*.config.*"; "README*"; "*.json"] |} |}.

(** The scenario of the specification: a file read, edited, then read
    again. *)
Definition read_edit_read : list ChatMessage :=
  [message "user" [PText "fix a.ts" JNull];
   message "assistant"
     [read_part "call_1" "/w/a.ts" "<file>old</file>";
      PText "editing" JNull;
      edit_part "call_2" "/w/a.ts" "X";
      read_part "call_3" "/w/a.ts" "<file>X</file>"]].

(** Two reads of one file, both with an empty output. *)
Definition two_empty_reads : list ChatMessage :=
  [message "assistant"
     [read_part "call_1" "/w/a.ts" ""; read_part "call_2" "/w/a.ts" ""]].

(** A window without an assistant message: one read of a file. *)
Definition read_without_assistant : list ChatMessage :=
  [message "user" [read_part "call_1" "/w/a.ts" "<file>old</file>"]].

(** A window without an assistant message: one edit of a file. *)
Definition edit_without_assistant : list ChatMessage :=
  [message "user" [edit_part "call_1" "/w/a.ts" "X"]].

(** A file edited twice and never read. *)
Definition edits_only : list ChatMessage :=
  [message "assistant"
     [edit_part "call_1" "/w/b.ts" "X"; edit_part "call_2" "/w/b.ts" "Y"]].

(** A protected file read, then edited. *)
Definition protected_history : list ChatMessage :=
  [message "assistant"
     [read_part "call_1" "/w/notes.md" "<file>n</file>";
      edit_part "call_2" "/w/notes.md" "m";
      read_part "call_3" "/w/a.ts" "<file>a</file>"]].


(** ** Windows before and after a pass *)

(** [window_revised T w w']: [w'] has the messages of [w], each with the Parts
    it had except for Parts satisfying [T], which may be gone or replaced. *)
Definition window_revised (T : ChatMessagePart -> Prop) (w w' : list ChatMessage)
  : Prop :=
  Forall2 (fun m m' => info m' = info m /\ revised T (parts m) (parts m')) w w'.

(** [window_pruned T w w']: [w'] has the messages of [w], each with the Parts
    it had except for Parts satisfying [T], which may be gone. *)
Definition window_pruned (T : ChatMessagePart -> Prop) (w w' : list ChatMessage)
  : Prop :=
  Forall2 (fun m m' => info m' = info m /\ pruned T (parts m) (parts m')) w w'.

(** [window_finalized T w w']: as [window_pruned], with synthetic reads
    appended to what is left of a message. *)
Definition window_finalized `{Runtime} (T : ChatMessagePart -> Prop)
    (w w' : list ChatMessage) : Prop :=
  Forall2
    (fun m m' =>
       info m' = info m
       /\ exists kept extra : list ChatMessagePart,
            parts m' = (kept ++ extra)%list
            /\ pruned T (parts m) kept
            /\ Forall synthetic_read extra)
    w w'.

(** The output of a completed tool Part. *)
Definition part_output (t : ToolPart) : string :=
  match state t with Completed st => output st | _ => EmptyString end.

Section Costs.
Context {rt : Runtime}.
Variable config : WhitelistConfig.
Variable inv : gset string.
Variable worktreeRoot : option string.

(** What pass 3 of the consolidation engine adds to the before and to the
    after total for a Part. *)
Definition before_cost (h : Cleanup.History) (s : Cleanup.Selection)
    (p : ChatMessagePart) : nat :=
  tokensBefore (Cleanup.sweep_part config inv worktreeRoot h s emptyDelta p).1.

Definition after_cost (h : Cleanup.History) (s : Cleanup.Selection)
    (p : ChatMessagePart) : nat :=
  tokensAfter (Cleanup.sweep_part config inv worktreeRoot h s emptyDelta p).1.

End Costs.

(** ** Accounting *)

(** A delta whose totals are split between the read and the edit bucket, with
    nothing in the edit bucket after the pass, and whose invalidated tokens are
    part of the before total. *)
Definition bucketed (d : StepTokenDelta) : Prop :=
  tokensBefore d = readTokensBefore d + editTokensBefore d
  /\ tokensAfter d = readTokensAfter d
  /\ editTokensAfter d = 0
  /\ invalidatedTokensBefore d <= tokensBefore d.

(** A delta that reports no more tokens after the pass than before it. *)
Definition saving (d : StepTokenDelta) : Prop :=
  tokensAfter d <= tokensBefore d /\ readTokensAfter d <= readTokensBefore d.

(** ** Content carried by an edit *)

(** The content of the file after a completed edit, multiedit or write, as
    both engines recover it: from the metadata of an edit or multiedit, from
    the input of a write. *)
Definition snapshot_content `{Runtime} (t : ToolPart) : option string :=
  match state t with
  | Completed st =>
      if bool_decide (tool t = "edit") || bool_decide (tool t = "multiedit") then
        extractAfterFromEditMetadata (metadata st)
      else if bool_decide (tool t = "write") then
        if truthy (input st) then as_string (prop "content" (input st)) else None
      else None
  | _ => None
  end.

(** A file read, then edited. *)
Definition read_then_edit : list ChatMessage :=
  [message "assistant"
     [read_part "call_1" "/w/a.ts" "<file>old</file>";
      edit_part "call_2" "/w/a.ts" "X"]].

(** ** Characters of a string *)

(** Whether the character [c] occurs in [s]. *)
Fixpoint has_char (c : ascii) (s : string) : bool :=
  match s with
  | EmptyString => false
  | String a s' => bool_decide (a = c) || has_char c s'
  end.

(** Whether every character of [s] satisfies [ok]. *)
Fixpoint all_chars (ok : ascii -> bool) (s : string) : bool :=
  match s with
  | EmptyString => true
  | String a s' => ok a && all_chars ok s'
  end.

(** A pattern character that [globToRegex] does not translate: any character
    but the star and the question mark. *)
Definition glob_literal (a : ascii) : bool :=
  negb (bool_decide (a = ch 42) || bool_decide (a = ch 63)).

(** Whether a message names a worktree root: [info.path.root] is a non-empty
    string. *)
Definition names_root (m : ChatMessage) : bool :=
  match path (info m) ≫= root with
  | Some r => negb (str_empty r)
  | None => false
  end.

(** ** whitelist.ts *)

Definition isModelAllowed (model : string) (config : WhitelistConfig) : bool :=
  if negb (enforced config) then true else includes (allowedModels config) model.

(** [model] is absent when it is [undefined]; the empty string is as falsy. *)
Definition shouldSkipContextCleanup (model : option string)
    (config : option WhitelistConfig) : bool :=
  match config, model with
  | Some c, Some m => if str_empty m then false else negb (isModelAllowed m c)
  | _, _ => false
  end.

(** ** types.ts: [modelKey] *)

Definition modelKey (model : option ModelRef) : option string :=
  match model with
  | Some m => Some (providerID m +:+ "/" +:+ modelID m)
  | None => None
  end.

(** ** The tool-call helpers *)

Definition extractFilesFromToolPart `{Runtime} (part : ToolPart)
    (worktreeRoot : option string) : list string :=
  match extractPrimaryFilePath part worktreeRoot with
  | Some primary => if str_empty primary then [] else [primary]
  | None => []
  end.

Definition shouldProtectToolPart `{Runtime} (part : ToolPart)
    (protectedExtensions protectedPatterns : list string)
    (worktreeRoot : option string) : bool :=
  existsb (fun p => isFileProtected p protectedExtensions protectedPatterns)
    (extractFilesFromToolPart part worktreeRoot).

(** ** opencode-client.ts: [getSessionDiff] *)

(** What one call of [client.session.diff] gives when its result is usable:
    the result itself when it is an array, its [data] when that is one. *)
Definition diff_items (resp : option JValue) : option (list JValue) :=
  match resp with
  | Some (JArr items) => Some items
  | Some v =>
      match prop "data" v with
      | Some (JArr items) => Some items
      | _ => None
      end
  | None => None
  end.

(** [v1] and [v2] are what the v1-style and the v2-style call of
    [client.session.diff] resolve to, [None] for a call that throws. *)
Definition getSessionDiff (v1 v2 : option JValue) : list JValue :=
  match diff_items v1 with
  | Some items => items
  | None =>
      match diff_items v2 with
      | Some items => items
      | None => []
      end
  end.

(** ** task-invalidation.ts *)

Definition extractDiffs (resp : option JValue) : list JValue :=
  match resp with
  | None => []
  | Some v =>
      if negb (truthy v) then []
      else match v with
           | JArr items => items
           | _ =>
               match prop "data" v with
               | Some (JArr items) => items
               | _ => []
               end
           end
  end.

(** The tracker's [invalidatedByParentSession] map. *)
Abbreviation InvalidationStore := (gmap string (gset string)).

Definition addInvalidated (parentSessionID : string) (filePaths : list string)
    (store : InvalidationStore) : InvalidationStore :=
  <[parentSessionID :=
      default ∅ (store !! parentSessionID) ∪ list_to_set filePaths]> store.

Definition getInvalidatedFiles (parentSessionID : option string)
    (store : InvalidationStore) : gset string :=
  match parentSessionID with
  | Some p => if str_empty p then ∅ else default ∅ (store !! p)
  | None => ∅
  end.

(** The normalized path of a diff entry, when its [file] is a string that
    normalizes to a non-empty path. *)
Definition diff_path `{Runtime} (worktreeRoot : option string) (d : JValue)
  : option string :=
  match as_string (prop "file" d) with
  | Some file =>
      match normalizeFilePath file worktreeRoot with
      | Some x => if str_empty x then None else Some x
      | None => None
      end
  | None => None
  end.

Definition is_null (v : JValue) : bool :=
  match v with JNull => true | _ => false end.

(** [onTaskToolAfter(hookInput, hookOutput)], with what the two calls of
    [client.session.diff] resolve to.  The store after the call; [None] when
    the call rejects, which reading [file] of a [null] entry makes it do. *)
Definition onTaskToolAfter `{Runtime} (worktreeRoot : option string)
    (hookSessionID : string) (metadata : option JValue) (v1 v2 : option JValue)
    (store : InvalidationStore) : option InvalidationStore :=
  match as_string (metadata ≫= prop "sessionId") with
  | None => Some store
  | Some sessionId =>
      if str_empty sessionId then Some store
      else
        let diffs := extractDiffs (Some (JArr (getSessionDiff v1 v2))) in
        if existsb is_null diffs then None
        else
          let normalized := omap (diff_path worktreeRoot) diffs in
          if bool_decide (normalized = []) then Some store
          else Some (addInvalidated hookSessionID normalized store)
  end.

(** ** index.ts: the plugin *)

(** The last user message that carries a model gives the active model. *)
Fixpoint inferModelFromMessages (messages : list ChatMessage) : option string :=
  match messages with
  | [] => None
  | m :: rest =>
      match inferModelFromMessages rest with
      | Some k => Some k
      | None =>
          if bool_decide (role (info m) = "user") then modelKey (model (info m))
          else None
      end
  end.

(** The first message whose [sessionID] is a non-empty string. *)
Fixpoint inferSessionID (messages : list ChatMessage) : option string :=
  match messages with
  | [] => None
  | m :: rest =>
      match sessionID (info m) with
      | Some sid => if str_empty sid then inferSessionID rest else Some sid
      | None => inferSessionID rest
      end
  end.

Record AgentModel := { am_agent : option string; am_model : option ModelRef }.

(** The last message whose role is ["user"]. *)
Fixpoint lastUser (messages : list ChatMessage) : option ChatMessage :=
  match messages with
  | [] => None
  | m :: rest =>
      match lastUser rest with
      | Some u => Some u
      | None => if bool_decide (role (info m) = "user") then Some m else None
      end
  end.

(** The agent and model of the last user message; nothing without one. *)
Definition inferAgentModel (messages : list ChatMessage) : AgentModel :=
  match lastUser messages with
  | Some m => {| am_agent := agent (info m); am_model := model (info m) |}
  | None => {| am_agent := None; am_model := None |}
  end.

(** What the closure of [ContextJarPlugin] holds. *)
Record Plugin := {
  whitelistConfig : option WhitelistConfig;
  worktree : option string;
  invalidatedByParentSession : InvalidationStore;
  bySession : StatsStore;
  idleInFlight : gset string;
  pendingFinalize : gset string;
  sessionContext : gmap string AgentModel;
}.

(** The events the [event] hook tells apart. *)
Inductive PluginEvent : Type :=
| SessionStatus (statusType : string) (eventSessionID : string)
| SessionIdle (eventSessionID : string)
| OtherEvent (eventType : string).

Definition idle_session (e : PluginEvent) : option string :=
  match e with
  | SessionStatus statusType sid =>
      if bool_decide (statusType = "idle") then Some sid else None
  | SessionIdle sid => Some sid
  | OtherEvent _ => None
  end.

(** The summary the [event] hook asks to send: the session, the agent and
    model recorded for it, and the stats that [buildIdleSummary] renders. *)
Record SummaryRequest := {
  req_sessionID : string;
  req_context : option AgentModel;
  req_stats : SessionTokenStats;
}.

(** The [event] hook up to its [await]: the plugin as the hook leaves it there,
    and the summary it sends, if any. *)
Definition event_before_send (e : PluginEvent) (p : Plugin)
  : Plugin * option SummaryRequest :=
  match idle_session e with
  | None => (p, None)
  | Some sid =>
      let p :=
        {| whitelistConfig := whitelistConfig p;
           worktree := worktree p;
           invalidatedByParentSession := invalidatedByParentSession p;
           bySession := bySession p;
           idleInFlight := idleInFlight p;
           pendingFinalize := pendingFinalize p ∪ {[sid]};
           sessionContext := sessionContext p |} in
      if negb (shouldReportOnIdle sid (bySession p)) then (p, None)
      else
        match get sid (bySession p) with
        | None => (p, None)
        | Some stats =>
            if bool_decide (sid ∈ idleInFlight p) then (p, None)
            else
              ({| whitelistConfig := whitelistConfig p;
                  worktree := worktree p;
                  invalidatedByParentSession := invalidatedByParentSession p;
                  bySession := bySession p;
                  idleInFlight := idleInFlight p ∪ {[sid]};
                  pendingFinalize := pendingFinalize p;
                  sessionContext := sessionContext p |},
               Some {| req_sessionID := sid;
                       req_context := sessionContext p !! sid;
                       req_stats := stats |})
        end
  end.

(** The [event] hook after its [await]: [ok] is what [sendIgnoredSummary]
    resolved to, [now] the value of [Date.now()] in [markReported]. *)
Definition event_after_send (sid : string) (ok : bool) (now : Z) (p : Plugin)
  : Plugin :=
  {| whitelistConfig := whitelistConfig p;
     worktree := worktree p;
     invalidatedByParentSession := invalidatedByParentSession p;
     bySession := if ok then markReported sid now (bySession p) else bySession p;
     idleInFlight := idleInFlight p ∖ {[sid]};
     pendingFinalize := pendingFinalize p;
     sessionContext := sessionContext p |}.

(** The [tool.execute.after] hook, from the point where [getSessionDiff]
    has resolved. *)
Definition tool_execute_after `{Runtime} (tool : string) (hookSessionID : string)
    (metadata : option JValue) (v1 v2 : option JValue) (p : Plugin)
  : option Plugin :=
  if negb (bool_decide (tool = "task")) then Some p
  else
    match onTaskToolAfter (worktree p) hookSessionID metadata v1 v2
            (invalidatedByParentSession p) with
    | None => None
    | Some store =>
        Some {| whitelistConfig := whitelistConfig p;
                worktree := worktree p;
                invalidatedByParentSession := store;
                bySession := bySession p;
                idleInFlight := idleInFlight p;
                pendingFinalize := pendingFinalize p;
                sessionContext := sessionContext p |}
    end.

(** The [experimental.chat.messages.transform] hook: the plugin and the
    messages as the hook leaves them.  [clock] gives the values of
    [Date.now()] inside the finalization engine, [now] the one in
    [record]. *)
Definition messages_transform `{Runtime} (clock : nat -> Z) (now : Z)
    (messages : list ChatMessage) (p : Plugin) : Plugin * list ChatMessage :=
  let activeModel := inferModelFromMessages messages in
  match whitelistConfig p with
  | None => (p, messages)
  | Some config =>
      if shouldSkipContextCleanup activeModel (Some config) then (p, messages)
      else
        match inferSessionID messages with
        | None => (p, messages)
        | Some sid =>
            let invalidated :=
              getInvalidatedFiles (Some sid) (invalidatedByParentSession p) in
            let '(delta, messages') :=
              if bool_decide (sid ∈ pendingFinalize p)
              then Finalize.finalizeEditedFilesForNextStep clock messages config
                     invalidated
              else Cleanup.cleanupMessagesForContextJar messages config
                     invalidated in
            ({| whitelistConfig := whitelistConfig p;
                worktree := worktree p;
                invalidatedByParentSession := invalidatedByParentSession p;
                bySession := (record sid delta now (bySession p)).1;
                idleInFlight := idleInFlight p;
                pendingFinalize := pendingFinalize p ∖ {[sid]};
                sessionContext :=
                  <[sid := inferAgentModel messages]> (sessionContext p) |},
             messages')
        end
  end.

(** One call of a hook, with what the outside world answers in it. *)
Inductive HookCall : Type :=
| EventBeforeSend (e : PluginEvent)
| EventAfterSend (sid : string) (ok : bool) (now : Z)
| ToolExecuteAfter (tool hookSessionID : string) (metadata : option JValue)
    (v1 v2 : option JValue)
| MessagesTransform (clock : nat -> Z) (now : Z) (messages : list ChatMessage).

(** The plugin after a call; a hook that rejects leaves it as it was. *)
Definition after_call `{Runtime} (p : Plugin) (c : HookCall) : Plugin :=
  match c with
  | EventBeforeSend e => (event_before_send e p).1
  | EventAfterSend sid ok now => event_after_send sid ok now p
  | ToolExecuteAfter tool sid metadata v1 v2 =>
      default p (tool_execute_after tool sid metadata v1 v2 p)
  | MessagesTransform clock now messages =>
      (messages_transform clock now messages p).1
  end.

(** The plugin after a sequence of calls. *)
Definition after_calls `{Runtime} (p : Plugin) (calls : list HookCall) : Plugin :=
  foldl after_call p calls.

(** The call that settles the sending of the summary of session [sid]. *)
Definition settles (sid : string) (c : HookCall) : Prop :=
  match c with
  | EventAfterSend sid' _ _ => sid' = sid
  | _ => False
  end.

(** ** Example plugins *)

(** A plugin with no protection configured, in which a subagent of session
    ["ses_1"] has changed [/w/a.ts], and a step of the session is recorded. *)
Definition example_plugin : Plugin :=
  {| whitelistConfig := Some no_protection;
     worktree := Some "/w";
     invalidatedByParentSession := {["ses_1" := {["/w/a.ts"]}]};
     bySession := (record "ses_1" zeroDelta 10 ∅).1;
     idleInFlight := ∅;
     pendingFinalize := ∅;
     sessionContext := ∅ |}.

(** An enforced whitelist of one model. *)
Definition one_model_only : WhitelistConfig :=
  {| allowedModels := ["anthropic/claude-3-5-sonnet-20241022"]; enforced := true;
     toolOverrides := None; protectedFiles := None |}.

Definition whitelisting_plugin : Plugin :=
  {| whitelistConfig := Some one_model_only;
     worktree := Some "/w";
     invalidatedByParentSession := ∅;
     bySession := ∅;
     idleInFlight := ∅;
     pendingFinalize := ∅;
     sessionContext := ∅ |}.

(** A window whose user message carries a model the whitelist does not
    list. *)
Definition other_model_window : list ChatMessage :=
  [{| info := {| role := "user"; sessionID := Some "ses_1"; agent := None;
                 model := Some {| providerID := "openai"; modelID := "gpt-4o" |};
                 path := None |};
      parts := [PText "fix a.ts" JNull] |};
   message "assistant" [read_part "call_1" "/w/a.ts" "<file>old</file>"]].

(** ** The tokens of a window *)

(** The token cost of a Part as both engines count it: that of a completed
    tool Part, nothing for any other Part. *)
Definition part_tokens `{Runtime} (p : ChatMessagePart) : nat :=
  match p with PTool t => toolPartTokens t | _ => 0 end.

Definition window_tokens `{Runtime} (messages : list ChatMessage) : nat :=
  sum_list (part_tokens <$> all_parts messages).

(** ** The files of a window *)

(** The file of a Part that is a completed file operation on a file that is
    not protected. *)
Definition tracked_file `{Runtime} (config : WhitelistConfig)
    (worktreeRoot : option string) (p : ChatMessagePart) : option string :=
  match file_of worktreeRoot p with
  | Some k =>
      if file_operation worktreeRoot p && negb (protected config k) then Some k
      else None
  | None => None
  end.

(** The files with a completed file operation in the window, protected files
    left out. *)
Definition tracked_files `{Runtime} (config : WhitelistConfig)
    (messages : list ChatMessage) : gset string :=
  list_to_set
    (omap (tracked_file config (inferWorktreeRoot messages)) (all_parts messages)).

(** The file of a Part that is a read with a non-empty output of a file that
    is neither protected nor invalidated. *)
Definition readable_file `{Runtime} (config : WhitelistConfig) (inv : gset string)
    (worktreeRoot : option string) (p : ChatMessagePart) : option string :=
  match file_of worktreeRoot p with
  | Some k =>
      if usable_read worktreeRoot k p && negb (protected config k)
         && negb (bool_decide (k ∈ inv))
      then Some k else None
  | None => None
  end.

Definition readable_files `{Runtime} (config : WhitelistConfig) (inv : gset string)
    (messages : list ChatMessage) : gset string :=
  list_to_set
    (omap (readable_file config inv (inferWorktreeRoot messages))
       (all_parts messages)).

(** ** Windows without an assistant message *)




(** ** Paths given in quotes

    A path in quotes with a blank before the closing quote: the resolver
    trims, then strips the quotes, and the key keeps the blank. *)

Definition quoted_path : string := "'/w/a.ts '".

(** One read of the quoted path. *)
Definition quoted_read : list ChatMessage :=
  [message "assistant" [read_part "call_1" quoted_path "<file>a</file>"]].

(** One edit of the quoted path. *)
Definition quoted_edit : list ChatMessage :=
  [message "assistant" [edit_part "call_1" quoted_path "X"]].

(** A file edited and never read, and a read of the quoted path. *)
Definition edit_then_quoted_read : list ChatMessage :=
  [message "assistant"
     [edit_part "call_1" "/w/a.ts" "X";
      read_part "call_2" quoted_path "<file>a</file>"]].

Open Scope list_scope.


(** * Lemmas *)

(** ** Loops *)

Section Loops.
Context {A B : Type}.

Lemma foldl_invariant (I : A -> Prop) (f : A -> B -> A) (l : list B) (a : A) :
  I a -> (forall a x, x ∈ l -> I a -> I (f a x)) -> I (foldl f a l).
Proof.
  revert a. induction l as [|x l IH]; intros a Ha Hstep; simpl; [done|].
  apply IH.
  - apply Hstep; [left | done].
  - intros a' y Hy. apply Hstep. by right.
Qed.

Lemma foldl_reach (Q : A -> Prop) (f : A -> B -> A) (l : list B) (a : A) (x : B) :
  (forall a y, Q a -> Q (f a y)) ->
  x ∈ l -> (forall a, Q (f a x)) -> Q (foldl f a l).
Proof.
  intros Hmono Hin Hx. revert a.
  induction l as [|y l IH]; intros a; [by apply elem_of_nil in Hin|].
  apply elem_of_cons in Hin as [->|Hin]; simpl.
  - apply foldl_invariant; [apply Hx | intros; by apply Hmono].
  - by apply IH.
Qed.

Lemma foldl_concat_imap {C : Type} (f : A -> C -> A) (g : nat -> B -> list C)
    (shift : nat -> nat) (l : list B) (a : A) :
  foldl f a (mjoin (imap (fun i => g (shift i)) l))
  = foldl (fun a ix => foldl f a (g ix.1 ix.2)) a (imap (fun i x => (shift i, x)) l).
Proof.
  revert shift a. induction l as [|x l IH]; intros shift a; [done|].
  simpl. rewrite foldl_app. apply (IH (shift ∘ S)).
Qed.

End Loops.

Lemma foldl_imap {A B C : Type} (f : A -> C -> A) (g : nat -> B -> C)
    (l : list B) (a : A) :
  foldl f a (imap g l) = foldl (fun a ix => f a (g ix.1 ix.2)) a (imap pair l).
Proof.
  revert g a. 
  assert (forall (shift : nat -> nat) g a,
    foldl f a (imap (fun i => g (shift i)) l)
    = foldl (fun a ix => f a (g ix.1 ix.2)) a (imap (fun i x => (shift i, x)) l)) as H.
  { induction l as [|x l IH]; intros shift g a; [done|].
    simpl. apply (IH (shift ∘ S)). }
  intros g a. apply (H (fun i => i)).
Qed.

(** ** The Parts of a window with their positions *)

Lemma elem_of_located w r p : (r, p) ∈ located w <-> part_at w r = Some p.
Proof.
  unfold located, part_at. destruct r as [i j]. simpl. split.
  - intros H. apply list_elem_of_join in H as (l & Hp & Hl).
    apply elem_of_lookup_imap in Hl as (i' & m & -> & Hm).
    apply elem_of_lookup_imap in Hp as (j' & p' & Heq & Hp).
    simplify_eq. by rewrite Hm.
  - intros H. destruct (w !! i) as [m|] eqn:Hm; simpl in H; [|done].
    apply list_elem_of_join. exists (imap (fun j p => ((i, j), p)) (parts m)).
    split; apply elem_of_lookup_imap; eauto.
Qed.

Lemma imap_shift_fmap {A B} (f : nat -> A -> B) (g : B -> B) (l : list A) :
  (forall i x, f (S i) x = g (f i x)) -> imap (f ∘ S) l = g <$> imap f l.
Proof.
  intros H. rewrite fmap_imap. apply imap_ext. intros i x _. apply H.
Qed.


Lemma all_parts_located w : (located w).*2 = all_parts w.
Proof.
  unfold located, all_parts.
  assert (forall (shift : nat -> nat),
    (mjoin (imap (fun i m => imap (fun j p => ((shift i, j), p)) (parts m)) w)).*2
    = mjoin (parts <$> w)) as H.
  { induction w as [|m w IH]; intros shift; [done|].
    simpl. rewrite fmap_app. f_equal; [|apply (IH (shift ∘ S))].
    rewrite fmap_imap. clear.
    generalize (parts m) as l. intros l.
    assert (forall (s : nat -> nat),
      imap (fun n => snd ∘ (fun p : ChatMessagePart => (shift 0, s n, p))) l = l) as H.
    { induction l as [|x l IH]; intros s; [done|]. simpl. f_equal. apply (IH (s ∘ S)). }
    apply (H (fun i => i)). }
  apply (H (fun i => i)).
Qed.

Lemma NoDup_located w : NoDup (located w).*1.
Proof.
  assert (forall (shift : nat -> nat), (forall i j, shift i = shift j -> i = j) ->
    forall a b r p1 p2,
    mjoin (imap (fun i m => imap (fun j p => ((shift i, j), p)) (parts m)) w) !! a
      = Some (r, p1) ->
    mjoin (imap (fun i m => imap (fun j p => ((shift i, j), p)) (parts m)) w) !! b
      = Some (r, p2) -> a = b) as H.
  { induction w as [|m w IH]; intros shift Hinj a b r p1 p2 Ha Hb; [done|].
    simpl in Ha, Hb.
    assert (forall c q, imap (fun j p => ((shift 0, j), p)) (parts m) !! c = Some (r, q)
                        -> r = (shift 0, c)) as Hhead.
    { intros c q Hc. rewrite list_lookup_imap in Hc.
      destruct (parts m !! c); simplify_eq/=. done. }
    assert (forall c q,
      mjoin (imap (fun i m => imap (fun j p => ((shift (S i), j), p)) (parts m)) w) !! c
        = Some (r, q) -> exists i, r.1 = shift (S i)) as Htail.
    { intros c q Hc. apply list_elem_of_lookup_2 in Hc.
      apply list_elem_of_join in Hc as (l & Hp & Hl).
      apply elem_of_lookup_imap in Hl as (i' & m' & -> & Hm).
      apply elem_of_lookup_imap in Hp as (j' & p' & Heq & Hp).
      simplify_eq. eauto. }
    apply lookup_app_Some in Ha as [Ha|[Hla Ha]];
      apply lookup_app_Some in Hb as [Hb|[Hlb Hb]].
    - apply Hhead in Ha, Hb. congruence.
    - apply Hhead in Ha. apply Htail in Hb as [i Hi]. subst r. simpl in Hi.
      apply Hinj in Hi. done.
    - apply Hhead in Hb. apply Htail in Ha as [i Hi]. subst r. simpl in Hi.
      apply Hinj in Hi. done.
    - assert (a - length (imap (fun j p => ((shift 0, j), p)) (parts m))
              = b - length (imap (fun j p => ((shift 0, j), p)) (parts m))).
      { eapply (IH (shift ∘ S)); [|exact Ha|exact Hb].
        intros i j Hij. apply Hinj in Hij. lia. }
      lia. }
  apply NoDup_alt. intros a b r Ha Hb.
  rewrite list_lookup_fmap in Ha, Hb.
  destruct (located w !! a) as [[r1 p1]|] eqn:Ea; simplify_eq/=.
  destruct (located w !! b) as [[r2 p2]|] eqn:Eb; simplify_eq/=.
  eapply (H (fun i => i)); [done|exact Ea|exact Eb].
Qed.


(** ** Small facts *)

Lemma elem_of_set_add x y s : x ∈ set_add y s <-> x = y \/ x ∈ s.
Proof.
  unfold set_add. case_bool_decide.
  - split; [auto|]. intros [->|]; done.
  - rewrite elem_of_app, list_elem_of_singleton. tauto.
Qed.

Lemma NoDup_set_add y s : NoDup s -> NoDup (set_add y s).
Proof.
  intros H. unfold set_add. case_bool_decide; [done|].
  apply NoDup_app. split; [done|]. split; [|apply NoDup_singleton].
  intros x Hx Hx'. apply list_elem_of_singleton in Hx'. by subst.
Qed.

Lemma foldl_ext' {A B} (f g : A -> B -> A) l a :
  (forall a x, f a x = g a x) -> foldl f a l = foldl g a l.
Proof.
  intros H. revert a. induction l as [|x l IH]; intros a; simpl; [done|].
  by rewrite H, IH.
Qed.

Lemma set_parts_id m : set_parts (parts m) m = m.
Proof. by destruct m. Qed.

(** ** Pass 1 of the consolidation engine *)

Section Collect.
Context {rt : Runtime}.
Variable config : WhitelistConfig.
Variable inv : gset string.
Variable root : option string.
Variable w : list ChatMessage.

Import Cleanup.

Local Abbreviation step := (collect_step config inv root).

Lemma collect_located :
  collect config inv root w = foldl step noHistory (located w).
Proof.
  unfold collect, located, enumerate.
  rewrite (foldl_concat_imap step
             (fun i m => imap (fun j p => ((i, j), p)) (parts m)) (fun i => i)).
  apply foldl_ext'. intros h [i m]. simpl.
  rewrite (foldl_imap step (fun j p => ((i, j), p))).
  apply foldl_ext'. by intros h' [j p].
Qed.

Ltac collect_cases :=
  unfold collect_step, collect_part; simpl; repeat case_match; simplify_eq/=.

Local Abbreviation keeper_source := (keeper_source config inv root w).

Lemma tool_at_part_at r t : part_at w r = Some (PTool t) -> tool_at w r = Some t.
Proof. unfold tool_at. by intros ->. Qed.

Lemma collect_lastRead k r :
  lastReadByFile (collect config inv root w) !! k = Some r -> keeper_source k r.
Proof.
  rewrite collect_located. revert k r.
  apply (foldl_invariant
    (fun h => forall k r, lastReadByFile h !! k = Some r -> keeper_source k r)).
  { intros k r. simpl. by rewrite lookup_empty. }
  intros h [r0 p0] Hin IH k r. apply elem_of_located in Hin.
  collect_cases; try (by apply IH).
  destruct (decide (k = s)) as [->|Hne].
  - rewrite lookup_insert_eq. intros [= <-].
    exists t. split; [by apply tool_at_part_at|].
    bool_hyps. unfold usable_read, protected.
    destruct (state t) eqn:Hst; simplify_eq.
    bool_goal. done.
  - rewrite lookup_insert_ne by done. apply IH.
Qed.

Lemma collect_lastRead_sets k r :
  let h := collect config inv root w in
  lastReadByFile h !! k = Some r ->
  k ∈ filesWithRead h /\ k ∈ filesWithHistory h /\ is_Some (latestByFile h !! k).
Proof.
  simpl. rewrite collect_located. revert k r.
  apply (foldl_invariant
    (fun h => forall k r, lastReadByFile h !! k = Some r ->
       k ∈ filesWithRead h /\ k ∈ filesWithHistory h /\ is_Some (latestByFile h !! k))).
  { intros k r. simpl. by rewrite lookup_empty. }
  intros h [r0 p0] Hin IH k r.
  collect_cases; rewrite ?elem_of_set_add;
    try (intros H; destruct (IH _ _ H) as (?&?&?); by auto).
  - destruct (decide (k = s)) as [->|Hne].
    + rewrite !lookup_insert_eq. eauto.
    + rewrite !lookup_insert_ne by done.
      intros H; destruct (IH _ _ H) as (?&?&?); by auto.
  - intros H; destruct (IH _ _ H) as (?&?&?). split_and!; auto.
    destruct (decide (k = s)) as [->|Hne].
    + rewrite lookup_insert_eq. eauto.
    + by rewrite lookup_insert_ne.
  - intros H; destruct (IH _ _ H) as (?&?&?). split_and!; auto.
    destruct (decide (k = s)) as [->|Hne].
    + rewrite lookup_insert_eq. eauto.
    + by rewrite lookup_insert_ne.
Qed.

Lemma collect_NoDup :
  let h := collect config inv root w in
  NoDup (filesWithRead h) /\ NoDup (filesWithHistory h).
Proof.
  simpl. rewrite collect_located.
  apply (foldl_invariant
    (fun h => NoDup (filesWithRead h) /\ NoDup (filesWithHistory h))).
  { split; apply NoDup_nil_2. }
  intros h [r0 p0] Hin [IH1 IH2].
  collect_cases; auto using NoDup_set_add.
Qed.

Lemma collect_filesWithRead k :
  k ∈ filesWithRead (collect config inv root w) ->
  exists p, p ∈ all_parts w /\ read_of root k p = true /\ protected config k = false.
Proof.
  rewrite collect_located. revert k.
  apply (foldl_invariant
    (fun h => forall k, k ∈ filesWithRead h ->
       exists p, p ∈ all_parts w /\ read_of root k p = true
                 /\ protected config k = false)).
  { intros k Hk. by apply elem_of_nil in Hk. }
  intros h [r0 p0] Hin IH k.
  assert (p0 ∈ all_parts w) as Hp0.
  { rewrite <- all_parts_located. apply list_elem_of_fmap. by exists (r0, p0). }
  collect_cases; rewrite ?elem_of_set_add; try (by apply IH);
    (intros [->|Hk]; [|by apply IH]);
    exists (PTool t); (split; [done|]);
    bool_hyps; unfold read_of, protected, completed; simpl;
    destruct (state t) eqn:Hst; simplify_eq;
    bool_goal; split_and?; congruence.
Qed.

Lemma file_operation_of_inv k p :
  file_operation_of root k p = true ->
  exists t st, p = PTool t /\ state t = Completed st
    /\ isFileTool (tool t) = true /\ resolved t root = Some k.
Proof.
  unfold file_operation_of, file_operation, completed, file_of.
  destruct p as [t| |]; simpl; try done.
  destruct (state t) eqn:Hst; simpl; try done.
  intros H. bool_hyps. eauto 10.
Qed.

Lemma collect_filesWithHistory k p :
  p ∈ all_parts w -> file_operation_of root k p = true ->
  protected config k = false ->
  k ∈ filesWithHistory (collect config inv root w).
Proof.
  intros Hp Hop Hprot. rewrite collect_located.
  rewrite <- all_parts_located in Hp.
  apply list_elem_of_fmap in Hp as ([r p'] & -> & Hin). simpl in *.
  apply file_operation_of_inv in Hop as (t & st & -> & Hst & Htool & Hres).
  apply (foldl_reach (fun h => k ∈ filesWithHistory h) step _ _ (r, PTool t));
    [|done|].
  - intros h [r0 p0] Hk. collect_cases; rewrite ?elem_of_set_add; auto.
  - intros h. unfold protected in Hprot.
    unfold collect_step, collect_part, isCompletedToolPart. simpl.
    rewrite Hst, Htool, Hres, Hprot. simpl.
    repeat case_match; simpl; rewrite ?elem_of_set_add; auto.
Qed.

Lemma usable_read_inv k p :
  usable_read root k p = true ->
  exists t st, p = PTool t /\ state t = Completed st /\ tool t = "read"
    /\ resolved t root = Some k /\ str_empty (output st) = false.
Proof.
  unfold usable_read. destruct p as [t| |]; try done.
  destruct (state t) eqn:Hst; try done.
  intros H. bool_hyps. eauto 10.
Qed.

Lemma collect_has_lastRead k p :
  p ∈ all_parts w -> usable_read root k p = true ->
  protected config k = false -> k ∉ inv ->
  is_Some (lastReadByFile (collect config inv root w) !! k).
Proof.
  intros Hp Hop Hprot Hinv. rewrite collect_located.
  rewrite <- all_parts_located in Hp.
  apply list_elem_of_fmap in Hp as ([r p'] & -> & Hin). simpl in *.
  apply usable_read_inv in Hop as (t & st & -> & Hst & Htool & Hres & Hout).
  apply (foldl_reach (fun h => is_Some (lastReadByFile h !! k)) step _ _ (r, PTool t));
    [|done|].
  - intros h [r0 p0] Hk. collect_cases; auto.
    destruct (decide (k = s)) as [->|Hne].
    + rewrite lookup_insert_eq. eauto.
    + by rewrite lookup_insert_ne.
  - intros h. unfold protected in Hprot.
    unfold collect_step, collect_part, isCompletedToolPart, isFileTool. simpl.
    rewrite Hst, Htool, Hres, Hprot, Hout. simpl.
    rewrite bool_decide_eq_false_2 by done. simpl.
    rewrite lookup_insert_eq. eauto.
Qed.

End Collect.


Lemma foldl_prefix_invariant {A B} (I : list B -> A -> Prop) (f : A -> B -> A)
    (l : list B) (a : A) :
  I [] a ->
  (forall (done : list B) x rest a,
     l = done ++ x :: rest -> I done a -> I (done ++ [x]) (f a x)) ->
  I l (foldl f a l).
Proof.
  intros H0 Hstep.
  assert (forall (rest done : list B) a, l = done ++ rest -> I done a ->
            I (done ++ rest) (foldl f a rest)) as H.
  { induction rest as [|x rest IH]; intros done a' Hl Hd; simpl.
    - by rewrite app_nil_r.
    - replace (done ++ x :: rest) with ((done ++ [x]) ++ rest)
        by (by rewrite <- app_assoc).
      apply IH; [by rewrite <- app_assoc|]. eapply Hstep; eauto. }
  apply (H l [] a); done.
Qed.

Lemma Forall2_imap_r {A B} (R : A -> B -> Prop) (f : nat -> A -> B) (l : list A) :
  (forall i x, l !! i = Some x -> R x (f i x)) -> Forall2 R l (imap f l).
Proof.
  revert f. induction l as [|x l IH]; intros f H; simpl; constructor.
  - by apply (H 0).
  - apply IH. intros i y Hy. by apply (H (S i)).
Qed.

Lemma revised_refl T l : revised T l l.
Proof. induction l; constructor; done. Qed.

Lemma revised_mono (T T' : ChatMessagePart -> Prop) l l' :
  (forall p, T p -> T' p) -> revised T l l' -> revised T' l l'.
Proof.
  intros H. induction 1;
    [apply revised_nil | apply revised_keep | apply revised_drop
    | apply revised_replace]; auto.
Qed.

Lemma pruned_refl T l : pruned T l l.
Proof. induction l; constructor; done. Qed.

Lemma pruned_mono (T T' : ChatMessagePart -> Prop) l l' :
  (forall p, T p -> T' p) -> pruned T l l' -> pruned T' l l'.
Proof.
  intros H. induction 1;
    [apply pruned_nil | apply pruned_keep | apply pruned_drop]; auto.
Qed.

Lemma pruned_revised T l l' : pruned T l l' -> revised T l l'.
Proof.
  induction 1; [apply revised_nil | apply revised_keep | apply revised_drop]; auto.
Qed.

Lemma revised_filter_imap (T : ChatMessagePart -> Prop)
    (f : nat -> ChatMessagePart -> ChatMessagePart)
    (keep : ChatMessagePart -> bool) (l : list ChatMessagePart) :
  (forall j p, l !! j = Some p -> f j p = p \/ T p) ->
  (forall j p, l !! j = Some p -> keep (f j p) = false -> T p) ->
  revised T l (filter (fun p => keep p) (imap f l)).
Proof.
  revert f. induction l as [|p l IH]; intros f H1 H2; simpl; [constructor|].
  assert (revised T l (filter (fun p => keep p) (imap (f ∘ S) l))) as Hrest.
  { apply IH; intros j q Hq; [apply (H1 (S j)) | apply (H2 (S j))]; done. }
  rewrite filter_cons. destruct (decide (keep (f 0 p))) as [Hk|Hk].
  - destruct (H1 0 p eq_refl) as [Heq|HT].
    + rewrite Heq. by constructor.
    + by apply revised_replace.
  - apply revised_drop; [|done]. apply (H2 0); [done|].
    by destruct (keep (f 0 p)).
Qed.

Lemma pruned_filter (T : ChatMessagePart -> Prop) (keep : ChatMessagePart -> bool)
    (l : list ChatMessagePart) :
  (forall p, p ∈ l -> keep p = false -> T p) ->
  pruned T l (filter (fun p => keep p) l).
Proof.
  induction l as [|p l IH]; intros H; [constructor|].
  rewrite filter_cons. destruct (decide (keep p)) as [Hk|Hk].
  - constructor. apply IH. intros q Hq. apply H. by right.
  - apply pruned_drop.
    + apply H; [by left|]. by destruct (keep p).
    + apply IH. intros q Hq. apply H. by right.
Qed.

(** ** Pass 2 of the consolidation engine *)

Section Select.
Context {rt : Runtime}.
Variable config : WhitelistConfig.
Variable inv : gset string.
Variable root : option string.
Variable w : list ChatMessage.

Import Cleanup.

Local Abbreviation h := (collect config inv root w).
Local Abbreviation cpart := (consolidated_part root h).
Local Abbreviation cwindow := (consolidated_window root h).

Lemma consolidated_part_other done k0 r p :
  lastReadByFile h !! k0 <> Some r ->
  cpart (done ++ [k0]) r p = cpart done r p.
Proof.
  intros Hne. unfold consolidated_part.
  destruct (file_of root p) as [k|]; [|done].
  destruct (decide (k = k0)) as [->|Hk].
  - rewrite (bool_decide_eq_false_2 (lastReadByFile h !! k0 = Some r)) by done.
    by rewrite !andb_false_r.
  - replace (bool_decide (k ∈ done ++ [k0])) with (bool_decide (k ∈ done)); [done|].
    apply bool_decide_ext. rewrite elem_of_app, list_elem_of_singleton. tauto.
Qed.

Lemma consolidated_window_skip done k0 :
  (forall r, lastReadByFile h !! k0 <> Some r) ->
  cwindow (done ++ [k0]) w = cwindow done w.
Proof.
  intros Hne. unfold consolidated_window.
  apply imap_ext. intros i m _. f_equal.
  apply imap_ext. intros j p _. by apply consolidated_part_other.
Qed.

Lemma consolidated_window_nil : cwindow [] w = w.
Proof.
  unfold consolidated_window. apply list_eq. intros i.
  rewrite list_lookup_imap. destruct (w !! i) as [m|]; simpl; [|done].
  f_equal. destruct m as [inf ps]. unfold set_parts. simpl. f_equal.
  apply list_eq. intros j. rewrite list_lookup_imap.
  destruct (ps !! j) as [p|]; simpl; [|done]. f_equal.
  unfold consolidated_part. destruct (file_of root p); [|done].
  by rewrite (bool_decide_eq_false_2 (_ ∈ [])) by apply not_elem_of_nil.
Qed.

Lemma tool_at_lookup i j t :
  tool_at w (i, j) = Some t ->
  exists m, w !! i = Some m /\ parts m !! j = Some (PTool t).
Proof.
  unfold tool_at, part_at. simpl.
  destruct (w !! i) as [m|]; simpl; [|done].
  destruct (parts m !! j) as [[t'| |]|] eqn:Hp; try done.
  intros [= ->]. eauto.
Qed.

Lemma consolidated_window_update done k0 r0 t0 :
  k0 ∉ done ->
  lastReadByFile h !! k0 = Some r0 ->
  tool_at w r0 = Some t0 ->
  resolved t0 root = Some k0 ->
  update_part (rewrite_keeper k0 (latestByFile h !! k0)) r0 (cwindow done w)
  = cwindow (done ++ [k0]) w.
Proof.
  intros Hdone Hlast Htool Hres. destruct r0 as [i0 j0].
  apply tool_at_lookup in Htool as (m0 & Hm0 & Hp0).
  unfold update_part, consolidated_window. simpl.
  apply list_eq. intros i. rewrite list_lookup_alter, !list_lookup_imap.
  destruct (decide (i0 = i)) as [<-|Hi].
  - rewrite Hm0. simpl. f_equal. unfold set_parts. simpl. f_equal.
    apply list_eq. intros j. rewrite list_lookup_alter, !list_lookup_imap.
    destruct (decide (j0 = j)) as [<-|Hj].
    + rewrite Hp0. simpl. f_equal. unfold consolidated_part. simpl. rewrite Hres.
      rewrite (bool_decide_eq_false_2 (k0 ∈ done)) by done. simpl.
      rewrite bool_decide_eq_true_2 by (apply elem_of_app; right; by left).
      by rewrite bool_decide_eq_true_2.
    + destruct (parts m0 !! j) as [p|]; simpl; [|done]. f_equal.
      symmetry. apply consolidated_part_other. rewrite Hlast. congruence.
  - destruct (w !! i) as [m|]; simpl; [|done]. f_equal. f_equal.
    apply imap_ext. intros j p _.
    symmetry. apply consolidated_part_other. rewrite Hlast. congruence.
Qed.

Lemma consolidated_window_tool_at done r t k :
  tool_at w r = Some t -> resolved t root = Some k -> k ∉ done ->
  tool_at (cwindow done w) r = Some t.
Proof.
  intros Htool Hres Hk. destruct r as [i j].
  apply tool_at_lookup in Htool as (m & Hm & Hp).
  unfold tool_at, part_at, consolidated_window. simpl.
  rewrite list_lookup_imap, Hm. simpl. rewrite list_lookup_imap, Hp. simpl.
  unfold consolidated_part. simpl. rewrite Hres.
  by rewrite (bool_decide_eq_false_2 (k ∈ done)).
Qed.

Lemma keeper_source_inv k r :
  keeper_source config inv root w k r ->
  exists t st, tool_at w r = Some t /\ state t = Completed st /\ tool t = "read"
    /\ resolved t root = Some k /\ str_empty (output st) = false
    /\ protected config k = false /\ k ∉ inv.
Proof.
  intros (t & Ht & Hu & Hp & Hi).
  apply usable_read_inv in Hu as (t' & st & [= <-] & ? & ? & ? & ?).
  eauto 12.
Qed.

Lemma pick_keepers_spec :
  let s := pick_keepers inv h w in
  window s = cwindow (filesWithRead h) w
  /\ (forall k, k ∈ filesToConsolidate s <-> is_Some (lastReadByFile h !! k))
  /\ (forall c, c ∈ keepCallIDs s <->
        exists k r t, lastReadByFile h !! k = Some r /\ tool_at w r = Some t
                      /\ default "" (callID t) = c).
Proof.
  simpl.
  assert (let s := pick_keepers inv h w in
    window s = cwindow (filesWithRead h) w
    /\ (forall k, k ∈ filesToConsolidate s <->
          k ∈ filesWithRead h /\ is_Some (lastReadByFile h !! k))
    /\ (forall c, c ∈ keepCallIDs s <->
          exists k r t, k ∈ filesWithRead h /\ lastReadByFile h !! k = Some r
                        /\ tool_at w r = Some t /\ default "" (callID t) = c)) as H.
  { simpl. unfold pick_keepers.
    apply (foldl_prefix_invariant (fun done s =>
      window s = cwindow done w
      /\ (forall k, k ∈ filesToConsolidate s <->
            k ∈ done /\ is_Some (lastReadByFile h !! k))
      /\ (forall c, c ∈ keepCallIDs s <->
            exists k r t, k ∈ done /\ lastReadByFile h !! k = Some r
                          /\ tool_at w r = Some t /\ default "" (callID t) = c))).
    - simpl. split_and!.
      + symmetry. apply consolidated_window_nil.
      + intros k. split; [intros Hk; by apply elem_of_nil in Hk|].
        intros [Hk _]. by apply elem_of_nil in Hk.
      + intros c. split; [intros Hk; by apply elem_of_nil in Hk|].
        intros (k & r & t & Hk & _). by apply elem_of_nil in Hk.
    - intros done k0 rest s Hl (Hw & Hcons & Hkeep).
      assert (k0 ∉ done) as Hfresh.
      { pose proof (proj1 (collect_NoDup config inv root w)) as Hnd.
        simpl in Hnd. rewrite Hl in Hnd.
        apply NoDup_app in Hnd as (_ & Hnd & _).
        intros Hin. apply (Hnd _ Hin). by left. }
      assert (forall k, k ∈ done ++ [k0] <-> k ∈ done \/ k = k0) as Hsnoc.
      { intros k. rewrite elem_of_app, list_elem_of_singleton. tauto. }
      unfold pick_keeper.
      destruct (lastReadByFile h !! k0) as [r0|] eqn:Hlast.
      + pose proof (collect_lastRead config inv root w _ _ Hlast) as Hsrc.
        apply keeper_source_inv in Hsrc
          as (t0 & st0 & Ht0 & Hst0 & Hrd0 & Hres0 & Hout0 & Hprot0 & Hinv0).
        rewrite (bool_decide_eq_false_2 (k0 ∈ inv)) by done.
        rewrite Hw.
        rewrite (consolidated_window_tool_at done r0 t0 k0) by done.
        simpl. split_and!.
        * by apply (consolidated_window_update done k0 r0 t0).
        * intros k. rewrite elem_of_set_add, Hcons, Hsnoc.
          split; [intros [->|[? ?]]; eauto | intros [[?| ->] ?]; eauto].
        * intros c. rewrite elem_of_set_add, Hkeep. split.
          -- intros [->|(k & r & t & Hk & ? & ? & ?)].
             ++ exists k0, r0, t0. rewrite Hsnoc. eauto.
             ++ exists k, r, t. rewrite Hsnoc. eauto.
          -- intros (k & r & t & Hk & Hr & Ht & Hc). apply Hsnoc in Hk as [Hk| ->].
             ++ right. eauto 10.
             ++ left. rewrite Hlast in Hr. simplify_eq. done.
      + assert (cwindow (done ++ [k0]) w = cwindow done w) as Hskip.
        { apply consolidated_window_skip. intros r. by rewrite Hlast. }
        assert (forall k, k ∈ done ++ [k0] /\ is_Some (lastReadByFile h !! k)
                          <-> k ∈ done /\ is_Some (lastReadByFile h !! k)) as Hs1.
        { intros k. rewrite Hsnoc. split; [|tauto].
          intros [[?| ->] Hs]; [done|]. rewrite Hlast in Hs. by destruct Hs. }
        assert (forall c,
          (exists k r t, k ∈ done ++ [k0] /\ lastReadByFile h !! k = Some r
                         /\ tool_at w r = Some t /\ default "" (callID t) = c)
          <-> (exists k r t, k ∈ done /\ lastReadByFile h !! k = Some r
                         /\ tool_at w r = Some t /\ default "" (callID t) = c)) as Hs2.
        { intros c. split; intros (k & r & t & Hk & Hr & Ht & Hc).
          - apply Hsnoc in Hk as [Hk| ->]; [eauto 10|]. congruence.
          - exists k, r, t. rewrite Hsnoc. eauto. }
        case_bool_decide; simpl; rewrite Hskip; split_and!; try done;
          intros x; rewrite ?Hs1, ?Hs2; auto. }
  simpl in H. destruct H as (Hw & Hcons & Hkeep). split_and!; [done| |].
  - intros k. rewrite Hcons. split; [tauto|]. intros [r Hr]. split; [|eauto].
    by apply (collect_lastRead_sets config inv root w k r).
  - intros c. rewrite Hkeep. split.
    + intros (k & r & t & _ & ?). eauto.
    + intros (k & r & t & Hr & ?). exists k, r, t. split; [|done].
      by apply (collect_lastRead_sets config inv root w k r).
Qed.

(** ** Pass 3 of the consolidation engine *)

Section Sweep.
Variable s : Selection.

Local Abbreviation keeps := (sweep_keeps config inv root h s).

Lemma sweep_part_keeps delta p :
  (sweep_part config inv root h s delta p).2 = keeps p.
Proof. unfold sweep_keeps, sweep_part. repeat case_match; done. Qed.

Lemma sweep_parts_snd delta ps :
  (sweep_parts config inv root h s delta ps).2 = filter (fun p => keeps p) ps.
Proof.
  revert delta. induction ps as [|p ps IH]; intros delta; simpl; [done|].
  pose proof (sweep_part_keeps delta p) as Hk.
  destruct (sweep_part config inv root h s delta p) as [d1 b]. simpl in Hk.
  specialize (IH d1).
  destruct (sweep_parts config inv root h s d1 ps) as [d2 ps']. simpl in *.
  subst. rewrite filter_cons. by destruct (keeps p).
Qed.

Lemma sweep_snd delta ms :
  (sweep config inv root h s delta ms).2
  = (fun m => set_parts (filter (fun p => keeps p) (parts m)) m) <$> ms.
Proof.
  revert delta. induction ms as [|m ms IH]; intros delta; simpl; [done|].
  pose proof (sweep_parts_snd delta (parts m)) as Hp.
  destruct (sweep_parts config inv root h s delta (parts m)) as [d1 ps]. simpl in Hp.
  specialize (IH d1).
  destruct (sweep config inv root h s d1 ms) as [d2 ms']. simpl in *.
  by subst.
Qed.

Lemma sweep_keeps_false p :
  keeps p = false ->
  exists t st k, p = PTool t /\ state t = Completed st
    /\ isFileTool (tool t) = true /\ resolved t root = Some k
    /\ k ∈ filesWithHistory h /\ protected config k = false
    /\ (k ∈ inv
        \/ ((k ∉ inv) /\ k ∈ filesToConsolidate s
            /\ ~ (tool t = "read"
                  /\ (exists c, callID t = Some c /\ c <> ""
                        /\ c ∈ keepCallIDs s)))).
Proof.
  unfold sweep_keeps, sweep_part, protected.
  destruct p as [t| |]; try done.
  unfold isCompletedToolPart. destruct (state t) as [| |st|] eqn:Hst; try done.
  destruct (isFileTool (tool t)) eqn:Hft; simpl; [|done].
  destruct (resolved t root) as [k|] eqn:Hres; [|done].
  case_bool_decide as Hhist; simpl; [|done].
  destruct (isFileProtected k _ _) eqn:Hprot; [done|].
  case_bool_decide as Hinv; simpl.
  { intros _. exists t, st, k. split_and!; auto. }
  case_bool_decide as Hcons; simpl; [|done].
  intros Hkeep. exists t, st, k. split_and!; auto. right. split_and!; auto.
  intros (Hread & c & Hc & Hne & Hin).
  rewrite Hc in Hkeep. rewrite !bool_decide_eq_true_2 in Hkeep by done.
  destruct c; [done|]. simpl in Hkeep. done.
Qed.

Lemma sweep_keeps_true t st k :
  keeps (PTool t) = true -> state t = Completed st ->
  isFileTool (tool t) = true -> resolved t root = Some k ->
  k ∈ filesWithHistory h -> protected config k = false ->
  (k ∉ inv)
  /\ (k ∈ filesToConsolidate s ->
      tool t = "read"
      /\ (exists c, callID t = Some c /\ c <> "" /\ c ∈ keepCallIDs s)).
Proof.
  unfold sweep_keeps, sweep_part, protected, isCompletedToolPart.
  intros Hkeep Hst Hft Hres Hhist Hprot.
  rewrite Hst, Hft, Hres, Hprot in Hkeep. simpl in Hkeep.
  rewrite (bool_decide_eq_true_2 _ Hhist) in Hkeep. simpl in Hkeep.
  case_bool_decide as Hinv; [done|]. split; [done|]. intros Hcons.
  rewrite (bool_decide_eq_true_2 _ Hcons) in Hkeep. simpl in Hkeep.
  case_bool_decide as Hread; simpl in Hkeep; [|done].
  split; [done|]. destruct (callID t) as [c|]; [|done].
  exists c. destruct c; [done|]. simpl in Hkeep.
  case_bool_decide; [|done]. split_and!; done.
Qed.

End Sweep.
End Select.

(** ** The window the consolidation engine leaves *)

Section CleanupWindow.
Context {rt : Runtime}.
Variable config : WhitelistConfig.
Variable inv : gset string.
Variable w : list ChatMessage.

Import Cleanup.

Local Abbreviation root := (inferWorktreeRoot w).
Local Abbreviation h := (collect config inv root w).
Local Abbreviation s := (pick_keepers inv h w).

Lemma cleanup_window :
  (cleanupMessagesForContextJar w config inv).2
  = match filesWithHistory h with
    | [] => w
    | _ :: _ =>
        (fun m => set_parts (filter (fun p => sweep_keeps config inv root h s p)
                               (parts m)) m)
        <$> consolidated_window root h (filesWithRead h) w
    end.
Proof.
  unfold cleanupMessagesForContextJar.
  destruct (filesWithHistory h) eqn:Hh; [done|].
  rewrite sweep_snd. f_equal.
  apply (pick_keepers_spec config inv root w).
Qed.

End CleanupWindow.


(** ** More on lists *)

Lemma elem_of_all_parts w i j m p :
  w !! i = Some m -> parts m !! j = Some p -> p ∈ all_parts w.
Proof.
  intros Hm Hp. unfold all_parts. apply list_elem_of_join. exists (parts m).
  split; [by eapply list_elem_of_lookup_2|].
  apply list_elem_of_fmap. exists m. split; [done|]. by eapply list_elem_of_lookup_2.
Qed.

Lemma tool_at_all_parts w r t : tool_at w r = Some t -> PTool t ∈ all_parts w.
Proof.
  destruct r as [i j]. unfold tool_at, part_at. simpl.
  destruct (w !! i) as [m|] eqn:Hm; simpl; [|done].
  destruct (parts m !! j) as [[t'| |]|] eqn:Hp; try done.
  intros [= ->]. by eapply elem_of_all_parts.
Qed.

Lemma part_at_lookup w i j p :
  part_at w (i, j) = Some p <-> exists m, w !! i = Some m /\ parts m !! j = Some p.
Proof.
  unfold part_at. simpl. destruct (w !! i) as [m|]; simpl.
  - split; [eauto|]. by intros (m' & [= <-] & ?).
  - split; [done|]. by intros (m' & ? & ?).
Qed.

Lemma filter_none {A} (P : A -> Prop) `{forall x, Decision (P x)} (l : list A) :
  (forall x, x ∈ l -> ~ P x) -> filter P l = [].
Proof.
  induction l as [|x l IH]; intros Hl; [done|].
  rewrite filter_cons, decide_False by (apply Hl; by left).
  apply IH. intros y Hy. apply Hl. by right.
Qed.

Lemma filter_unique {A B R} (P : B -> Prop) `{forall x, Decision (P x)}
    (F : R * A -> B) (l : list (R * A)) (r0 : R) (x0 : A) :
  NoDup l.*1 -> (r0, x0) ∈ l -> P (F (r0, x0)) ->
  (forall r x, (r, x) ∈ l -> P (F (r, x)) -> r = r0) ->
  filter P (F <$> l) = [F (r0, x0)].
Proof.
  induction l as [|[r x] l IH]; intros Hnd Hin HP Huniq.
  - by apply elem_of_nil in Hin.
  - simpl in Hnd. apply NoDup_cons in Hnd as [Hr Hnd].
    assert (forall r' x', (r', x') ∈ l -> r' ∈ l.*1) as Hfst.
    { intros r' x' Hx. apply list_elem_of_fmap. by exists (r', x'). }
    rewrite fmap_cons, filter_cons.
    apply elem_of_cons in Hin as [Heq|Hin].
    + injection Heq as <- <-. rewrite decide_True by done. f_equal.
      apply filter_none. intros y Hy HPy.
      apply list_elem_of_fmap in Hy as ([r' x'] & -> & Hx').
      assert (r' = r0) as -> by (apply (Huniq r' x'); [by right|done]).
      apply Hr. by eapply Hfst.
    + rewrite decide_False.
      * apply IH; auto. intros r' x' Hx'. apply Huniq. by right.
      * intros HPx. assert (r = r0) as -> by (apply (Huniq r x); [by left|done]).
        apply Hr. by eapply Hfst.
Qed.

Lemma NoDup_omap_lookup {A B} (f : A -> option B) (l : list A) i j x y c :
  NoDup (omap f l) -> l !! i = Some x -> l !! j = Some y ->
  f x = Some c -> f y = Some c -> i = j.
Proof.
  revert i j. induction l as [|a l IH]; intros i j Hnd Hi Hj Hx Hy; [done|].
  assert (forall n z, l !! n = Some z -> f z = Some c -> c ∈ omap f l) as Hmem.
  { intros n z Hn Hz. apply list_elem_of_omap. exists z. split; [|done].
    by eapply list_elem_of_lookup_2. }
  simpl in Hnd. destruct i as [|i], j as [|j]; simpl in *; simplify_eq; try done.
  - rewrite Hx in Hnd. apply NoDup_cons in Hnd as [Hc _].
    exfalso. apply Hc. by eapply Hmem.
  - rewrite Hy in Hnd. apply NoDup_cons in Hnd as [Hc _].
    exfalso. apply Hc. by eapply Hmem.
  - f_equal. apply IH; auto.
    destruct (f a); [by apply NoDup_cons in Hnd as [_ ?]|done].
Qed.

Lemma located_distinct `{Runtime} w r1 r2 p1 p2 c :
  distinct_read_callIDs w ->
  (r1, p1) ∈ located w -> (r2, p2) ∈ located w ->
  read_callID p1 = Some c -> read_callID p2 = Some c -> r1 = r2.
Proof.
  unfold distinct_read_callIDs. rewrite <- all_parts_located.
  intros Hnd H1 H2 Hc1 Hc2.
  apply list_elem_of_lookup in H1 as [i Hi]. apply list_elem_of_lookup in H2 as [j Hj].
  assert (i = j) as ->.
  { eapply (NoDup_omap_lookup read_callID (located w).*2 i j p1 p2 c); auto.
    - by rewrite list_lookup_fmap, Hi.
    - by rewrite list_lookup_fmap, Hj. }
  congruence.
Qed.

(** ** The Parts the consolidation engine leaves, in one list *)

Section CleanupFlat.
Context {rt : Runtime}.
Variable config : WhitelistConfig.
Variable inv : gset string.
Variable w : list ChatMessage.

Import Cleanup.

Local Abbreviation root := (inferWorktreeRoot w).
Local Abbreviation h := (collect config inv root w).
Local Abbreviation s := (pick_keepers inv h w).
Local Abbreviation keeps := (sweep_keeps config inv root h s).
Local Abbreviation cpart := (consolidated_part root h (filesWithRead h)).

Lemma swept_all_parts (f : ToolRef -> ChatMessagePart -> ChatMessagePart)
    (keep : ChatMessagePart -> bool) :
  all_parts ((fun m => set_parts (filter (fun p => keep p) (parts m)) m)
             <$> imap (fun i m =>
                         set_parts (imap (fun j => f (i, j)) (parts m)) m) w)
  = filter (fun p => keep p) ((fun rp => f rp.1 rp.2) <$> located w).
Proof.
  unfold all_parts, located.
  assert (forall (shift : nat -> nat),
    mjoin (parts <$> ((fun m => set_parts (filter (fun p => keep p) (parts m)) m)
             <$> imap (fun i m =>
                   set_parts (imap (fun j => f (shift i, j)) (parts m)) m) w))
    = filter (fun p => keep p)
        ((fun rp => f rp.1 rp.2)
         <$> mjoin (imap (fun i m => imap (fun j p => ((shift i, j), p)) (parts m)) w)))
    as H.
  { induction w as [|m ms IH]; intros shift; [done|].
    simpl. rewrite fmap_app, filter_app. f_equal.
    - f_equal. rewrite fmap_imap. by apply imap_ext.
    - apply (IH (shift ∘ S)). }
  apply (H (fun i => i)).
Qed.

Lemma cleanup_all_parts :
  filesWithHistory h <> [] ->
  all_parts (cleanupMessagesForContextJar w config inv).2
  = filter (fun p => keeps p) ((fun rp => cpart rp.1 rp.2) <$> located w).
Proof.
  intros Hh. rewrite cleanup_window.
  destruct (filesWithHistory h); [done|].
  apply swept_all_parts.
Qed.

Lemma keeper_exists k r :
  lastReadByFile h !! k = Some r ->
  exists t st, tool_at w r = Some t /\ PTool t ∈ all_parts w
    /\ state t = Completed st /\ tool t = "read"
    /\ resolved t root = Some k /\ str_empty (output st) = false
    /\ usable_read root k (PTool t) = true
    /\ protected config k = false /\ k ∉ inv.
Proof.
  intros Hr. pose proof (collect_lastRead config inv root w _ _ Hr) as Hsrc.
  pose proof Hsrc as (t' & Ht' & Hu & _).
  apply keeper_source_inv in Hsrc as (t & st & Ht & ?). simplify_eq.
  exists t, st. split_and!; try tauto. by eapply tool_at_all_parts.
Qed.

Lemma file_operation_of_intro t st k :
  state t = Completed st -> isFileTool (tool t) = true ->
  resolved t root = Some k -> file_operation_of root k (PTool t) = true.
Proof.
  intros Hst Hft Hres. unfold file_operation_of, file_operation, completed, file_of.
  rewrite Hst, Hft, Hres. simpl.
  rewrite !bool_decide_eq_true_2; eauto.
Qed.

Lemma isFileTool_read t : tool t = "read" -> isFileTool (tool t) = true.
Proof. intros ->. done. Qed.

(** A Part is rewritten by pass 2 only if it is the last read pass 1 holds for
    its file. *)
Lemma consolidated_part_cases r p :
  part_at w r = Some p ->
  cpart r p = p
  \/ exists k t st, p = PTool t /\ lastReadByFile h !! k = Some r
       /\ state t = Completed st /\ tool t = "read" /\ resolved t root = Some k
       /\ protected config k = false /\ k ∉ inv
       /\ PTool t ∈ all_parts w
       /\ usable_read root k (PTool t) = true
       /\ cpart r p = PTool (rewrite_keeper k (latestByFile h !! k) t).
Proof.
  intros Hp. unfold consolidated_part.
  destruct (file_of root p) as [k|] eqn:Hf; [|by left].
  destruct (bool_decide (k ∈ filesWithRead h)
            && bool_decide (lastReadByFile h !! k = Some r)) eqn:Hc; [|by left].
  right. bool_hyps.
  destruct (keeper_exists k r) as (t & st & Ht & ? & ? & ? & ? & ? & ? & ? & ?); [done|].
  assert (p = PTool t) as ->.
  { unfold tool_at in Ht. rewrite Hp in Ht. by destruct p; simplify_eq. }
  exists k, t, st. split_and!; done.
Qed.

Lemma consolidated_part_keeper k r t :
  lastReadByFile h !! k = Some r -> tool_at w r = Some t ->
  cpart r (PTool t) = PTool (rewrite_keeper k (latestByFile h !! k) t).
Proof.
  intros Hr Ht.
  destruct (keeper_exists k r Hr) as (t' & st & Ht' & ? & ? & ? & Hres & ?).
  simplify_eq. unfold consolidated_part. simpl. rewrite Hres.
  rewrite bool_decide_eq_true_2
    by (by apply (collect_lastRead_sets config inv root w k r)).
  by rewrite bool_decide_eq_true_2.
Qed.

Lemma consolidation_target_keeper k r t :
  lastReadByFile h !! k = Some r -> tool_at w r = Some t ->
  consolidation_target config inv w (PTool t).
Proof.
  intros Hr Ht.
  destruct (keeper_exists k r Hr) as (t' & st & Ht' & ? & ? & ? & ? & ? & ? & ? & ?).
  simplify_eq. exists k. split_and!; [|done|].
  - eapply file_operation_of_intro; eauto using isFileTool_read.
  - right. split; [done|]. exists (PTool t). done.
Qed.

Lemma cleanup_revised :
  Forall2 (fun m m' =>
             info m' = info m
             /\ revised (consolidation_target config inv w) (parts m) (parts m'))
    w (cleanupMessagesForContextJar w config inv).2.
Proof.
  rewrite cleanup_window. destruct (filesWithHistory h) eqn:Hh.
  { apply Forall_Forall2_diag, Forall_forall. intros m _.
    split; [done|apply revised_refl]. }
  unfold consolidated_window. rewrite fmap_imap.
  apply Forall2_imap_r. intros i m Hm. simpl. split; [done|].
  apply revised_filter_imap.
  - intros j p Hp.
    destruct (consolidated_part_cases (i, j) p) as [?|(k & t & st & -> & Hr & ?)];
      [apply part_at_lookup; eauto | by left |].
    right. eapply consolidation_target_keeper; [exact Hr|].
    unfold tool_at. replace (part_at w (i, j)) with (Some (PTool t)); [done|].
    symmetry. apply part_at_lookup; eauto.
  - intros j p Hp Hkeep.
    destruct (consolidated_part_cases (i, j) p) as [Heq|(k & t & st & -> & Hr & ?)];
      [apply part_at_lookup; eauto | |].
    + rewrite Heq in Hkeep.
      apply sweep_keeps_false in Hkeep
        as (t & st & k & -> & Hst & Hft & Hres & Hhist & Hprot & Hcase).
      exists k. split_and!; [by eapply file_operation_of_intro|done|].
      destruct Hcase as [?|(Hni & Hcons & _)]; [by left|]. right. split; [done|].
      apply (pick_keepers_spec config inv root w) in Hcons as [r Hr].
      destruct (keeper_exists k r Hr) as (t' & st' & _ & ? & _ & _ & _ & _ & ? & _).
      eauto.
    + eapply consolidation_target_keeper; [exact Hr|].
      unfold tool_at. replace (part_at w (i, j)) with (Some (PTool t)); [done|].
      symmetry. apply part_at_lookup; eauto.
Qed.

End CleanupFlat.


Lemma foldl_mjoin {A B} (f : A -> B -> A) (ls : list (list B)) (a : A) :
  foldl f a (mjoin ls) = foldl (fun a l => foldl f a l) a ls.
Proof.
  revert a. induction ls as [|l ls IH]; intros a; simpl; [done|].
  by rewrite foldl_app, IH.
Qed.

Lemma inferWorktreeRoot_info `{Runtime} (w w' : list ChatMessage) :
  info <$> w' = info <$> w -> inferWorktreeRoot w' = inferWorktreeRoot w.
Proof.
  revert w'. induction w as [|m w IH]; intros [|m' w'] Hi; simplify_eq/=; [done|].
  rewrite (IH w') by done. by replace (info m') with (info m).
Qed.

Lemma Forall2_info (Q : list ChatMessagePart -> list ChatMessagePart -> Prop) w w' :
  Forall2 (fun m m' => info m' = info m /\ Q (parts m) (parts m')) w w' ->
  info <$> w' = info <$> w.
Proof. induction 1 as [|m m' w w' [? _] _ IH]; simpl; [done|]. by f_equal. Qed.

(** ** The finalization engine *)

Section Finalization.
Context {rt : Runtime}.
Variable config : WhitelistConfig.
Variable inv : gset string.
Variable root : option string.
Variable w : list ChatMessage.

Import Finalize.

Local Abbreviation g := (gather config inv root w).
Local Abbreviation gstep := (gather_part config inv root).

Lemma gather_flat : g = foldl gstep nothingGathered (all_parts w).
Proof.
  unfold gather, all_parts. rewrite foldl_mjoin, foldl_fmap. done.
Qed.

Ltac gather_cases :=
  unfold gather_part; simpl; repeat case_match; simplify_eq/=.

Lemma snapshot_of_intro t st k :
  state t = Completed st -> resolved t root = Some k ->
  (((tool t = "edit" \/ tool t = "multiedit")
    /\ is_Some (extractAfterFromEditMetadata (metadata st)))
   \/ (tool t = "write"
       /\ is_Some (if truthy (input st)
                   then as_string (prop "content" (input st)) else None))) ->
  snapshot_of root k (PTool t) = true.
Proof.
  intros Hst Hres Hc. unfold snapshot_of. rewrite Hst.
  rewrite (bool_decide_eq_true_2 _ Hres). simpl.
  apply orb_true_iff.
  destruct Hc as [[Ht Hs]|[Ht Hs]]; [left|right];
    rewrite (bool_decide_eq_true_2 _ Hs), andb_true_r.
  - apply orb_true_iff. destruct Ht as [-> | ->]; [left|right]; done.
  - by apply bool_decide_eq_true_2.
Qed.

Lemma gather_edited_source k :
  k ∈ editedFiles g ->
  exists q, q ∈ all_parts w /\ snapshot_of root k q = true
    /\ protected config k = false /\ k ∉ inv.
Proof.
  rewrite gather_flat. revert k.
  apply (foldl_invariant
    (fun g => forall k, k ∈ editedFiles g ->
       exists q, q ∈ all_parts w /\ snapshot_of root k q = true
         /\ protected config k = false /\ k ∉ inv)).
  { intros k Hk. by apply elem_of_nil in Hk. }
  intros g0 p Hin IH k.
  gather_cases; rewrite ?elem_of_set_add; try (by apply IH);
    (intros [->|Hk]; [|by apply IH]);
    exists (PTool t).
  all: unfold isCompletedToolPart in *; destruct (state t) eqn:Hst; simplify_eq.
  all: assert (s ∉ inv) by (by bool_hyps).
  all: split_and!; [done| |done|done].
  all: unfold snapshot_of; rewrite Hst.
  all: repeat match goal with
       | H : _ = true |- _ => rewrite H
       | H : _ = false |- _ => rewrite H
       | H : _ = Some _ |- _ => rewrite H
       end; simpl.
  all: rewrite !bool_decide_eq_true_2 by eauto; done.
Qed.

Lemma gather_edited_latest k :
  k ∈ editedFiles g -> is_Some (latestByFile g !! k).
Proof.
  rewrite gather_flat. revert k.
  apply (foldl_invariant
    (fun g => forall k, k ∈ editedFiles g -> is_Some (latestByFile g !! k))).
  { intros k Hk. by apply elem_of_nil in Hk. }
  intros g0 p Hin IH k.
  gather_cases; rewrite ?elem_of_set_add; try (by apply IH).
  all: destruct (decide (k = s)) as [->|Hne];
    [rewrite lookup_insert_eq; eauto | rewrite lookup_insert_ne by done].
  all: try (intros [?|?]; [done|by apply IH]).
  all: by apply IH.
Qed.

Lemma gather_NoDup : NoDup (editedFiles g).
Proof.
  rewrite gather_flat.
  apply (foldl_invariant (fun g => NoDup (editedFiles g))); [apply NoDup_nil_2|].
  intros g0 p Hin IH. gather_cases; auto using NoDup_set_add.
Qed.

Lemma snapshot_of_inv k q :
  snapshot_of root k q = true ->
  exists t st, q = PTool t /\ state t = Completed st /\ resolved t root = Some k
    /\ isFileTool (tool t) = true /\ tool t <> "read".
Proof.
  unfold snapshot_of. destruct q as [t| |]; try done.
  destruct (state t) as [| |st|] eqn:Hst; try done.
  intros H. apply andb_prop in H as [Hres H]. apply bool_decide_eq_true_1 in Hres.
  assert (tool t = "edit" \/ tool t = "multiedit" \/ tool t = "write") as Ht.
  { apply orb_prop in H as [H|H]; apply andb_prop in H as [H _].
    - apply orb_prop in H as [H|H]; apply bool_decide_eq_true_1 in H; auto.
    - apply bool_decide_eq_true_1 in H; auto. }
  exists t, st. split_and!; try done; destruct Ht as [-> | [-> | ->] ]; done.
Qed.

Lemma gather_edited k q :
  q ∈ all_parts w -> snapshot_of root k q = true ->
  protected config k = false -> k ∉ inv -> k ∈ editedFiles g.
Proof.
  intros Hq Hs Hprot Hinv. rewrite gather_flat.
  apply (foldl_reach (fun g => k ∈ editedFiles g) gstep _ _ q); [|done|].
  - intros g0 p Hk. gather_cases; rewrite ?elem_of_set_add; auto.
  - intros g0. unfold snapshot_of in Hs. destruct q as [t| |]; try done.
    destruct (state t) as [| |st|] eqn:Hst; try done.
    apply andb_prop in Hs as [Hres Hs]. bool_hyps. unfold protected in Hprot.
    unfold gather_part, isCompletedToolPart. rewrite Hst, Hres, Hprot.
    rewrite (bool_decide_eq_false_2 _ Hinv).
    apply orb_prop in Hs as [Hs|Hs]; bool_hyps.
    + rewrite H. destruct H0 as [after Hafter]. rewrite Hafter.
      simpl. apply elem_of_set_add. by left.
    + destruct (bool_decide (tool t = "edit") || bool_decide (tool t = "multiedit"))
        eqn:He.
      { exfalso. apply orb_prop in He as [He|He]; bool_hyps; congruence. }
      rewrite (bool_decide_eq_true_2 _ H). destruct H0 as [c Hc]. rewrite Hc.
      simpl. apply elem_of_set_add. by left.
Qed.

Lemma gather_touched k t st :
  PTool t ∈ all_parts w -> state t = Completed st -> resolved t root = Some k ->
  protected config k = false -> k ∈ allTouchedFiles g.
Proof.
  intros Hq Hst Hres Hprot. rewrite gather_flat.
  apply (foldl_reach (fun g => k ∈ allTouchedFiles g) gstep _ _ (PTool t)); [|done|].
  - intros g0 p Hk. gather_cases; rewrite ?elem_of_set_add; auto.
  - intros g0. unfold protected in Hprot.
    unfold gather_part, isCompletedToolPart. rewrite Hst, Hres, Hprot.
    repeat case_match; simpl; rewrite ?elem_of_set_add; auto.
Qed.

Lemma count_invalidated_spec delta :
  filesInvalidated (count_invalidated inv g delta)
  = filesInvalidated delta + length (filter (fun k => k ∈ inv) (allTouchedFiles g)).
Proof.
  unfold count_invalidated. generalize (allTouchedFiles g) as l. intros l.
  revert delta. induction l as [|k l IH]; intros delta; simpl; [lia|].
  rewrite IH, filter_cons. case_bool_decide.
  - rewrite decide_True by done. simpl. lia.
  - rewrite decide_False by done. done.
Qed.

Lemma count_invalidated_zero k :
  filesInvalidated (count_invalidated inv g emptyDelta) = 0 ->
  k ∈ allTouchedFiles g -> k ∉ inv.
Proof.
  rewrite count_invalidated_spec. simpl. intros Hz Hk Hinv.
  assert (k ∈ filter (fun k => k ∈ inv) (allTouchedFiles g)) as Hf
    by (by apply list_elem_of_filter).
  destruct (filter (fun k => k ∈ inv) (allTouchedFiles g)); [|done].
  by apply elem_of_nil in Hf.
Qed.

(** *** The wiping loop *)

Local Abbreviation keeps := (wipe_keeps config inv root g).

Lemma wipe_part_keeps delta p :
  (wipe_part config inv root g delta p).2 = keeps p.
Proof. unfold wipe_keeps, wipe_part. repeat case_match; done. Qed.

Lemma wipe_parts_snd delta ps :
  (wipe_parts config inv root g delta ps).2 = filter (fun p => keeps p) ps.
Proof.
  revert delta. induction ps as [|p ps IH]; intros delta; simpl; [done|].
  pose proof (wipe_part_keeps delta p) as Hk.
  destruct (wipe_part config inv root g delta p) as [d1 b]. simpl in Hk.
  specialize (IH d1).
  destruct (wipe_parts config inv root g d1 ps) as [d2 ps']. simpl in *.
  subst. rewrite filter_cons. by destruct (keeps p).
Qed.

Lemma wipe_snd delta ms :
  (wipe config inv root g delta ms).2
  = (fun m => set_parts (filter (fun p => keeps p) (parts m)) m) <$> ms.
Proof.
  revert delta. induction ms as [|m ms IH]; intros delta; simpl; [done|].
  pose proof (wipe_parts_snd delta (parts m)) as Hp.
  destruct (wipe_parts config inv root g delta (parts m)) as [d1 ps]. simpl in Hp.
  specialize (IH d1).
  destruct (wipe config inv root g d1 ms) as [d2 ms']. simpl in *.
  by subst.
Qed.

Lemma wipe_keeps_false p :
  keeps p = false ->
  exists t st k, p = PTool t /\ state t = Completed st
    /\ isFileTool (tool t) = true /\ resolved t root = Some k
    /\ protected config k = false
    /\ (k ∈ editedFiles g \/ k ∈ inv).
Proof.
  unfold wipe_keeps, wipe_part, protected.
  destruct p as [t| |]; try done.
  unfold isCompletedToolPart. destruct (state t) as [| |st|] eqn:Hst; try done.
  destruct (resolved t root) as [k|] eqn:Hres; [|done].
  destruct (isFileProtected k _ _) eqn:Hprot; [done|].
  destruct (bool_decide (k ∈ editedFiles g) || bool_decide (k ∈ inv)) eqn:Hw;
    simpl; [|done].
  destruct (isFileTool (tool t)) eqn:Hft; simpl; [|done].
  intros _. exists t, st, k. split_and!; auto.
  apply orb_prop in Hw as [Hw|Hw]; bool_hyps; auto.
Qed.

Lemma wipe_keeps_true t st k :
  keeps (PTool t) = true -> state t = Completed st ->
  isFileTool (tool t) = true -> resolved t root = Some k ->
  protected config k = false -> k ∉ editedFiles g /\ k ∉ inv.
Proof.
  unfold wipe_keeps, wipe_part, protected, isCompletedToolPart.
  intros Hkeep Hst Hft Hres Hprot.
  rewrite Hst, Hres, Hprot, Hft in Hkeep.
  destruct (bool_decide (k ∈ editedFiles g) || bool_decide (k ∈ inv)) eqn:Hw;
    simpl in Hkeep; [done|].
  apply orb_false_elim in Hw as [? ?]. bool_hyps. done.
Qed.

End Finalization.


(** ** Windows with Parts filtered out or appended *)

Lemma all_parts_app w1 w2 : all_parts (w1 ++ w2) = all_parts w1 ++ all_parts w2.
Proof. unfold all_parts. by rewrite fmap_app, join_app. Qed.

Lemma all_parts_cons m w : all_parts (m :: w) = parts m ++ all_parts w.
Proof. done. Qed.

Lemma all_parts_filter (keep : ChatMessagePart -> bool) w :
  all_parts ((fun m => set_parts (filter (fun p => keep p) (parts m)) m) <$> w)
  = filter (fun p => keep p) (all_parts w).
Proof.
  induction w as [|m w IH]; [done|].
  rewrite fmap_cons, !all_parts_cons, filter_app, IH. done.
Qed.

Lemma alter_middle {A} (f : A -> A) (l : list A) i x :
  l !! i = Some x -> alter f i l = take i l ++ f x :: drop (S i) l.
Proof.
  intros Hx. rewrite <- (take_drop_middle l i x Hx) at 1.
  assert (length (take i l) = i) as Hlen.
  { apply length_take_le. apply lookup_lt_Some in Hx. lia. }
  replace i with (length (take i l) + 0) at 1 by lia.
  by rewrite alter_app_r.
Qed.

Lemma alter_None {A} (f : A -> A) (l : list A) i :
  l !! i = None -> alter f i l = l.
Proof.
  intros Hn. apply list_eq. intros j. rewrite list_lookup_alter.
  destruct (decide (i = j)) as [<-|]; [by rewrite Hn|done].
Qed.

Lemma all_parts_alter_app extra w i m :
  w !! i = Some m ->
  all_parts (alter (fun m => set_parts (parts m ++ extra) m) i w)
  = all_parts (take i w) ++ (parts m ++ extra) ++ all_parts (drop (S i) w).
Proof.
  intros Hm. rewrite (alter_middle _ w i m Hm).
  by rewrite all_parts_app, all_parts_cons.
Qed.

Lemma all_parts_take_drop w i m :
  w !! i = Some m ->
  all_parts w = all_parts (take i w) ++ parts m ++ all_parts (drop (S i) w).
Proof.
  intros Hm. rewrite <- (take_drop_middle w i m Hm) at 1.
  by rewrite all_parts_app, all_parts_cons.
Qed.

Lemma elem_of_all_parts_alter_app extra w i p :
  p ∈ all_parts (alter (fun m => set_parts (parts m ++ extra) m) i w) ->
  p ∈ all_parts w \/ p ∈ extra.
Proof.
  destruct (w !! i) as [m|] eqn:Hm.
  - rewrite (all_parts_alter_app extra w i m Hm), (all_parts_take_drop w i m Hm).
    rewrite !elem_of_app. tauto.
  - rewrite alter_None by done. auto.
Qed.

Lemma filter_all_parts_alter_app (P : ChatMessagePart -> Prop)
    `{forall p, Decision (P p)} extra w i m :
  w !! i = Some m ->
  (forall p, p ∈ all_parts w -> ~ P p) ->
  filter P (all_parts (alter (fun m => set_parts (parts m ++ extra) m) i w))
  = filter P extra.
Proof.
  intros Hm Hnone. rewrite (all_parts_alter_app extra w i m Hm).
  rewrite (all_parts_take_drop w i m Hm) in Hnone.
  rewrite !filter_app.
  rewrite (filter_none P (all_parts (take i w))),
          (filter_none P (parts m)),
          (filter_none P (all_parts (drop (S i) w)));
    [by rewrite app_nil_r | | |];
    intros p Hp; apply Hnone; rewrite !elem_of_app; tauto.
Qed.

(** ** The window the finalization engine leaves *)

Section FinalizeWindow.
Context {rt : Runtime}.
Variable config : WhitelistConfig.
Variable inv : gset string.
Variable w : list ChatMessage.

Import Finalize.

Local Abbreviation root := (inferWorktreeRoot w).
Local Abbreviation g := (gather config inv root w).
Local Abbreviation keeps := (wipe_keeps config inv root g).
Local Abbreviation wiped :=
  ((fun m => set_parts (filter (fun p => keeps p) (parts m)) m) <$> w).

Lemma findLastAssistant_fmap (f : ChatMessage -> ChatMessage) (ms : list ChatMessage) :
  (forall m, info (f m) = info m) ->
  findLastAssistant (f <$> ms) = findLastAssistant ms.
Proof.
  intros Hf. induction ms as [|m ms IH]; [done|].
  rewrite fmap_cons. simpl. by rewrite IH, Hf.
Qed.

Lemma findLastAssistant_lookup (ms : list ChatMessage) i :
  findLastAssistant ms = Some i ->
  exists m, ms !! i = Some m /\ role (info m) = "assistant".
Proof.
  revert i. induction ms as [|m ms IH]; intros i; simpl; [done|].
  destruct (findLastAssistant ms) as [j|].
  - intros [= <-]. simpl. by apply IH.
  - case_bool_decide; [|done]. intros [= <-]. eauto.
Qed.

Lemma attach_window clock i (a : Attached) ks :
  window (foldl (attach root clock g i) a ks)
  = alter (fun m => set_parts (parts m ++ synthetic_parts root clock g (made a) ks) m)
      i (window a).
Proof.
  revert a. induction ks as [|k ks IH]; intros a; simpl.
  - symmetry. apply list_alter_id. intros m. by rewrite app_nil_r, set_parts_id.
  - unfold attach at 2. destruct (latestByFile g !! k) as [latest|] eqn:Hl.
    + rewrite IH. simpl. rewrite list_alter_alter_eq.
      apply list_alter_ext; [|done]. intros m _. unfold set_parts. simpl.
      by rewrite <- app_assoc.
    + by rewrite IH.
Qed.

Lemma finalize_window clock :
  (finalizeEditedFilesForNextStep clock w config inv).2
  = if bool_decide (editedFiles g = [])
       && (filesInvalidated (count_invalidated inv g emptyDelta) =? 0)%nat
    then w
    else match findLastAssistant w with
         | None => wiped
         | Some i =>
             alter (fun m =>
                      set_parts
                        (parts m ++ synthetic_parts root clock g 0 (editedFiles g)) m)
               i wiped
         end.
Proof.
  unfold finalizeEditedFilesForNextStep.
  destruct (bool_decide (editedFiles g = [])
            && (filesInvalidated (count_invalidated inv g emptyDelta) =? 0)%nat);
    [done|].
  pose proof (wipe_snd config inv root w (count_invalidated inv g emptyDelta) w) as Hw.
  destruct (wipe config inv root g (count_invalidated inv g emptyDelta) w)
    as [delta ms]. simpl in Hw. subst ms.
  rewrite findLastAssistant_fmap by done.
  destruct (findLastAssistant w) as [i|]; [|done].
  simpl. by rewrite attach_window.
Qed.

Lemma elem_of_synthetic_parts clock n ks p :
  p ∈ synthetic_parts root clock g n ks -> exists k, k ∈ ks /\ synthetic_read_of k p.
Proof.
  revert n. induction ks as [|k ks IH]; intros n; simpl.
  - intros Hp. by apply elem_of_nil in Hp.
  - destruct (latestByFile g !! k) as [latest|].
    + intros [->|Hp]%elem_of_cons.
      * exists k. split; [by left|]. unfold synthetic_read_of. eauto.
      * destruct (IH _ Hp) as (k' & ? & ?). exists k'. split; [by right|done].
    + intros Hp. destruct (IH _ Hp) as (k' & ? & ?). exists k'. split; [by right|done].
Qed.

Lemma finalization_target_wiped p :
  keeps p = false -> finalization_target config inv w p.
Proof.
  intros Hk. apply wipe_keeps_false in Hk
    as (t & st & k & -> & Hst & Hft & Hres & Hprot & Hcase).
  exists k. split_and!; [by eapply file_operation_of_intro|done|].
  destruct Hcase as [Hed|Hinv]; [|by left].
  right. apply gather_edited_source in Hed as (q & ? & ? & ? & ?). eauto.
Qed.

Lemma finalize_pruned clock :
  Forall2 (fun m m' =>
             info m' = info m
             /\ exists kept extra,
                  parts m' = kept ++ extra
                  /\ pruned (finalization_target config inv w) (parts m) kept
                  /\ Forall synthetic_read extra)
    w (finalizeEditedFilesForNextStep clock w config inv).2.
Proof.
  rewrite finalize_window.
  destruct (bool_decide (editedFiles g = [])
            && (filesInvalidated (count_invalidated inv g emptyDelta) =? 0)%nat).
  { apply Forall_Forall2_diag, Forall_forall. intros m _. split; [done|].
    exists (parts m), []. rewrite app_nil_r. split_and!; [done| |done].
    apply pruned_refl. }
  assert (Forall2 (fun m m' =>
             info m' = info m
             /\ exists kept extra,
                  parts m' = kept ++ extra
                  /\ pruned (finalization_target config inv w) (parts m) kept
                  /\ Forall synthetic_read extra) w wiped) as Hw.
  { apply Forall2_fmap_r, Forall_Forall2_diag, Forall_forall. intros m _. simpl.
    split; [done|].
    exists (filter (fun p => keeps p) (parts m)), []. rewrite app_nil_r.
    split_and!; [done| |done].
    apply pruned_filter. intros p _. apply finalization_target_wiped. }
  destruct (findLastAssistant w) as [i|]; [|done].
  apply Forall2_alter_r; [done|].
  intros m m' _ _ (Hinfo & kept & extra & Hparts & Hpr & Hex). simpl.
  split; [done|].
  exists kept, (extra ++ synthetic_parts root clock g 0 (editedFiles g)).
  rewrite Hparts, <- app_assoc. split_and!; [done|done|].
  apply Forall_app. split; [done|]. apply Forall_forall. intros p Hp.
  apply elem_of_synthetic_parts in Hp as (k & _ & ?). by exists k.
Qed.

(** Without an assistant message nothing is appended. *)
Lemma finalize_pruned_no_assistant clock :
  findLastAssistant w = None ->
  Forall2 (fun m m' =>
             info m' = info m
             /\ pruned (finalization_target config inv w) (parts m) (parts m'))
    w (finalizeEditedFilesForNextStep clock w config inv).2.
Proof.
  intros Hnone. rewrite finalize_window, Hnone.
  destruct (bool_decide (editedFiles g = [])
            && (filesInvalidated (count_invalidated inv g emptyDelta) =? 0)%nat).
  { apply Forall_Forall2_diag, Forall_forall. intros m _. split; [done|].
    apply pruned_refl. }
  apply Forall2_fmap_r, Forall_Forall2_diag, Forall_forall. intros m _. simpl.
  split; [done|].
  apply pruned_filter. intros p _. apply finalization_target_wiped.
Qed.

Lemma finalize_parts_inv clock p :
  p ∈ all_parts (finalizeEditedFilesForNextStep clock w config inv).2 ->
  (p ∈ all_parts w
   /\ (keeps p = true
       \/ (editedFiles g = []
           /\ forall k, k ∈ allTouchedFiles g -> k ∉ inv)))
  \/ (exists k, k ∈ editedFiles g /\ synthetic_read_of k p).
Proof.
  rewrite finalize_window.
  destruct (bool_decide (editedFiles g = [])
            && (filesInvalidated (count_invalidated inv g emptyDelta) =? 0)%nat)
    eqn:Hearly.
  { intros Hp. left. split; [done|]. right. bool_hyps. split; [done|].
    intros k. apply count_invalidated_zero. by apply Nat.eqb_eq. }
  assert (p ∈ all_parts wiped -> p ∈ all_parts w /\ keeps p = true) as Hw.
  { rewrite all_parts_filter. intros [Hk Hp]%list_elem_of_filter.
    split; [done|]. by destruct (keeps p). }
  destruct (findLastAssistant w) as [i|].
  - intros [Hp|Hp]%elem_of_all_parts_alter_app.
    + left. destruct (Hw Hp). auto.
    + right. by apply elem_of_synthetic_parts in Hp.
  - intros Hp. left. destruct (Hw Hp). auto.
Qed.

End FinalizeWindow.


(** ** Keys that the resolver gives back *)

Section Stability.
Context {rt : Runtime}.
Variable root : option string.

Lemma resolved_nonempty t k : resolved t root = Some k -> str_empty k = false.
Proof.
  unfold resolved. destruct (extractPrimaryFilePath t root) as [p|]; [|done].
  destruct (str_empty p) eqn:Hp; [done|]. by intros [= <-].
Qed.

Lemma assoc_obj_set key v fields : assoc key (obj_set key v fields) = Some v.
Proof.
  induction fields as [|[k old] fields IH]; simpl.
  - by rewrite bool_decide_eq_true_2.
  - case_bool_decide as Hk; simpl.
    + by rewrite bool_decide_eq_true_2.
    + by rewrite bool_decide_eq_false_2.
Qed.

Lemma resolved_filePath t fields k :
  state_input (state t) = JObj fields ->
  assoc "filePath" fields = Some (JStr k) ->
  normalizeFilePath k root = Some k -> str_empty k = false ->
  resolved t root = Some k.
Proof.
  intros Hin Hf Hn Hk. unfold resolved, extractPrimaryFilePath.
  rewrite Hin. simpl. rewrite Hf. simpl. by rewrite Hn, Hk.
Qed.

Lemma resolved_rewrite_keeper t st k latest :
  state t = Completed st ->
  normalizeFilePath k root = Some k -> str_empty k = false ->
  resolved (Cleanup.rewrite_keeper k latest t) root = Some k.
Proof.
  intros Hst Hn Hk. unfold Cleanup.rewrite_keeper. rewrite Hst.
  eapply resolved_filePath; [done| |done|done]. apply assoc_obj_set.
Qed.

Lemma resolved_synthetic k output label now :
  normalizeFilePath k root = Some k -> str_empty k = false ->
  resolved (Finalize.makeSyntheticReadPart k output label now) root = Some k.
Proof.
  intros Hn Hk. eapply resolved_filePath; [done| |done|done]. done.
Qed.

End Stability.

Lemma stable_keys_elem `{Runtime} w p k :
  stable_keys w -> p ∈ all_parts w -> file_of (inferWorktreeRoot w) p = Some k ->
  normalizeFilePath k (inferWorktreeRoot w) = Some k /\ str_empty k = false.
Proof.
  intros Hs Hp Hf. unfold stable_keys in Hs.
  rewrite Forall_forall in Hs. specialize (Hs p Hp).
  unfold stable_part in Hs. rewrite Hf in Hs. split; [done|].
  destruct p as [t| |]; try done. by eapply resolved_nonempty.
Qed.

Lemma file_operation_of_file `{Runtime} root k p :
  file_operation_of root k p = true -> file_of root p = Some k.
Proof.
  unfold file_operation_of. intros Hp. apply andb_prop in Hp as [_ Hp].
  by apply bool_decide_eq_true_1 in Hp.
Qed.

Lemma file_operation_of_operation `{Runtime} root k p :
  file_operation_of root k p = true -> file_operation root p = true.
Proof. unfold file_operation_of. intros Hp. by apply andb_prop in Hp as [? _]. Qed.

Lemma read_of_usable `{Runtime} root k p :
  usable_read root k p = true -> read_of root k p = true.
Proof.
  intros Hu. apply usable_read_inv in Hu as (t & st & -> & Hst & Ht & Hr & _).
  unfold read_of, completed, tool_of, file_of. rewrite Hst, Ht, Hr. simpl.
  by rewrite !bool_decide_eq_true_2.
Qed.

Lemma cleanup_info `{Runtime} w config inv :
  info <$> (Cleanup.cleanupMessagesForContextJar w config inv).2 = info <$> w.
Proof. eapply Forall2_info, cleanup_revised. Qed.

Lemma finalize_info `{Runtime} clock w config inv :
  info <$> (Finalize.finalizeEditedFilesForNextStep clock w config inv).2 = info <$> w.
Proof.
  eapply (Forall2_info (fun l l' => exists kept extra, l' = kept ++ extra
            /\ pruned (finalization_target config inv w) l kept
            /\ Forall synthetic_read extra)), finalize_pruned.
Qed.

(** ** Invalidated files *)

Section Invalidation.
Context {rt : Runtime}.
Variable config : WhitelistConfig.
Variable inv : gset string.
Variable w : list ChatMessage.
Hypothesis stable : stable_keys w.

Local Abbreviation root := (inferWorktreeRoot w).

Lemma cleanup_wipes_invalidated k p :
  k ∈ inv -> protected config k = false ->
  p ∈ all_parts (Cleanup.cleanupMessagesForContextJar w config inv).2 ->
  file_operation_of root k p = true -> False.
Proof.
  intros Hinv Hprot Hp Hop.
  destruct (Cleanup.filesWithHistory (Cleanup.collect config inv root w)) eqn:Hh.
  { rewrite cleanup_window, Hh in Hp.
    pose proof (collect_filesWithHistory config inv root w k p Hp Hop Hprot) as Hk.
    rewrite Hh in Hk. by apply elem_of_nil in Hk. }
  rewrite cleanup_all_parts in Hp by (by rewrite Hh).
  apply list_elem_of_filter in Hp as [Hkeep Hp].
  apply list_elem_of_fmap in Hp as ([r p0] & -> & Hin). simpl in *.
  assert (p0 ∈ all_parts w) as Hp0.
  { rewrite <- all_parts_located. apply list_elem_of_fmap. by exists (r, p0). }
  apply elem_of_located in Hin.
  destruct (consolidated_part_cases config inv w r p0 Hin)
    as [Heq|(k1 & t & st & -> & Hr & Hst & Ht & Hres & Hp1 & Hi1 & _ & _ & Heq)];
    rewrite Heq in *.
  - pose proof (collect_filesWithHistory config inv root w k p0 Hp0 Hop Hprot) as Hk.
    apply file_operation_of_inv in Hop as (t & st & -> & Hst & Hft & Hres).
    apply Is_true_true in Hkeep.
    by destruct (sweep_keeps_true config inv root w _ t st k Hkeep Hst Hft Hres Hk Hprot).
  - destruct (stable_keys_elem w (PTool t) k1 stable Hp0 Hres) as [Hn Hne].
    apply file_operation_of_file in Hop. simpl in Hop.
    rewrite (resolved_rewrite_keeper root t st k1 _ Hst Hn Hne) in Hop.
    by simplify_eq.
Qed.

Lemma finalize_wipes_invalidated clock k p :
  k ∈ inv -> protected config k = false ->
  p ∈ all_parts (Finalize.finalizeEditedFilesForNextStep clock w config inv).2 ->
  file_operation_of root k p = true -> False.
Proof.
  intros Hinv Hprot Hp Hop.
  apply finalize_parts_inv in Hp as [[Hp Hcase]|(k1 & Hk1 & out & label & now & ->)].
  - apply file_operation_of_inv in Hop as (t & st & -> & Hst & Hft & Hres).
    destruct Hcase as [Hkeep|[_ Hnone]].
    + by destruct (wipe_keeps_true config inv root w t st k Hkeep Hst Hft Hres Hprot).
    + apply (Hnone k); [|done]. by eapply gather_touched.
  - apply gather_edited_source in Hk1 as (q & Hq & Hs & _ & Hni).
    apply snapshot_of_inv in Hs as (t & st & -> & _ & Hres & _).
    destruct (stable_keys_elem w (PTool t) k1 stable Hq Hres) as [Hn Hne].
    apply file_operation_of_file in Hop. simpl in Hop.
    rewrite (resolved_synthetic root k1 _ _ _ Hn Hne) in Hop. by simplify_eq.
Qed.

End Invalidation.


Lemma window_revised_mono (T T' : ChatMessagePart -> Prop) w w' :
  (forall p, T p -> T' p) -> window_revised T w w' -> window_revised T' w w'.
Proof.
  intros HT Hw. eapply Forall2_impl; [exact Hw|].
  intros m m' [? ?]. split; [done|]. by eapply revised_mono.
Qed.

Lemma window_pruned_mono (T T' : ChatMessagePart -> Prop) w w' :
  (forall p, T p -> T' p) -> window_pruned T w w' -> window_pruned T' w w'.
Proof.
  intros HT Hw. eapply Forall2_impl; [exact Hw|].
  intros m m' [? ?]. split; [done|]. by eapply pruned_mono.
Qed.

Lemma window_finalized_mono `{Runtime} (T T' : ChatMessagePart -> Prop) w w' :
  (forall p, T p -> T' p) -> window_finalized T w w' -> window_finalized T' w w'.
Proof.
  intros HT Hw. eapply Forall2_impl; [exact Hw|].
  intros m m' (? & kept & extra & ? & ? & ?). split; [done|].
  exists kept, extra. split_and!; [done| |done]. by eapply pruned_mono.
Qed.


Lemma has_upper_toLowerCase s : has_upper (toLowerCase s) = false.
Proof.
  induction s as [|a s IH]; [done|]. simpl. rewrite IH, orb_false_r.
  unfold lower_ascii.
  destruct ((65 <=? nat_of_ascii a) && (nat_of_ascii a <=? 90))%nat eqn:Hup.
  - apply andb_prop in Hup as [H1 H2].
    apply Nat.leb_le in H1. apply Nat.leb_le in H2.
    unfold ch. rewrite nat_ascii_embedding by lia.
    apply andb_false_iff. right. apply Nat.leb_gt. lia.
  - done.
Qed.

Lemma has_upper_slice1 s : has_upper s = false -> has_upper (slice1 s) = false.
Proof. destruct s; [done|]. simpl. by intros [_ ?]%orb_false_elim. Qed.

(** ** Windows in which no edit awaits finalization *)

Lemma filter_all {A} (P : A -> Prop) `{forall x, Decision (P x)} (l : list A) :
  (forall x, x ∈ l -> P x) -> filter P l = l.
Proof.
  induction l as [|x l IH]; intros Hall; [done|].
  rewrite filter_cons, decide_True by (apply Hall; by left).
  f_equal. apply IH. intros y Hy. apply Hall. by right.
Qed.

Section NoPendingEdit.
Context {rt : Runtime}.
Variable config : WhitelistConfig.
Variable inv : gset string.
Variable w : list ChatMessage.

Local Abbreviation root := (inferWorktreeRoot w).
Local Abbreviation g := (Finalize.gather config inv root w).




End NoPendingEdit.

(** * The claims *)


(** X27.  The keys of the window being fixed points of the path resolver, the
    window either engine leaves holds, for a non-protected file of the
    invalidation set, no completed file-operation Part whose path resolves to
    that file. *)
Theorem invalidation_wipes `{Runtime} (w : list ChatMessage)
    (config : WhitelistConfig) (inv : gset string) (k : string) :
  stable_keys w -> k ∈ inv -> protected config k = false ->
  (let w' := (Cleanup.cleanupMessagesForContextJar w config inv).2 in
   filter (fun p => file_operation_of (inferWorktreeRoot w') k p) (all_parts w') = [])
  /\ (forall clock,
        let w' := (Finalize.finalizeEditedFilesForNextStep clock w config inv).2 in
        filter (fun p => file_operation_of (inferWorktreeRoot w') k p) (all_parts w')
        = []).
Proof.
  intros Hs Hk Hp. split; [|intros clock]; simpl.
  - rewrite (inferWorktreeRoot_info w) by apply cleanup_info.
    apply filter_none. intros p Hin Hop. apply Is_true_true in Hop.
    by eapply (cleanup_wipes_invalidated config inv w Hs k p).
  - rewrite (inferWorktreeRoot_info w) by apply finalize_info.
    apply filter_none. intros p Hin Hop. apply Is_true_true in Hop.
    by eapply (finalize_wipes_invalidated config inv w Hs clock k p).
Qed.

(** C4.  For a file that the protection predicate matches, whatever its
    history and whether or not it is invalidated, every Part of that file
    stands unchanged in the window after a pass of either engine: the Parts
    an engine removes or rewrites are Parts of other files. *)
Theorem protection_is_absolute `{Runtime} (w : list ChatMessage)
    (config : WhitelistConfig) (inv : gset string) (f : string) :
  protected config f = true ->
  window_revised (fun p => file_of (inferWorktreeRoot w) p <> Some f) w
    (Cleanup.cleanupMessagesForContextJar w config inv).2
  /\ (forall clock,
        window_finalized (fun p => file_of (inferWorktreeRoot w) p <> Some f) w
          (Finalize.finalizeEditedFilesForNextStep clock w config inv).2).
Proof.
  intros Hf. split; [|intros clock].
  - eapply window_revised_mono; [|apply cleanup_revised].
    intros p (k & Hop & Hprot & _) Hp.
    apply file_operation_of_file in Hop. congruence.
  - eapply window_finalized_mono; [|apply finalize_pruned].
    intros p (k & Hop & Hprot & _) Hp.
    apply file_operation_of_file in Hop. congruence.
Qed.

(** C7.  Whatever the store holds for a session, recording a delta leaves
    that delta alone as the session's stats: after pass A then pass B the
    stored totals are B's, not the sums. *)
Theorem record_replaces (sessionID : string) (deltaA deltaB : StepTokenDelta)
    (nowA nowB : Z) (bySession : StatsStore) :
  let afterA := (record sessionID deltaA nowA bySession).1 in
  let afterB := (record sessionID deltaB nowB afterA).1 in
  exists stats,
    get sessionID afterB = Some stats
    /\ total stats = deltaB /\ lastStep stats = deltaB
    /\ netDelta (total stats) = netDelta deltaB
    /\ lastUpdatedAt stats = nowB.
Proof.
  simpl. unfold get, record. simpl. rewrite lookup_insert_eq. eauto 10.
Qed.

(** C10.  Both engines leave in place, unchanged and in order, every Part
    that is not a completed file-operation tool Part with a resolvable path:
    only such Parts are removed or rewritten (the finalization engine also
    appends synthetic reads). *)
Theorem engines_touch_file_operations_only `{Runtime} (w : list ChatMessage)
    (config : WhitelistConfig) (inv : gset string) :
  window_revised (fun p => file_operation (inferWorktreeRoot w) p = true) w
    (Cleanup.cleanupMessagesForContextJar w config inv).2
  /\ (forall clock,
        window_finalized (fun p => file_operation (inferWorktreeRoot w) p = true) w
          (Finalize.finalizeEditedFilesForNextStep clock w config inv).2).
Proof.
  split; [|intros clock].
  - eapply window_revised_mono; [|apply cleanup_revised].
    intros p (k & Hop & _). by eapply file_operation_of_operation.
  - eapply window_finalized_mono; [|apply finalize_pruned].
    intros p (k & Hop & _). by eapply file_operation_of_operation.
Qed.

(** C9, where the code departs from it.  The extension of the path is put in
    lower case and the configured extensions are not, so a configured
    extension with an upper-case letter matches no file at all. *)
Theorem uppercase_extension_never_matches `{Runtime} (filePath : string)
    (extensions : list string) :
  Forall (fun e => has_upper e = true) extensions ->
  matchesExtension filePath extensions = false.
Proof.
  intros Hup. unfold matchesExtension, includes.
  destruct (str_empty (toLowerCase (path_extname filePath))); [done|].
  rewrite Forall_forall in Hup.
  apply orb_false_intro; apply bool_decide_eq_false_2; intros Hin;
    apply Hup in Hin.
  - by rewrite has_upper_toLowerCase in Hin.
  - rewrite has_upper_slice1 in Hin; [done|apply has_upper_toLowerCase].
Qed.


Lemma filter_filter_fmap {A B} (P K : B -> Prop) `{forall x, Decision (P x)}
    `{forall x, Decision (K x)} (F : A -> B) (G : A -> B) (l : list A) :
  (forall x, x ∈ l -> P (G x) -> F x = G x /\ K (G x)) ->
  (forall x, x ∈ l -> P (F x) -> K (F x) -> P (G x)) ->
  filter P (filter K (F <$> l)) = filter P (G <$> l).
Proof.
  induction l as [|x l IH]; intros HA HB; [done|].
  rewrite !fmap_cons. rewrite (filter_cons P (G x)), (filter_cons K (F x)).
  assert (filter P (filter K (F <$> l)) = filter P (G <$> l)) as Hrest.
  { apply IH; intros y Hy; [apply HA | apply HB]; by right. }
  destruct (decide (P (G x))) as [HP|HP].
  - destruct (HA x) as [Heq HK]; [by left|done|].
    rewrite Heq, decide_True, filter_cons, decide_True by done. by f_equal.
  - destruct (decide (K (F x))) as [HK|HK]; [|done].
    rewrite filter_cons, decide_False; [done|].
    intros HPF. apply HP. apply HB; [by left|done|done].
Qed.

(** X28.  For a file that is not invalidated and has no completed read Part
    in the window, the consolidation engine removes and rewrites Parts of
    other files only; and, the keys of the window being fixed points of the
    path resolver, the completed file-operation Parts of the file are the same
    after the pass as before: none removed, none added. *)
Theorem no_fabrication `{Runtime} (w : list ChatMessage)
    (config : WhitelistConfig) (inv : gset string) (k : string) :
  k ∉ inv ->
  (forall p, p ∈ all_parts w -> read_of (inferWorktreeRoot w) k p = false) ->
  let w' := (Cleanup.cleanupMessagesForContextJar w config inv).2 in
  window_revised (fun p => file_of (inferWorktreeRoot w) p <> Some k) w w'
  /\ (stable_keys w ->
      filter (fun p => file_operation_of (inferWorktreeRoot w') k p) (all_parts w')
      = filter (fun p => file_operation_of (inferWorktreeRoot w) k p) (all_parts w)).
Proof.
  intros Hinv Hnoread. simpl.
  assert (forall q, q ∈ all_parts w ->
            usable_read (inferWorktreeRoot w) k q = true -> False) as Hnouse.
  { intros q Hq Hu. apply read_of_usable in Hu. by rewrite Hnoread in Hu. }
  split.
  - eapply window_revised_mono; [|apply cleanup_revised].
    intros p (k' & Hop & Hprot & Hcase) Hp.
    apply file_operation_of_file in Hop. assert (k' = k) as -> by congruence.
    destruct Hcase as [?|[_ (q & Hq & Hu)]]; [done|]. by eapply Hnouse.
  - intros Hs. rewrite (inferWorktreeRoot_info w) by apply cleanup_info.
    destruct (Cleanup.filesWithHistory
                (Cleanup.collect config inv (inferWorktreeRoot w) w)) eqn:Hh.
    { by rewrite cleanup_window, Hh. }
    rewrite cleanup_all_parts by (by rewrite Hh).
    rewrite <- (all_parts_located w).
    apply (filter_filter_fmap _ _ _ snd).
    + intros [r x] Hin Hop. simpl in *.
      apply elem_of_located in Hin.
      assert (x ∈ all_parts w) as Hx.
      { destruct r as [i j]. apply part_at_lookup in Hin as (m & ? & ?).
        by eapply elem_of_all_parts. }
      apply Is_true_true in Hop. pose proof (file_operation_of_file _ _ _ Hop) as Hf.
      assert (consolidated_part (inferWorktreeRoot w)
                (Cleanup.collect config inv (inferWorktreeRoot w) w)
                (Cleanup.filesWithRead
                   (Cleanup.collect config inv (inferWorktreeRoot w) w)) r x = x)
        as Heq.
      { destruct (consolidated_part_cases config inv w r x Hin)
          as [?|(k1 & t & st & -> & _ & _ & _ & Hres & _ & _ & Ht & Hu & _)]; [done|].
        simpl in Hf. assert (k1 = k) as -> by congruence.
        exfalso. by eapply Hnouse. }
      split; [done|]. apply Is_true_true.
      destruct (sweep_keeps config inv (inferWorktreeRoot w) _ _ x) eqn:Hkeep; [done|].
      apply sweep_keeps_false in Hkeep
        as (t & st & k' & -> & _ & _ & Hres & _ & _ & Hcase).
      simpl in Hf. assert (k' = k) as -> by congruence.
      destruct Hcase as [?|(_ & Hcons & _)]; [done|].
      apply (pick_keepers_spec config inv (inferWorktreeRoot w) w) in Hcons as [r' Hr'].
      destruct (keeper_exists config inv w k r' Hr')
        as (t' & st' & _ & Ht' & _ & _ & _ & _ & Hu & _).
      exfalso. by eapply Hnouse.
    + intros [r x] Hin Hop _. simpl in *.
      apply elem_of_located in Hin.
      destruct (consolidated_part_cases config inv w r x Hin)
        as [Heq|(k1 & t & st & -> & _ & Hst & _ & Hres & _ & _ & Ht & Hu & Heq)];
        rewrite Heq in Hop; [done|].
      apply Is_true_true, file_operation_of_file in Hop. simpl in Hop.
      destruct (stable_keys_elem w (PTool t) k1 Hs Ht Hres) as [Hn Hne].
      rewrite (resolved_rewrite_keeper _ t st k1 _ Hst Hn Hne) in Hop.
      assert (k1 = k) as -> by congruence. exfalso. by eapply Hnouse.
Qed.

(** * Witnesses and counterexamples *)

Ltac by_computation := vm_compute; first [reflexivity | exact I | done].

Lemma stable_keys_by_parts `{Runtime} w :
  forallb
    (fun p =>
       match file_of (inferWorktreeRoot w) p with
       | Some k => bool_decide (normalizeFilePath k (inferWorktreeRoot w) = Some k)
       | None => true
       end)
    (all_parts w) = true ->
  stable_keys w.
Proof.
  intros Hall. unfold stable_keys. apply Forall_forall. intros p Hp.
  rewrite forallb_forall in Hall. apply list_elem_of_In in Hp.
  specialize (Hall p Hp). unfold stable_part.
  destruct (file_of (inferWorktreeRoot w) p); [|done].
  by apply bool_decide_eq_true_1 in Hall.
Qed.



Lemma invalidation_wipes_witness :
  stable_keys (rt := posix) read_edit_read
  /\ "/w/a.ts" ∈ ({["/w/a.ts"]} : gset string)
  /\ protected (rt := posix) no_protection "/w/a.ts" = false
  /\ ((let w' := (Cleanup.cleanupMessagesForContextJar (rt := posix) read_edit_read
                    no_protection {["/w/a.ts"]}).2 in
       filter (fun p => file_operation_of (rt := posix) (inferWorktreeRoot w')
                          "/w/a.ts" p) (all_parts w') = [])
      /\ (forall clock,
            let w' := (Finalize.finalizeEditedFilesForNextStep (rt := posix) clock
                         read_edit_read no_protection {["/w/a.ts"]}).2 in
            filter (fun p => file_operation_of (rt := posix) (inferWorktreeRoot w')
                               "/w/a.ts" p) (all_parts w') = [])).
Proof.
  assert (stable_keys (rt := posix) read_edit_read) as Hs
    by (apply stable_keys_by_parts; vm_compute; reflexivity).
  assert ("/w/a.ts" ∈ ({["/w/a.ts"]} : gset string)) as Hk
    by (apply elem_of_singleton; reflexivity).
  assert (protected (rt := posix) no_protection "/w/a.ts" = false) as Hp
    by (vm_compute; reflexivity).
  split; [exact Hs|]. split; [exact Hk|]. split; [exact Hp|].
  exact (invalidation_wipes (H := posix) read_edit_read no_protection
           {["/w/a.ts"]} "/w/a.ts" Hs Hk Hp).
Defined.

Lemma protection_is_absolute_witness :
  protected (rt := posix) default_protection "/w/notes.md" = true
  /\ (window_revised
        (fun p => file_of (rt := posix) (inferWorktreeRoot protected_history) p
                  <> Some "/w/notes.md")
        protected_history
        (Cleanup.cleanupMessagesForContextJar (rt := posix) protected_history
           default_protection {["/w/notes.md"]}).2
      /\ (forall clock,
            window_finalized (H := posix)
              (fun p => file_of (rt := posix) (inferWorktreeRoot protected_history) p
                        <> Some "/w/notes.md")
              protected_history
              (Finalize.finalizeEditedFilesForNextStep (rt := posix) clock
                 protected_history default_protection {["/w/notes.md"]}).2)).
Proof.
  assert (protected (rt := posix) default_protection "/w/notes.md" = true) as Hp
    by (vm_compute; reflexivity).
  split; [exact Hp|].
  exact (protection_is_absolute (H := posix) protected_history default_protection
           {["/w/notes.md"]} "/w/notes.md" Hp).
Defined.

Lemma no_fabrication_witness :
  "/w/b.ts" ∉ (∅ : gset string)
  /\ (forall p, p ∈ all_parts edits_only ->
        read_of (rt := posix) (inferWorktreeRoot edits_only) "/w/b.ts" p = false)
  /\ stable_keys (rt := posix) edits_only
  /\ (let w' := (Cleanup.cleanupMessagesForContextJar (rt := posix) edits_only
                   no_protection ∅).2 in
      window_revised
        (fun p => file_of (rt := posix) (inferWorktreeRoot edits_only) p
                  <> Some "/w/b.ts") edits_only w'
      /\ filter (fun p => file_operation_of (rt := posix) (inferWorktreeRoot w')
                            "/w/b.ts" p) (all_parts w')
         = filter (fun p => file_operation_of (rt := posix)
                              (inferWorktreeRoot edits_only) "/w/b.ts" p)
             (all_parts edits_only)).
Proof.
  assert ("/w/b.ts" ∉ (∅ : gset string)) as Hk by apply not_elem_of_empty.
  assert (forall p, p ∈ all_parts edits_only ->
            read_of (rt := posix) (inferWorktreeRoot edits_only) "/w/b.ts" p = false)
    as Hr.
  { intros p Hp. apply list_elem_of_In in Hp. simpl in Hp.
    destruct Hp as [<-|[<-|[]]]; vm_compute; reflexivity. }
  assert (stable_keys (rt := posix) edits_only) as Hs
    by (apply stable_keys_by_parts; vm_compute; reflexivity).
  split; [exact Hk|]. split; [exact Hr|]. split; [exact Hs|].
  destruct (no_fabrication (H := posix) edits_only no_protection ∅ "/w/b.ts" Hk Hr)
    as [Hframe Hsame].
  split; [exact Hframe|exact (Hsame Hs)].
Defined.

(** C3, where the code departs from it.  A read of a path given in quotes
    with a blank before the closing quote is filed under the key that keeps
    the blank.  The consolidation engine keeps the read and writes the key
    back as its path: the path now resolves to the file without the blank,
    which is invalidated, and the read stands in the window.  The finalization
    engine does the same with the path of its synthetic read. *)
Theorem quoted_path_escapes_invalidation :
  let inv : gset string := {["/w/a.ts"]} in
  let kept := (Cleanup.cleanupMessagesForContextJar (rt := posix) quoted_read
                 no_protection inv).2 in
  let finalized := (Finalize.finalizeEditedFilesForNextStep (rt := posix)
                      (fun _ => 0%Z) quoted_edit no_protection inv).2 in
  protected (rt := posix) no_protection "/w/a.ts" = false
  /\ filter (fun p => file_operation_of (rt := posix) (inferWorktreeRoot kept)
                        "/w/a.ts" p) (all_parts kept)
     = [read_part "call_1" "/w/a.ts " "<file>a</file>"]
  /\ omap read_callID
       (filter (fun p => file_operation_of (rt := posix) (inferWorktreeRoot finalized)
                           "/w/a.ts" p) (all_parts finalized))
     = ["context-jar-final-read-_w_a_ts_"].
Proof. by vm_compute. Qed.

(** C5, where the code departs from it.  A file is edited and never read;
    the window also holds a read of the path given in quotes with a blank
    before the closing quote, which is filed under another key.  The
    consolidation engine writes that key back as the path of the read, and
    the read then resolves to the edited file: after the pass the file has a
    read Part it did not have before. *)
Theorem quoted_read_joins_unread_file :
  let w := edit_then_quoted_read in
  let w' := (Cleanup.cleanupMessagesForContextJar (rt := posix) w no_protection ∅).2 in
  protected (rt := posix) no_protection "/w/a.ts" = false
  /\ filter (fun p => read_of (rt := posix) (inferWorktreeRoot w) "/w/a.ts" p)
       (all_parts w) = []
  /\ filter (fun p => file_operation_of (rt := posix) (inferWorktreeRoot w)
                        "/w/a.ts" p) (all_parts w)
     = [edit_part "call_1" "/w/a.ts" "X"]
  /\ filter (fun p => file_operation_of (rt := posix) (inferWorktreeRoot w')
                        "/w/a.ts" p) (all_parts w')
     = [edit_part "call_1" "/w/a.ts" "X";
        read_part "call_2" "/w/a.ts " "<file>a</file>"].
Proof. by vm_compute. Qed.

Lemma uppercase_extension_never_matches_witness :
  Forall (fun e => has_upper e = true) [".MD"]
  /\ matchesExtension (rt := posix) "/w/README.MD" [".MD"] = false.
Proof.
  assert (Forall (fun e => has_upper e = true) [".MD"]) as Hup
    by (repeat constructor).
  split; [exact Hup|].
  exact (uppercase_extension_never_matches (H := posix) "/w/README.MD" [".MD"] Hup).
Defined.


(** ** The keeper of a file *)

Lemma rewrite_keeper_fields `{Runtime} k latest t st :
  state t = Completed st ->
  exists st', state (Cleanup.rewrite_keeper k latest t) = Completed st'
    /\ tool (Cleanup.rewrite_keeper k latest t) = tool t
    /\ callID (Cleanup.rewrite_keeper k latest t) = callID t.
Proof. intros Hst. unfold Cleanup.rewrite_keeper. rewrite Hst. simpl. eauto. Qed.

Lemma tool_at_located w r t : tool_at w r = Some t -> (r, PTool t) ∈ located w.
Proof.
  intros Ht. apply elem_of_located. unfold tool_at in Ht.
  destruct (part_at w r) as [[t'| |]|]; by simplify_eq.
Qed.

Lemma read_callID_read t st :
  state t = Completed st -> tool t = "read" -> read_callID (PTool t) = callID t.
Proof.
  intros Hst Ht. unfold read_callID, completed. rewrite Hst, Ht. done.
Qed.

Section Keeper.
Context {rt : Runtime}.
Variable config : WhitelistConfig.
Variable inv : gset string.
Variable w : list ChatMessage.
Hypothesis stable : stable_keys w.
Hypothesis distinct : distinct_read_callIDs w.

Import Cleanup.

Local Abbreviation root := (inferWorktreeRoot w).
Local Abbreviation h := (collect config inv root w).
Local Abbreviation s := (pick_keepers inv h w).
Local Abbreviation keeps := (sweep_keeps config inv root h s).
Local Abbreviation cpart := (consolidated_part root h (filesWithRead h)).

Lemma sweep_keeps_keeper t st k c :
  state t = Completed st -> tool t = "read" -> resolved t root = Some k ->
  k ∈ filesWithHistory h -> protected config k = false -> k ∉ inv ->
  k ∈ filesToConsolidate s ->
  callID t = Some c -> c <> "" -> c ∈ keepCallIDs s ->
  keeps (PTool t) = true.
Proof.
  intros Hst Ht Hres Hh Hp Hi Hc Hid Hne Hk.
  unfold sweep_keeps, sweep_part, isCompletedToolPart, protected in *.
  rewrite Hst, Ht, Hres, Hp, Hid. simpl.
  rewrite (bool_decide_eq_true_2 _ Hh), (bool_decide_eq_false_2 _ Hi),
    (bool_decide_eq_true_2 _ Hc), (bool_decide_eq_true_2 _ Hk). simpl.
  destruct c; [done|]. done.
Qed.

Lemma kept_operation_is_keeper k r0 r x :
  lastReadByFile h !! k = Some r0 ->
  (r, x) ∈ located w ->
  file_operation_of root k (cpart r x) = true -> keeps (cpart r x) = true ->
  r = r0.
Proof.
  intros Hr0 Hin Hop Hkeep.
  pose proof (proj1 (elem_of_located w r x) Hin) as Hat.
  destruct (keeper_exists config inv w k r0 Hr0)
    as (t0 & st0 & Ht0 & _ & _ & _ & _ & _ & _ & Hprot & Hinv).
  destruct (consolidated_part_cases config inv w r x Hat)
    as [Heq|(k1 & t & st & -> & Hr & Hst & Ht & Hres & _ & _ & Hall & _ & Heq)];
    rewrite Heq in *.
  - apply file_operation_of_inv in Hop as (t & st & -> & Hst & Hft & Hres).
    assert (k ∈ filesWithHistory h) as Hh
      by (by apply (collect_lastRead_sets config inv root w k r0)).
    destruct (sweep_keeps_true config inv root w _ t st k Hkeep Hst Hft Hres Hh Hprot)
      as [_ Hcons].
    destruct Hcons as (Hread & c & Hc & Hne & Hck).
    { apply (pick_keepers_spec config inv root w). eauto. }
    apply (pick_keepers_spec config inv root w) in Hck
      as (k2 & r2 & t2 & Hr2 & Ht2 & Hd).
    destruct (keeper_exists config inv w k2 r2 Hr2)
      as (t2' & st2 & Ht2' & _ & Hst2 & Hrd2 & Hres2 & _).
    assert (t2' = t2) as -> by congruence.
    assert (callID t2 = Some c) as Hc2.
    { destruct (callID t2); simpl in Hd; congruence. }
    assert (r = r2) as ->.
    { eapply (located_distinct w r r2 (PTool t) (PTool t2) c); eauto.
      - by apply tool_at_located.
      - by rewrite (read_callID_read t st).
      - by rewrite (read_callID_read t2 st2). }
    assert (t = t2) as ->.
    { unfold tool_at in Ht2. rewrite Hat in Ht2. congruence. }
    assert (k2 = k) as -> by congruence. congruence.
  - destruct (stable_keys_elem w (PTool t) k1 stable Hall Hres) as [Hn Hne].
    apply file_operation_of_file in Hop. simpl in Hop.
    rewrite (resolved_rewrite_keeper root t st k1 _ Hst Hn Hne) in Hop.
    assert (k1 = k) as -> by congruence. congruence.
Qed.

Lemma keeper_is_kept k r0 t0 c :
  lastReadByFile h !! k = Some r0 -> tool_at w r0 = Some t0 ->
  callID t0 = Some c -> c <> "" ->
  file_operation_of root k (cpart r0 (PTool t0)) = true
  /\ read_of root k (cpart r0 (PTool t0)) = true
  /\ keeps (cpart r0 (PTool t0)) = true.
Proof.
  intros Hr0 Ht0 Hc Hne.
  destruct (keeper_exists config inv w k r0 Hr0)
    as (t0' & st0 & Ht0' & Hall & Hst & Hrd & Hres & _ & _ & Hprot & Hinv).
  assert (t0' = t0) as -> by congruence.
  rewrite (consolidated_part_keeper config inv w k r0 t0 Hr0 Ht0).
  destruct (rewrite_keeper_fields k (latestByFile h !! k) t0 st0 Hst)
    as (st' & Hst' & Htool' & Hid').
  destruct (stable_keys_elem w (PTool t0) k stable Hall Hres) as [Hn Hnek].
  pose proof (resolved_rewrite_keeper root t0 st0 k (latestByFile h !! k) Hst Hn Hnek)
    as Hres'.
  split_and!.
  - eapply file_operation_of_intro; eauto. rewrite Htool', Hrd. done.
  - unfold read_of, completed, tool_of, file_of. rewrite Hst', Htool', Hrd, Hres'.
    simpl. by rewrite !bool_decide_eq_true_2.
  - eapply (sweep_keeps_keeper _ st' k c); eauto; try congruence.
    + by apply (collect_lastRead_sets config inv root w k r0).
    + apply (pick_keepers_spec config inv root w). eauto.
    + apply (pick_keepers_spec config inv root w). exists k, r0, t0.
      split_and!; [done|done|]. by rewrite Hc.
Qed.

End Keeper.

(** C1, as the code has it.  For a file that is neither protected nor
    invalidated and has in the window a completed read Part with a non-empty
    output, the consolidation engine leaves exactly one completed
    file-operation Part of the file, and it is a read, provided that the
    usable reads of the file carry non-empty call identifiers, that no two
    completed read Parts of the window share a call identifier, and that the
    keys of the window are fixed points of the path resolver. *)
Theorem one_read_per_file `{Runtime} (w : list ChatMessage)
    (config : WhitelistConfig) (inv : gset string) (k : string) :
  stable_keys w -> distinct_read_callIDs w ->
  protected config k = false -> k ∉ inv ->
  (exists q, q ∈ all_parts w /\ usable_read (inferWorktreeRoot w) k q = true) ->
  (forall q, q ∈ all_parts w -> usable_read (inferWorktreeRoot w) k q = true ->
     exists c, read_callID q = Some c /\ c <> "") ->
  let w' := (Cleanup.cleanupMessagesForContextJar w config inv).2 in
  exists keeper,
    read_of (inferWorktreeRoot w') k keeper = true
    /\ filter (fun p => read_of (inferWorktreeRoot w') k p) (all_parts w') = [keeper]
    /\ filter (fun p => file_operation_of (inferWorktreeRoot w') k p) (all_parts w')
       = [keeper].
Proof.
  intros Hs Hd Hprot Hinv (q & Hq & Hu) Hids. simpl.
  rewrite (inferWorktreeRoot_info w) by apply cleanup_info.
  destruct (collect_has_lastRead config inv (inferWorktreeRoot w) w k q Hq Hu Hprot Hinv)
    as [r0 Hr0].
  destruct (keeper_exists config inv w k r0 Hr0)
    as (t0 & st0 & Ht0 & Hall0 & Hst0 & Hrd0 & Hres0 & _ & Hu0 & _).
  destruct (Hids _ Hall0 Hu0) as (c & Hc & Hne).
  rewrite (read_callID_read t0 st0 Hst0 Hrd0) in Hc.
  destruct (keeper_is_kept config inv w Hs k r0 t0 c Hr0 Ht0 Hc Hne)
    as (Hop0 & Hread0 & Hkeep0).
  assert (Cleanup.filesWithHistory
            (Cleanup.collect config inv (inferWorktreeRoot w) w) <> []) as Hh.
  { intros Hnil.
    pose proof (collect_lastRead_sets config inv (inferWorktreeRoot w) w k r0 Hr0)
      as (_ & Hin & _).
    simpl in Hin. rewrite Hnil in Hin. by apply elem_of_nil in Hin. }
  rewrite (cleanup_all_parts config inv w Hh).
  eexists. split; [exact Hread0|].
  assert (forall (Q : ChatMessagePart -> bool),
    (forall p, Q p = true -> file_operation_of (inferWorktreeRoot w) k p = true) ->
    Q (consolidated_part (inferWorktreeRoot w)
         (Cleanup.collect config inv (inferWorktreeRoot w) w)
         (Cleanup.filesWithRead (Cleanup.collect config inv (inferWorktreeRoot w) w))
         r0 (PTool t0)) = true ->
    filter (fun p => Q p)
      (filter (fun p => sweep_keeps config inv (inferWorktreeRoot w)
                          (Cleanup.collect config inv (inferWorktreeRoot w) w)
                          (Cleanup.pick_keepers inv
                             (Cleanup.collect config inv (inferWorktreeRoot w) w) w) p)
         ((fun rp => consolidated_part (inferWorktreeRoot w)
                       (Cleanup.collect config inv (inferWorktreeRoot w) w)
                       (Cleanup.filesWithRead
                          (Cleanup.collect config inv (inferWorktreeRoot w) w))
                       rp.1 rp.2) <$> located w))
    = [consolidated_part (inferWorktreeRoot w)
         (Cleanup.collect config inv (inferWorktreeRoot w) w)
         (Cleanup.filesWithRead (Cleanup.collect config inv (inferWorktreeRoot w) w))
         r0 (PTool t0)]) as Hone.
  { intros Q HQ HQ0. rewrite list_filter_filter.
    apply (filter_unique _ (fun rp => consolidated_part _ _ _ rp.1 rp.2)
             (located w) r0 (PTool t0)).
    - apply NoDup_located.
    - by apply tool_at_located.
    - simpl. split; apply Is_true_true; done.
    - intros r x Hin [HQx Hkx]. simpl in *.
      apply Is_true_true in HQx. apply Is_true_true in Hkx.
      eapply (kept_operation_is_keeper config inv w Hs Hd k r0 r x); eauto. }
  split; apply Hone; try done.
  intros p Hp. unfold read_of in Hp. unfold file_operation_of, file_operation.
  destruct p as [t| |]; simpl in *; try done.
  apply andb_prop in Hp as [Hp Hf]. apply andb_prop in Hp as [Hcomp Htool].
  apply bool_decide_eq_true_1 in Htool. apply bool_decide_eq_true_1 in Hf.
  injection Htool as Htool.
  rewrite Hcomp, Htool, Hf. simpl. by rewrite !bool_decide_eq_true_2 by eauto.
Qed.

(** C1 as stated fails: two reads of a file, both with an empty output, are
    both left in the window. *)
Lemma two_empty_reads_both_stay :
  protected (rt := posix) no_protection "/w/a.ts" = false
  /\ "/w/a.ts" ∉ (∅ : gset string)
  /\ let w' := (Cleanup.cleanupMessagesForContextJar (rt := posix) two_empty_reads
                  no_protection ∅).2 in
     length (filter (fun p => read_of (rt := posix) (inferWorktreeRoot w') "/w/a.ts" p)
               (all_parts two_empty_reads)) = 2
     /\ length (filter (fun p => read_of (rt := posix) (inferWorktreeRoot w')
                                   "/w/a.ts" p) (all_parts w')) = 2.
Proof.
  split; [by vm_compute|]. split; [apply not_elem_of_empty|]. by vm_compute.
Qed.

Lemma NoDup_by_decide {A} `{EqDecision A} (l : list A) :
  bool_decide (NoDup l) = true -> NoDup l.
Proof. apply bool_decide_eq_true_1. Qed.

Lemma one_read_per_file_witness :
  stable_keys (rt := posix) read_edit_read
  /\ distinct_read_callIDs read_edit_read
  /\ protected (rt := posix) no_protection "/w/a.ts" = false
  /\ "/w/a.ts" ∉ (∅ : gset string)
  /\ (exists q, q ∈ all_parts read_edit_read
        /\ usable_read (rt := posix) (inferWorktreeRoot read_edit_read) "/w/a.ts" q
           = true)
  /\ (forall q, q ∈ all_parts read_edit_read ->
        usable_read (rt := posix) (inferWorktreeRoot read_edit_read) "/w/a.ts" q = true ->
        exists c, read_callID q = Some c /\ c <> "")
  /\ let w' := (Cleanup.cleanupMessagesForContextJar (rt := posix) read_edit_read
                  no_protection ∅).2 in
     exists keeper,
       read_of (rt := posix) (inferWorktreeRoot w') "/w/a.ts" keeper = true
       /\ filter (fun p => read_of (rt := posix) (inferWorktreeRoot w') "/w/a.ts" p)
            (all_parts w') = [keeper]
       /\ filter (fun p => file_operation_of (rt := posix) (inferWorktreeRoot w')
                             "/w/a.ts" p) (all_parts w') = [keeper].
Proof.
  assert (stable_keys (rt := posix) read_edit_read) as Hs
    by (apply stable_keys_by_parts; vm_compute; reflexivity).
  assert (distinct_read_callIDs read_edit_read) as Hd
    by (apply NoDup_by_decide; vm_compute; reflexivity).
  assert (protected (rt := posix) no_protection "/w/a.ts" = false) as Hp
    by (vm_compute; reflexivity).
  assert ("/w/a.ts" ∉ (∅ : gset string)) as Hk by apply not_elem_of_empty.
  assert (exists q, q ∈ all_parts read_edit_read
            /\ usable_read (rt := posix) (inferWorktreeRoot read_edit_read)
                 "/w/a.ts" q = true) as Hq.
  { exists (read_part "call_1" "/w/a.ts" "<file>old</file>").
    split; [|vm_compute; reflexivity].
    apply list_elem_of_In. simpl. auto. }
  assert (forall q, q ∈ all_parts read_edit_read ->
            usable_read (rt := posix) (inferWorktreeRoot read_edit_read)
              "/w/a.ts" q = true ->
            exists c, read_callID q = Some c /\ c <> "") as Hids.
  { intros q Hin Hu. apply list_elem_of_In in Hin. simpl in Hin.
    destruct Hin as [<-|[<-|[<-|[<-|[<-|[]]]]]]; try discriminate Hu.
    - exists "call_1". split; [reflexivity|discriminate].
    - exists "call_3". split; [reflexivity|discriminate]. }
  split_and!; try assumption.
  exact (one_read_per_file (H := posix) read_edit_read no_protection ∅ "/w/a.ts"
           Hs Hd Hp Hk Hq Hids).
Defined.


(** ** Two finalization passes in a row *)

Lemma fmap_fixed {A} (f : A -> A) (l : list A) :
  (forall x, x ∈ l -> f x = x) -> f <$> l = l.
Proof.
  induction l as [|x l IH]; intros Hl; [done|].
  rewrite fmap_cons, Hl by (by left). f_equal. apply IH. intros y Hy. apply Hl. by right.
Qed.

Lemma findLastAssistant_Some (w : list ChatMessage) m :
  m ∈ w -> role (info m) = "assistant" -> is_Some (Finalize.findLastAssistant w).
Proof.
  intros Hm Hr. induction w as [|m' w IH]; [by apply elem_of_nil in Hm|].
  simpl. destruct (Finalize.findLastAssistant w); [eauto|].
  apply elem_of_cons in Hm as [<-|Hm].
  - rewrite bool_decide_eq_true_2 by done. eauto.
  - by destruct (IH Hm).
Qed.

Section Twice.
Context {rt : Runtime}.
Variable config : WhitelistConfig.
Variable inv : gset string.
Variable w : list ChatMessage.
Hypothesis stable : stable_keys w.

Import Finalize.

Local Abbreviation root := (inferWorktreeRoot w).
Local Abbreviation g := (gather config inv root w).

Lemma synthetic_not_snapshot k k' p :
  synthetic_read_of k' p -> snapshot_of root k p = false.
Proof.
  intros (out & label & now & ->). unfold snapshot_of. simpl.
  by rewrite andb_false_r.
Qed.

Lemma synthetic_operation k p :
  k ∈ editedFiles g -> synthetic_read_of k p -> file_operation_of root k p = true.
Proof.
  intros Hk (out & label & now & ->).
  apply gather_edited_source in Hk as (q & Hq & Hs & _).
  apply snapshot_of_inv in Hs as (t & st & -> & _ & Hres & _).
  destruct (stable_keys_elem w (PTool t) k stable Hq Hres) as [Hn Hne].
  eapply file_operation_of_intro; [done|done|].
  by apply resolved_synthetic.
Qed.

Lemma synthetic_operation_inv k k' p :
  k' ∈ editedFiles g -> synthetic_read_of k' p ->
  file_operation_of root k p = true -> k = k'.
Proof.
  intros Hk Hp Hop. pose proof (synthetic_operation k' p Hk Hp) as Hop'.
  apply file_operation_of_file in Hop, Hop'. congruence.
Qed.

Lemma finalized_no_snapshot clock k q :
  q ∈ all_parts (finalizeEditedFilesForNextStep clock w config inv).2 ->
  snapshot_of root k q = true -> protected config k = false -> k ∉ inv -> False.
Proof.
  intros Hq Hs Hprot Hinv.
  apply finalize_parts_inv in Hq as [[Hq Hcase]|(k' & Hk' & Hsyn)].
  - pose proof (gather_edited config inv root w k q Hq Hs Hprot Hinv) as Hed.
    destruct Hcase as [Hkeep|[Hnil _]].
    + apply snapshot_of_inv in Hs as (t & st & -> & Hst & Hres & Hft & _).
      by destruct (wipe_keeps_true config inv root w t st k Hkeep Hst Hft Hres Hprot).
    + rewrite Hnil in Hed. by apply elem_of_nil in Hed.
  - by rewrite (synthetic_not_snapshot k k' q Hsyn) in Hs.
Qed.

Lemma finalize_idempotent clock1 clock2 :
  let w1 := (finalizeEditedFilesForNextStep clock1 w config inv).2 in
  (finalizeEditedFilesForNextStep clock2 w1 config inv).2 = w1.
Proof.
  simpl. set (w1 := (finalizeEditedFilesForNextStep clock1 w config inv).2).
  assert (inferWorktreeRoot w1 = root) as Hroot
    by (apply inferWorktreeRoot_info, finalize_info).
  assert (editedFiles (gather config inv (inferWorktreeRoot w1) w1) = []) as Hnil.
  { destruct (editedFiles (gather config inv (inferWorktreeRoot w1) w1))
      as [|k ks] eqn:He; [done|]. exfalso.
    assert (k ∈ editedFiles (gather config inv (inferWorktreeRoot w1) w1)) as Hk
      by (rewrite He; by left).
    apply gather_edited_source in Hk as (q & Hq & Hs & Hprot & Hinv).
    rewrite Hroot in Hs. by eapply (finalized_no_snapshot clock1 k q). }
  rewrite finalize_window, Hnil.
  destruct (bool_decide ([] = [])
            && (filesInvalidated
                  (count_invalidated inv
                     (gather config inv (inferWorktreeRoot w1) w1) emptyDelta) =? 0)%nat);
    [done|].
  assert ((fun m => set_parts
             (filter (fun p => wipe_keeps config inv (inferWorktreeRoot w1)
                                 (gather config inv (inferWorktreeRoot w1) w1) p)
                (parts m)) m) <$> w1 = w1) as Hsame.
  { apply fmap_fixed. intros m Hm.
    rewrite filter_all; [apply set_parts_id|].
    intros p Hp. apply Is_true_true.
    destruct (wipe_keeps config inv (inferWorktreeRoot w1) _ p) eqn:Hkeep; [done|].
    exfalso. apply wipe_keeps_false in Hkeep
      as (t & st & k & -> & Hst & Hft & Hres & Hprot & Hcase).
    rewrite Hnil in Hcase. destruct Hcase as [Hk|Hk]; [by apply elem_of_nil in Hk|].
    rewrite Hroot in Hres.
    apply (finalize_wipes_invalidated config inv w stable clock1 k (PTool t)); auto.
    - apply list_elem_of_lookup in Hm as [i Hi].
      apply list_elem_of_lookup in Hp as [j Hj].
      by eapply elem_of_all_parts.
    - by eapply file_operation_of_intro. }
  destruct (findLastAssistant w1) as [i|]; [|done].
  simpl. rewrite Hsame. apply list_alter_id. intros m.
  by rewrite app_nil_r, set_parts_id.
Qed.

Lemma filter_synthetic_parts clock k ks n :
  NoDup ks -> (forall k', k' ∈ ks -> k' ∈ editedFiles g) ->
  (k ∈ ks ->
   exists p, synthetic_read_of k p
     /\ filter (fun p => file_operation_of root k p)
          (synthetic_parts root clock g n ks) = [p])
  /\ (k ∉ ks ->
      filter (fun p => file_operation_of root k p)
        (synthetic_parts root clock g n ks) = []).
Proof.
  revert n. induction ks as [|k' ks IH]; intros n Hnd Hed.
  { split; [intros Hk; by apply elem_of_nil in Hk|done]. }
  apply NoDup_cons in Hnd as [Hk' Hnd].
  assert (k' ∈ editedFiles g) as Hed' by (apply Hed; by left).
  destruct (gather_edited_latest config inv root w k' Hed') as [latest Hl].
  simpl. rewrite Hl.
  set (p' := PTool (makeSyntheticReadPart k'
                      (if isAlreadyReadFormatted latest then content latest
                       else renderReadLikeOutput (content latest))
                      (synthetic_label root k') (clock n))).
  assert (synthetic_read_of k' p') as Hsyn by (unfold synthetic_read_of; eauto).
  destruct (IH (S n) Hnd) as [IH1 IH2]; [intros; apply Hed; by right|].
  rewrite filter_cons. split.
  - intros [->|Hk]%elem_of_cons.
    + rewrite decide_True
        by (apply Is_true_true; by apply synthetic_operation).
      rewrite IH2 by done. eauto.
    + rewrite decide_False.
      * by apply IH1.
      * intros Hop. apply Is_true_true in Hop.
        apply (synthetic_operation_inv k k' p' Hed' Hsyn) in Hop. by subst.
  - intros Hk. apply not_elem_of_cons in Hk as [Hne Hk].
    rewrite decide_False.
    + by apply IH2.
    + intros Hop. apply Is_true_true in Hop.
      by apply (synthetic_operation_inv k k' p' Hed' Hsyn) in Hop.
Qed.

Lemma finalize_one_synthetic clock k :
  (exists m, m ∈ w /\ role (info m) = "assistant") ->
  protected config k = false -> k ∉ inv ->
  (exists q, q ∈ all_parts w /\ snapshot_of root k q = true) ->
  exists synthetic,
    synthetic_read_of k synthetic
    /\ filter (fun p => file_operation_of root k p)
         (all_parts (finalizeEditedFilesForNextStep clock w config inv).2)
       = [synthetic].
Proof.
  intros (m & Hm & Hrole) Hprot Hinv (q & Hq & Hs).
  pose proof (gather_edited config inv root w k q Hq Hs Hprot Hinv) as Hed.
  rewrite finalize_window.
  rewrite (bool_decide_eq_false_2 (editedFiles g = []))
    by (intros Hnil; rewrite Hnil in Hed; by apply elem_of_nil in Hed).
  simpl.
  destruct (findLastAssistant_Some w m Hm Hrole) as [i Hi]. rewrite Hi.
  destruct (findLastAssistant_lookup w i Hi) as (mi & Hmi & _).
  destruct (filter_synthetic_parts clock k (editedFiles g) 0) as [Hone _];
    [apply gather_NoDup|done|].
  destruct (Hone Hed) as (p & Hsyn & Hfilter).
  exists p. split; [done|]. rewrite <- Hfilter.
  eapply filter_all_parts_alter_app.
  - rewrite list_lookup_fmap, Hmi. done.
  - intros p' Hp' Hop. rewrite all_parts_filter in Hp'.
    apply list_elem_of_filter in Hp' as [Hkeep Hin].
    apply Is_true_true in Hkeep. apply Is_true_true in Hop.
    apply file_operation_of_inv in Hop as (t & st & -> & Hst & Hft & Hres).
    by destruct (wipe_keeps_true config inv root w t st k Hkeep Hst Hft Hres Hprot).
Qed.

End Twice.

(** C8, as the code has it.  The keys of the window being fixed points of the
    path resolver, a second finalization pass on the window the first one
    left changes nothing; and when the window has an assistant-authored
    message, every non-protected, non-invalidated file with an edit or write
    of recoverable content ends with exactly one completed file-operation
    Part, a synthetic read. *)
Theorem finalize_twice `{Runtime} (clock1 clock2 : nat -> Z) (w : list ChatMessage)
    (config : WhitelistConfig) (inv : gset string) :
  stable_keys w ->
  let w1 := (Finalize.finalizeEditedFilesForNextStep clock1 w config inv).2 in
  let w2 := (Finalize.finalizeEditedFilesForNextStep clock2 w1 config inv).2 in
  w2 = w1
  /\ ((exists m, m ∈ w /\ role (info m) = "assistant") ->
      forall k,
        protected config k = false -> k ∉ inv ->
        (exists q, q ∈ all_parts w /\ snapshot_of (inferWorktreeRoot w) k q = true) ->
        exists synthetic,
          synthetic_read_of k synthetic
          /\ filter (fun p => file_operation_of (inferWorktreeRoot w2) k p)
               (all_parts w2) = [synthetic]).
Proof.
  intros Hs. simpl. rewrite (finalize_idempotent config inv w Hs clock1 clock2).
  split; [done|]. intros Hm k Hprot Hinv Hq.
  rewrite (inferWorktreeRoot_info w) by apply finalize_info.
  by apply finalize_one_synthetic.
Qed.

(** C8 as stated fails: without an assistant message an edited file ends
    with no synthetic read, after one pass as after two. *)
Lemma finalize_twice_no_synthetic :
  protected (rt := posix) no_protection "/w/a.ts" = false
  /\ "/w/a.ts" ∉ (∅ : gset string)
  /\ snapshot_of (rt := posix) (inferWorktreeRoot edit_without_assistant) "/w/a.ts"
       (edit_part "call_1" "/w/a.ts" "X") = true
  /\ let w1 := (Finalize.finalizeEditedFilesForNextStep (rt := posix) (fun _ => 0%Z)
                  edit_without_assistant no_protection ∅).2 in
     let w2 := (Finalize.finalizeEditedFilesForNextStep (rt := posix) (fun _ => 1%Z)
                  w1 no_protection ∅).2 in
     all_parts w1 = [] /\ all_parts w2 = [].
Proof.
  split; [by vm_compute|]. split; [apply not_elem_of_empty|]. by vm_compute.
Qed.

Lemma finalize_twice_witness :
  stable_keys (rt := posix) read_edit_read
  /\ let w1 := (Finalize.finalizeEditedFilesForNextStep (rt := posix) (fun _ => 0%Z)
                  read_edit_read no_protection ∅).2 in
     let w2 := (Finalize.finalizeEditedFilesForNextStep (rt := posix) (fun _ => 1%Z)
                  w1 no_protection ∅).2 in
     w2 = w1
     /\ ((exists m, m ∈ read_edit_read /\ role (info m) = "assistant") ->
         forall k,
           protected (rt := posix) no_protection k = false -> k ∉ (∅ : gset string) ->
           (exists q, q ∈ all_parts read_edit_read
              /\ snapshot_of (rt := posix) (inferWorktreeRoot read_edit_read) k q = true) ->
           exists synthetic,
             synthetic_read_of k synthetic
             /\ filter (fun p => file_operation_of (rt := posix)
                                   (inferWorktreeRoot w2) k p) (all_parts w2)
                = [synthetic]).
Proof.
  assert (stable_keys (rt := posix) read_edit_read) as Hs
    by (apply stable_keys_by_parts; vm_compute; reflexivity).
  split; [exact Hs|].
  exact (finalize_twice (H := posix) (fun _ => 0%Z) (fun _ => 1%Z) read_edit_read
           no_protection ∅ Hs).
Defined.


(** ** The token totals of the consolidation engine *)

Lemma filter_snd_nil {R A} (P : A -> Prop) `{forall x, Decision (P x)}
    (L : list (R * A)) :
  filter P L.*2 = [] -> forall y, y ∈ L -> ~ P y.2.
Proof.
  intros Hf y Hy HP.
  assert (y.2 ∈ filter P L.*2) as Hin.
  { apply list_elem_of_filter. split; [done|]. apply list_elem_of_fmap. eauto. }
  rewrite Hf in Hin. by apply elem_of_nil in Hin.
Qed.

Lemma filter_snd_cons {R A} (P : A -> Prop) `{forall x, Decision (P x)}
    (L : list (R * A)) x rest :
  filter P L.*2 = x :: rest ->
  exists L0 r L', L = L0 ++ (r, x) :: L'
    /\ (forall y, y ∈ L0 -> ~ P y.2) /\ P x /\ filter P L'.*2 = rest.
Proof.
  induction L as [|[r a] L IH]; [done|].
  rewrite fmap_cons, filter_cons. simpl. destruct (decide (P a)) as [Ha|Ha].
  - intros [= -> <-]. exists [], r, L. split_and!; try done.
    intros y Hy. by apply elem_of_nil in Hy.
  - intros Hf. destruct (IH Hf) as (L0 & r' & L' & -> & H0 & Hx & Hrest).
    exists ((r, a) :: L0), r', L'. split_and!; try done.
    intros y [->|Hy]%elem_of_cons; [done|by apply H0].
Qed.

Lemma sum_list_append (l1 l2 : list nat) :
  sum_list (l1 ++ l2) = sum_list l1 + sum_list l2.
Proof. induction l1 as [|x l1 IH]; simpl; [done|]. rewrite IH. lia. Qed.

Lemma obj_set_same key v fields :
  assoc key fields = Some v -> obj_set key v fields = fields.
Proof.
  induction fields as [|[k old] fields IH]; [done|]. simpl.
  case_bool_decide; [by intros [= ->]|]. intros Hf. by rewrite IH.
Qed.

Section Totals.
Context {rt : Runtime}.
Variable config : WhitelistConfig.
Variable inv : gset string.
Variable root : option string.

Import Cleanup.

Lemma add_before_tokens delta tool n :
  tokensBefore (add_before delta tool n) = tokensBefore delta + n
  /\ tokensAfter (add_before delta tool n) = tokensAfter delta.
Proof. done. Qed.

Lemma sweep_part_tokens h s delta p :
  tokensBefore (sweep_part config inv root h s delta p).1
  = tokensBefore delta + before_cost config inv root h s p
  /\ tokensAfter (sweep_part config inv root h s delta p).1
     = tokensAfter delta + after_cost config inv root h s p.
Proof.
  unfold before_cost, after_cost, sweep_part.
  repeat case_match; simplify_eq/=;
    unfold categorizeAfterTokens, categorizeBeforeTokens, add_invalidatedBefore,
      add_before, add_after; simpl; lia.
Qed.

#[local] Arguments before_cost : simpl never.
#[local] Arguments after_cost : simpl never.

Lemma sweep_parts_tokens h s delta ps :
  tokensBefore (sweep_parts config inv root h s delta ps).1
  = tokensBefore delta + sum_list (before_cost config inv root h s <$> ps)
  /\ tokensAfter (sweep_parts config inv root h s delta ps).1
     = tokensAfter delta + sum_list (after_cost config inv root h s <$> ps).
Proof.
  revert delta. induction ps as [|p ps IH]; intros delta; simpl; [lia|].
  pose proof (sweep_part_tokens h s delta p) as [Hb Ha].
  destruct (sweep_part config inv root h s delta p) as [d1 b]. simpl in *.
  specialize (IH d1).
  destruct (sweep_parts config inv root h s d1 ps) as [d2 ps']. simpl in *.
  split; [rewrite (proj1 IH), Hb | rewrite (proj2 IH), Ha]; by rewrite Nat.add_assoc.
Qed.

Lemma sweep_tokens h s delta ms :
  tokensBefore (sweep config inv root h s delta ms).1
  = tokensBefore delta + sum_list (before_cost config inv root h s <$> all_parts ms)
  /\ tokensAfter (sweep config inv root h s delta ms).1
     = tokensAfter delta + sum_list (after_cost config inv root h s <$> all_parts ms).
Proof.
  revert delta. induction ms as [|m ms IH]; intros delta; simpl; [lia|].
  pose proof (sweep_parts_tokens h s delta (parts m)) as [Hb Ha].
  destruct (sweep_parts config inv root h s delta (parts m)) as [d1 ps]. simpl in *.
  specialize (IH d1).
  destruct (sweep config inv root h s d1 ms) as [d2 ms']. simpl fst in *.
  rewrite all_parts_cons, !fmap_app, !sum_list_append.
  split; [rewrite (proj1 IH), Hb | rewrite (proj2 IH), Ha]; by rewrite Nat.add_assoc.
Qed.

Lemma pick_keepers_tokens h w :
  tokensBefore (sel_delta (pick_keepers inv h w)) = 0
  /\ tokensAfter (sel_delta (pick_keepers inv h w)) = 0.
Proof.
  unfold pick_keepers.
  apply (foldl_invariant
    (fun s => tokensBefore (sel_delta s) = 0 /\ tokensAfter (sel_delta s) = 0));
    [done|].
  intros s k _ [Hb Ha]. unfold pick_keeper. repeat case_match; done.
Qed.

Lemma count_unread_invalidated_tokens h delta :
  tokensBefore (count_unread_invalidated inv h delta) = tokensBefore delta
  /\ tokensAfter (count_unread_invalidated inv h delta) = tokensAfter delta.
Proof.
  unfold count_unread_invalidated.
  apply (foldl_invariant
    (fun d => tokensBefore d = tokensBefore delta
              /\ tokensAfter d = tokensAfter delta)); [done|].
  intros d k _ [Hb Ha]. case_match; done.
Qed.




(** Pass 1 on a usable read: the Part becomes the last read of its file and
    its output the latest content. *)
Lemma collect_part_usable_read r h t k :
  usable_read root k (PTool t) = true -> protected config k = false -> k ∉ inv ->
  let h' := collect_part config inv root r h (PTool t) in
  lastReadByFile h' !! k = Some r
  /\ latestByFile h' !! k
     = Some {| content := part_output t; contentKind := ReadOutput |}
  /\ k ∈ filesWithHistory h'.
Proof.
  intros Hu Hp Hi. apply usable_read_inv in Hu as (t' & st & [= <-] & Hst & Ht & Hr & Ho).
  unfold protected in Hp. simpl.
  unfold collect_part, isCompletedToolPart, part_output.
  rewrite Hst, Ht, Hr, Hp, Ho. simpl.
  rewrite (bool_decide_eq_false_2 _ Hi). simpl.
  rewrite !lookup_insert_eq. split_and!; try done.
  apply elem_of_set_add. by left.
Qed.

End Totals.


(** ** A file read, edited, and read again *)


Lemma read_of_inv `{Runtime} root k p :
  read_of root k p = true ->
  exists t st, p = PTool t /\ state t = Completed st /\ tool t = "read"
    /\ resolved t root = Some k.
Proof.
  unfold read_of, completed, tool_of, file_of. destruct p as [t| |]; try done.
  destruct (state t) as [| |st|] eqn:Hst; try done.
  intros Hp. bool_hyps. exists t, st. split_and!; congruence.
Qed.

Lemma usable_read_operation `{Runtime} root k p :
  usable_read root k p = true -> file_operation_of root k p = true.
Proof.
  intros Hu. apply usable_read_inv in Hu as (t & st & -> & Hst & Ht & Hr & _).
  unfold file_operation_of, file_operation, completed, file_of.
  rewrite Hst, Ht, Hr. simpl. by rewrite !bool_decide_eq_true_2 by eauto.
Qed.

Section Scenario.
Context {rt : Runtime}.
Variable config : WhitelistConfig.
Variable inv : gset string.
Variable w : list ChatMessage.
Variable k c : string.
Variable r1 e r2 : ToolPart.

Import Cleanup.

Local Abbreviation root := (inferWorktreeRoot w).
Local Abbreviation h := (collect config inv root w).
Local Abbreviation s := (pick_keepers inv h w).
Local Abbreviation keeps := (sweep_keeps config inv root h s).
Local Abbreviation F :=
  (fun rp : ToolRef * ChatMessagePart =>
     consolidated_part root h (filesWithRead h) rp.1 rp.2).
Local Abbreviation keeper :=
  (rewrite_keeper k
     (Some {| content := part_output r2; contentKind := ReadOutput |}) r2).

Hypothesis stable : stable_keys w.
Hypothesis Hprot : protected config k = false.
Hypothesis Hinv : k ∉ inv.
Hypothesis Hops :
  filter (fun p => file_operation root p) (all_parts w)
  = [PTool r1; PTool e; PTool r2].
Hypothesis Hr1 : read_of root k (PTool r1) = true.
Hypothesis He : snapshot_of root k (PTool e) = true.
Hypothesis Hr2 : usable_read root k (PTool r2) = true.
Hypothesis Hc : callID r2 = Some c.
Hypothesis Hne : c <> "".
Hypothesis Hc1 : callID r1 <> Some c.




Section Split.
Variables L0 L1 L2 L3 : list (ToolRef * ChatMessagePart).
Variables p1 p2 p3 : ToolRef.
Hypothesis HL :
  located w
  = L0 ++ (p1, PTool r1) :: L1 ++ (p2, PTool e) :: L2 ++ (p3, PTool r2) :: L3.
Hypothesis Hrest :
  forall y, y ∈ L0 ++ L1 ++ L2 ++ L3 -> file_operation root y.2 = false.









End Split.





End Scenario.





(** ** The deltas the engines return *)

Lemma isFileTool_buckets tool :
  isFileTool tool = true ->
  (tool = "read" /\ isEditTool tool = false)
  \/ (tool <> "read" /\ isEditTool tool = true).
Proof.
  unfold isFileTool, isEditTool. intros Hf.
  destruct (decide (tool = "read")) as [->|Hr]; [by left|right].
  split; [done|]. rewrite (bool_decide_eq_false_2 _ Hr) in Hf. simpl in Hf.
  repeat case_bool_decide; try done; subst; done.
Qed.

Lemma add_before_bucketed d tool n :
  isFileTool tool = true -> bucketed d -> bucketed (add_before d tool n).
Proof.
  intros Hf (Hb & Ha & He & Hi). unfold bucketed, add_before. simpl.
  destruct (isFileTool_buckets tool Hf) as [[-> ->]|[Hr ->]].
  - rewrite bool_decide_eq_true_2 by done. lia.
  - rewrite bool_decide_eq_false_2 by done. lia.
Qed.

Lemma add_before_invalidated_bucketed d tool n :
  isFileTool tool = true -> bucketed d ->
  bucketed (add_invalidatedBefore (add_before d tool n) n).
Proof.
  intros Hf (Hb & Ha & He & Hi). unfold bucketed, add_invalidatedBefore, add_before.
  simpl. destruct (isFileTool_buckets tool Hf) as [[-> ->]|[Hr ->]].
  - rewrite bool_decide_eq_true_2 by done. lia.
  - rewrite bool_decide_eq_false_2 by done. lia.
Qed.

Lemma add_after_read_bucketed d n : bucketed d -> bucketed (add_after d "read" n).
Proof. intros (Hb & Ha & He & Hi). unfold bucketed, add_after. simpl. lia. Qed.

Lemma add_before_saving d tool n : saving d -> saving (add_before d tool n).
Proof.
  intros [Ht Hr]. unfold saving, add_before. simpl. case_bool_decide; lia.
Qed.

Lemma add_kept_read_saving d n :
  saving d -> saving (add_after (add_before d "read" n) "read" n).
Proof. intros [Ht Hr]. unfold saving, add_after, add_before. simpl. lia. Qed.

Section CleanupDelta.
Context {rt : Runtime}.
Variable config : WhitelistConfig.
Variable inv : gset string.
Variable root : option string.

Import Cleanup.

Ltac sweep_part_walk t Hf Hk :=
  unfold sweep_part;
  destruct (isCompletedToolPart t); [|done];
  destruct (isFileTool (tool t)) eqn:Hf; [|done]; simpl;
  destruct (resolved t root) as [?k|]; [|done];
  destruct (negb (bool_decide (_ ∈ filesWithHistory _))); [done|];
  destruct (isFileProtected _ _ _); [done|];
  destruct (bool_decide (_ ∈ inv));
    [|destruct (negb (bool_decide (_ ∈ filesToConsolidate _))); [done|];
      destruct (bool_decide (tool t = "read") && _) eqn:Hk;
        [apply andb_prop in Hk as [Hk _]; apply bool_decide_eq_true_1 in Hk|]];
  simpl; unfold categorizeAfterTokens, categorizeBeforeTokens.

Lemma sweep_part_bucketed h s d p :
  bucketed d -> bucketed (sweep_part config inv root h s d p).1.
Proof.
  intros Hd. destruct p as [t| |]; [|done..]. sweep_part_walk t Hf Hk.
  - by apply add_before_invalidated_bucketed.
  - rewrite Hk in *. by apply add_after_read_bucketed, add_before_bucketed.
  - by apply add_before_bucketed.
Qed.

Lemma sweep_part_saving h s d p :
  saving d -> saving (sweep_part config inv root h s d p).1.
Proof.
  intros Hd. destruct p as [t| |]; [|done..]. sweep_part_walk t Hf Hk.
  - destruct (add_before_saving d (tool t) (toolPartTokens t) Hd). by split.
  - rewrite Hk in *. by apply add_kept_read_saving.
  - by apply add_before_saving.
Qed.

Lemma sweep_parts_invariant (I : StepTokenDelta -> Prop) h s d ps :
  (forall d p, I d -> I (sweep_part config inv root h s d p).1) ->
  I d -> I (sweep_parts config inv root h s d ps).1.
Proof.
  intros Hstep. revert d. induction ps as [|p ps IH]; intros d Hd; [done|]. simpl.
  pose proof (Hstep d p Hd) as H1.
  destruct (sweep_part config inv root h s d p) as [d1 b].
  pose proof (IH d1 H1) as H2.
  by destruct (sweep_parts config inv root h s d1 ps) as [d2 ps'].
Qed.

Lemma sweep_invariant (I : StepTokenDelta -> Prop) h s d ms :
  (forall d p, I d -> I (sweep_part config inv root h s d p).1) ->
  I d -> I (sweep config inv root h s d ms).1.
Proof.
  intros Hstep. revert d. induction ms as [|m ms IH]; intros d Hd; [done|]. simpl.
  pose proof (sweep_parts_invariant I h s d (parts m) Hstep Hd) as H1.
  destruct (sweep_parts config inv root h s d (parts m)) as [d1 ps].
  pose proof (IH d1 H1) as H2.
  by destruct (sweep config inv root h s d1 ms) as [d2 ms'].
Qed.

(** Passes 2 and the count of unread invalidated files touch the two file
    counters only. *)
Lemma pick_keepers_counters (I : StepTokenDelta -> Prop) h w :
  I emptyDelta ->
  (forall d, I d -> I (incr_filesInvalidated d)) ->
  (forall d, I d -> I (incr_filesConsolidated d)) ->
  I (sel_delta (pick_keepers inv h w)).
Proof.
  intros H0 Hi Hc. unfold pick_keepers.
  apply (foldl_invariant (fun s => I (sel_delta s))); [done|].
  intros s k _ Hs. unfold pick_keeper. repeat case_match; simpl; auto.
Qed.

Lemma count_unread_invalidated_counters (I : StepTokenDelta -> Prop) h d :
  I d -> (forall d, I d -> I (incr_filesInvalidated d)) ->
  I (count_unread_invalidated inv h d).
Proof.
  intros H0 Hi. unfold count_unread_invalidated.
  apply (foldl_invariant I); [done|]. intros d' k _ Hd. case_match; auto.
Qed.

End CleanupDelta.

Lemma cleanup_delta_invariant `{Runtime} (I : StepTokenDelta -> Prop) w config inv :
  I emptyDelta ->
  (forall d, I d -> I (incr_filesInvalidated d)) ->
  (forall d, I d -> I (incr_filesConsolidated d)) ->
  (forall h s d p,
     I d -> I (Cleanup.sweep_part config inv (inferWorktreeRoot w) h s d p).1) ->
  I (Cleanup.cleanupMessagesForContextJar w config inv).1.
Proof.
  intros H0 Hi Hc Hs. unfold Cleanup.cleanupMessagesForContextJar.
  destruct (Cleanup.filesWithHistory _); [done|].
  apply sweep_invariant; [apply Hs|].
  apply count_unread_invalidated_counters; [|done].
  by apply pick_keepers_counters.
Qed.

Section FinalizeDelta.
Context {rt : Runtime}.
Variable config : WhitelistConfig.
Variable inv : gset string.
Variable root : option string.

Import Finalize.

Lemma wipe_part_bucketed g d p :
  bucketed d -> bucketed (wipe_part config inv root g d p).1.
Proof.
  intros Hd. unfold wipe_part.
  destruct p as [t| |]; [|done..].
  destruct (isCompletedToolPart t); [|done].
  destruct (resolved t root) as [k|]; [|done].
  destruct (isFileProtected _ _ _); [done|].
  destruct (negb _); [done|].
  destruct (isFileTool (tool t)) eqn:Hf; [|done].
  unfold categorizeBefore, categorizeBeforeTokens.
  destruct (bool_decide (k ∈ inv)); simpl.
  - by apply add_before_invalidated_bucketed.
  - by apply add_before_bucketed.
Qed.

Lemma wipe_parts_invariant (I : StepTokenDelta -> Prop) g d ps :
  (forall d p, I d -> I (wipe_part config inv root g d p).1) ->
  I d -> I (wipe_parts config inv root g d ps).1.
Proof.
  intros Hstep. revert d. induction ps as [|p ps IH]; intros d Hd; [done|]. simpl.
  pose proof (Hstep d p Hd) as H1.
  destruct (wipe_part config inv root g d p) as [d1 b].
  pose proof (IH d1 H1) as H2.
  by destruct (wipe_parts config inv root g d1 ps) as [d2 ps'].
Qed.

Lemma wipe_invariant (I : StepTokenDelta -> Prop) g d ms :
  (forall d p, I d -> I (wipe_part config inv root g d p).1) ->
  I d -> I (wipe config inv root g d ms).1.
Proof.
  intros Hstep. revert d. induction ms as [|m ms IH]; intros d Hd; [done|]. simpl.
  pose proof (wipe_parts_invariant I g d (parts m) Hstep Hd) as H1.
  destruct (wipe_parts config inv root g d (parts m)) as [d1 ps].
  pose proof (IH d1 H1) as H2.
  by destruct (wipe config inv root g d1 ms) as [d2 ms'].
Qed.

Lemma count_invalidated_counters (I : StepTokenDelta -> Prop) g d :
  I d -> (forall d, I d -> I (incr_filesInvalidated d)) ->
  I (count_invalidated inv g d).
Proof.
  intros H0 Hi. unfold count_invalidated.
  apply (foldl_invariant I); [done|]. intros d' k _ Hd. case_match; auto.
Qed.

Lemma attach_invariant (I : StepTokenDelta -> Prop) clock g i a ks :
  (forall d n, I d -> I (incr_filesConsolidated (add_after d "read" n))) ->
  I (att_delta a) -> I (att_delta (foldl (attach root clock g i) a ks)).
Proof.
  intros Hstep. revert a. induction ks as [|k ks IH]; intros a Ha; [done|]. simpl.
  apply IH. unfold attach. destruct (latestByFile g !! k); [|done]. simpl.
  apply Hstep, Ha.
Qed.

End FinalizeDelta.

Lemma finalize_delta_invariant `{Runtime} (I : StepTokenDelta -> Prop)
    clock w config inv :
  I emptyDelta ->
  (forall d, I d -> I (incr_filesInvalidated d)) ->
  (forall g d p,
     I d -> I (Finalize.wipe_part config inv (inferWorktreeRoot w) g d p).1) ->
  (forall d n, I d -> I (incr_filesConsolidated (add_after d "read" n))) ->
  I (Finalize.finalizeEditedFilesForNextStep clock w config inv).1.
Proof.
  intros H0 Hi Hw Ha. unfold Finalize.finalizeEditedFilesForNextStep.
  set (g := Finalize.gather config inv (inferWorktreeRoot w) w).
  assert (I (Finalize.count_invalidated inv g emptyDelta)) as Hc
    by by apply count_invalidated_counters.
  destruct (bool_decide _ && _); [done|].
  pose proof (wipe_invariant config inv (inferWorktreeRoot w) I g _ w (Hw g) Hc)
    as Hwiped.
  destruct (Finalize.wipe config inv (inferWorktreeRoot w) g _ w) as [d1 ms].
  destruct (Finalize.findLastAssistant ms); [|done]. simpl.
  by apply attach_invariant.
Qed.

(** X5.  The consolidation engine never reports more tokens after the pass than
    before it, in total and for reads: the net delta of a consolidation pass is
    never negative, whatever the window, the configuration and the
    invalidation set. *)
Theorem cleanup_never_adds_tokens `{Runtime} (w : list ChatMessage)
    (config : WhitelistConfig) (inv : gset string) :
  let d := (Cleanup.cleanupMessagesForContextJar w config inv).1 in
  tokensAfter d <= tokensBefore d
  /\ readTokensAfter d <= readTokensBefore d
  /\ (0 <= netDelta d)%Z.
Proof.
  simpl.
  assert (saving (Cleanup.cleanupMessagesForContextJar w config inv).1) as [Ht Hr].
  { apply (cleanup_delta_invariant saving).
    - unfold saving. simpl. lia.
    - done.
    - done.
    - intros h s d p. apply sweep_part_saving. }
  unfold netDelta. split_and!; [done|done|lia].
Qed.

(** X6.  In the delta of a consolidation pass the before total is the sum of the
    read and the edit bucket, the after total is the read bucket alone (no
    edit, multiedit or write Part is ever counted as kept), and the invalidated
    tokens are part of the before total. *)
Theorem cleanup_delta_buckets `{Runtime} (w : list ChatMessage)
    (config : WhitelistConfig) (inv : gset string) :
  let d := (Cleanup.cleanupMessagesForContextJar w config inv).1 in
  tokensBefore d = readTokensBefore d + editTokensBefore d
  /\ tokensAfter d = readTokensAfter d
  /\ editTokensAfter d = 0
  /\ invalidatedTokensBefore d <= tokensBefore d.
Proof.
  simpl. apply (cleanup_delta_invariant bucketed).
  - unfold bucketed. simpl. lia.
  - done.
  - done.
  - intros h s d p. apply sweep_part_bucketed.
Qed.

(** X7.  The delta of a finalization pass has the same shape: the before total is
    the sum of the read and the edit bucket, the after total is the read
    bucket (the synthetic reads), the edit bucket after the pass is empty, and
    the invalidated tokens are part of the before total. *)
Theorem finalize_delta_buckets `{Runtime} (clock : nat -> Z) (w : list ChatMessage)
    (config : WhitelistConfig) (inv : gset string) :
  let d := (Finalize.finalizeEditedFilesForNextStep clock w config inv).1 in
  tokensBefore d = readTokensBefore d + editTokensBefore d
  /\ tokensAfter d = readTokensAfter d
  /\ editTokensAfter d = 0
  /\ invalidatedTokensBefore d <= tokensBefore d.
Proof.
  simpl. apply (finalize_delta_invariant bucketed).
  - unfold bucketed. simpl. lia.
  - done.
  - intros g d p. apply wipe_part_bucketed.
  - intros d n Hd. exact (add_after_read_bucketed d n Hd).
Qed.


(** ** Passes that have nothing to do *)

Lemma read_of_operation `{Runtime} root k p :
  read_of root k p = true -> file_operation_of root k p = true.
Proof.
  intros Hr. apply read_of_inv in Hr as (t & st & -> & Hst & Ht & Hres).
  unfold file_operation_of, file_operation, completed, file_of. simpl.
  rewrite Hst, Hres, (isFileTool_read t Ht). simpl.
  by rewrite !bool_decide_eq_true_2 by eauto.
Qed.

Section NothingToConsolidate.
Context {rt : Runtime}.
Variable config : WhitelistConfig.
Variable inv : gset string.
Variable w : list ChatMessage.

Import Cleanup.

Local Abbreviation root := (inferWorktreeRoot w).
Local Abbreviation h := (collect config inv root w).

Lemma collect_filesWithHistory_inv k :
  k ∈ filesWithHistory h ->
  exists p, p ∈ all_parts w /\ file_operation_of root k p = true
    /\ protected config k = false.
Proof.
  rewrite collect_located. revert k.
  apply (foldl_invariant
    (fun h => forall k, k ∈ filesWithHistory h ->
       exists p, p ∈ all_parts w /\ file_operation_of root k p = true
                 /\ protected config k = false)).
  { intros k Hk. by apply elem_of_nil in Hk. }
  intros h0 [r0 p0] Hin IH k.
  assert (p0 ∈ all_parts w) as Hp0.
  { rewrite <- all_parts_located. apply list_elem_of_fmap. by exists (r0, p0). }
  unfold collect_step, collect_part. simpl.
  destruct p0 as [t| |]; [|by apply IH..].
  destruct (isCompletedToolPart t) as [st|] eqn:Hst; [|by apply IH].
  destruct (isFileTool (tool t)) eqn:Hf; [|by apply IH]. simpl.
  destruct (resolved t root) as [k0|] eqn:Hres; [|by apply IH].
  destruct (isFileProtected k0 _ _) eqn:Hprot; [by apply IH|].
  assert (k ∈ set_add k0 (filesWithHistory h0) ->
          exists p, p ∈ all_parts w /\ file_operation_of root k p = true
                    /\ protected config k = false) as Hadd.
  { rewrite elem_of_set_add. intros [->|Hk]; [|by apply IH].
    exists (PTool t). split; [done|]. split; [|done].
    unfold isCompletedToolPart in Hst.
    destruct (state t) as [| |st'|] eqn:Hst'; try done.
    by eapply file_operation_of_intro. }
  repeat case_match; simpl; try apply Hadd.
Qed.

Hypothesis nothing :
  forall p k, p ∈ all_parts w -> file_operation_of root k p = true ->
    protected config k = false -> k ∉ inv /\ usable_read root k p = false.

Lemma nothing_lastRead k : lastReadByFile h !! k = None.
Proof.
  destruct (lastReadByFile h !! k) as [r|] eqn:Hr; [exfalso|done].
  destruct (keeper_exists config inv w k r Hr)
    as (t & st & _ & Hall & Hst & Ht & Hres & _ & Hu & Hprot & _).
  destruct (nothing (PTool t) k Hall) as [_ Hno]; [|done|congruence].
  by apply usable_read_operation.
Qed.

Lemma nothing_history k : k ∈ filesWithHistory h -> k ∉ inv.
Proof.
  intros Hk. apply collect_filesWithHistory_inv in Hk as (p & Hp & Hop & Hprot).
  by destruct (nothing p k Hp Hop Hprot).
Qed.

Lemma nothing_read k : k ∈ filesWithRead h -> k ∉ inv.
Proof.
  intros Hk. apply collect_filesWithRead in Hk as (p & Hp & Hr & Hprot).
  apply read_of_operation in Hr. by destruct (nothing p k Hp Hr Hprot).
Qed.

Lemma nothing_picked :
  pick_keepers inv h w
  = {| window := w; sel_delta := emptyDelta;
       keepCallIDs := []; filesToConsolidate := [] |}.
Proof.
  unfold pick_keepers.
  apply (foldl_invariant
    (fun s => s = {| window := w; sel_delta := emptyDelta;
                     keepCallIDs := []; filesToConsolidate := [] |})); [done|].
  intros s k Hk ->. unfold pick_keeper.
  rewrite (bool_decide_eq_false_2 _ (nothing_read k Hk)).
  by rewrite nothing_lastRead.
Qed.

Lemma nothing_counted d : count_unread_invalidated inv h d = d.
Proof.
  unfold count_unread_invalidated.
  apply (foldl_invariant (fun d' => d' = d)); [done|].
  intros d' k Hk ->.
  rewrite (bool_decide_eq_false_2 _ (nothing_history k Hk)).
  by rewrite andb_false_r.
Qed.

Lemma nothing_swept_part s d p :
  filesToConsolidate s = [] -> p ∈ all_parts w ->
  sweep_part config inv root h s d p = (d, true).
Proof.
  intros Hs Hp. unfold sweep_part.
  destruct p as [t| |]; [|done..].
  destruct (isCompletedToolPart t) as [st|] eqn:Hst; [|done].
  destruct (isFileTool (tool t)) eqn:Hf; [|done]. simpl.
  destruct (resolved t root) as [k|] eqn:Hres; [|done].
  destruct (negb (bool_decide (k ∈ filesWithHistory h))); [done|].
  destruct (isFileProtected k _ _) eqn:Hprot; [done|].
  unfold isCompletedToolPart in Hst.
  destruct (state t) as [| |st'|] eqn:Hst'; try done.
  destruct (nothing (PTool t) k Hp) as [Hinv _]; [by eapply file_operation_of_intro|done|].
  rewrite (bool_decide_eq_false_2 _ Hinv), Hs.
  by rewrite bool_decide_eq_false_2 by apply not_elem_of_nil.
Qed.

Lemma nothing_swept_parts s d ps :
  filesToConsolidate s = [] -> (forall p, p ∈ ps -> p ∈ all_parts w) ->
  sweep_parts config inv root h s d ps = (d, ps).
Proof.
  intros Hs. induction ps as [|p ps IH]; intros Hps; [done|]. simpl.
  rewrite nothing_swept_part by (done || apply Hps; by left).
  rewrite IH; [done|]. intros q Hq. apply Hps. by right.
Qed.

Lemma nothing_swept s d ms :
  filesToConsolidate s = [] -> (forall p, p ∈ all_parts ms -> p ∈ all_parts w) ->
  sweep config inv root h s d ms = (d, ms).
Proof.
  intros Hs. induction ms as [|m ms IH]; intros Hms; [done|]. simpl.
  rewrite nothing_swept_parts; [|done|].
  - rewrite IH; [by rewrite set_parts_id|].
    intros q Hq. apply Hms. rewrite all_parts_cons, elem_of_app. by right.
  - intros q Hq. apply Hms. rewrite all_parts_cons, elem_of_app. by left.
Qed.

End NothingToConsolidate.

(** X8.  A consolidation pass over a window in which no completed file operation
    on a non-protected file is on an invalidated file or is a read with a
    non-empty output (a window of edits and writes only, for one) does
    nothing: the window is returned as it was and the delta is zero. *)
Theorem cleanup_nothing_to_consolidate `{Runtime} (w : list ChatMessage)
    (config : WhitelistConfig) (inv : gset string) :
  (forall p k, p ∈ all_parts w ->
     file_operation_of (inferWorktreeRoot w) k p = true ->
     protected config k = false ->
     k ∉ inv /\ usable_read (inferWorktreeRoot w) k p = false) ->
  Cleanup.cleanupMessagesForContextJar w config inv = (zeroDelta, w).
Proof.
  intros Hnothing. unfold Cleanup.cleanupMessagesForContextJar.
  destruct (Cleanup.filesWithHistory _); [done|].
  rewrite (nothing_picked config inv w Hnothing). simpl.
  rewrite (nothing_counted config inv w Hnothing).
  by apply nothing_swept.
Qed.

Lemma cleanup_nothing_to_consolidate_witness :
  Cleanup.cleanupMessagesForContextJar (rt := posix) edits_only no_protection ∅
  = (zeroDelta, edits_only).
Proof.
  apply (cleanup_nothing_to_consolidate (H := posix)).
  intros p k Hp Hop Hprot. split; [apply not_elem_of_empty|].
  apply list_elem_of_In in Hp. simpl in Hp.
  destruct Hp as [<-|[<-|[]]]; vm_compute; reflexivity.
Defined.

Section NothingToFinalize.
Context {rt : Runtime}.
Variable config : WhitelistConfig.
Variable inv : gset string.
Variable w : list ChatMessage.

Import Finalize.

Local Abbreviation root := (inferWorktreeRoot w).
Local Abbreviation g := (gather config inv root w).

Lemma gather_touched_inv k :
  k ∈ allTouchedFiles g ->
  exists t st, PTool t ∈ all_parts w /\ state t = Completed st
    /\ resolved t root = Some k /\ protected config k = false.
Proof.
  rewrite gather_flat. revert k.
  assert (forall l, (forall p, p ∈ l -> p ∈ all_parts w) ->
    forall k, k ∈ allTouchedFiles (foldl (gather_part config inv root) nothingGathered l) ->
      exists t st, PTool t ∈ all_parts w /\ state t = Completed st
        /\ resolved t root = Some k /\ protected config k = false) as Hgen.
  { intros l Hl.
    apply (foldl_invariant
      (fun g => forall k, k ∈ allTouchedFiles g ->
         exists t st, PTool t ∈ all_parts w /\ state t = Completed st
           /\ resolved t root = Some k /\ protected config k = false)).
    { intros k Hk. by apply elem_of_nil in Hk. }
    intros g0 p Hin IH k. apply Hl in Hin.
    unfold gather_part.
    destruct p as [t| |]; [|by apply IH..].
    unfold isCompletedToolPart.
    destruct (state t) as [| |st|] eqn:Hst; try by apply IH.
    destruct (resolved t root) as [k0|] eqn:Hres; [|by apply IH].
    destruct (isFileProtected k0 _ _) eqn:Hprot; [by apply IH|].
    assert (k ∈ set_add k0 (allTouchedFiles g0) ->
            exists t st, PTool t ∈ all_parts w /\ state t = Completed st
              /\ resolved t root = Some k /\ protected config k = false) as Hadd.
    { rewrite elem_of_set_add. intros [->|Hk]; [|by apply IH]. eauto 10. }
    repeat case_match; simpl; apply Hadd. }
  by apply Hgen.
Qed.

Hypothesis nothing :
  forall p k, p ∈ all_parts w -> completed p = true -> file_of root p = Some k ->
    protected config k = false -> k ∉ inv /\ snapshot_of root k p = false.

Lemma nothing_edited : editedFiles g = [].
Proof.
  destruct (editedFiles g) as [|k ks] eqn:He; [done|exfalso].
  destruct (gather_edited_source config inv root w k) as (q & Hq & Hs & Hprot & _).
  { rewrite He. by left. }
  pose proof Hs as Hs'.
  apply snapshot_of_inv in Hs' as (t & st & -> & Hst & Hres & _).
  destruct (nothing (PTool t) k Hq) as [_ Hno]; try done; [|congruence].
  unfold completed. by rewrite Hst.
Qed.

Lemma nothing_invalidated d : count_invalidated inv g d = d.
Proof.
  unfold count_invalidated.
  apply (foldl_invariant (fun d' => d' = d)); [done|].
  intros d' k Hk ->.
  apply gather_touched_inv in Hk as (t & st & Hall & Hst & Hres & Hprot).
  destruct (nothing (PTool t) k Hall) as [Hinv _]; try done.
  - unfold completed. by rewrite Hst.
  - by rewrite bool_decide_eq_false_2.
Qed.

End NothingToFinalize.

(** X9.  A finalization pass over a window in which no completed tool Part with a
    non-protected path is on an invalidated file or is an edit, multiedit or
    write with recoverable content (a window of reads only, for one) returns
    at once: the window is returned as it was and the delta is zero. *)
Theorem finalize_nothing_to_finalize `{Runtime} (clock : nat -> Z)
    (w : list ChatMessage) (config : WhitelistConfig) (inv : gset string) :
  (forall p k, p ∈ all_parts w -> completed p = true ->
     file_of (inferWorktreeRoot w) p = Some k ->
     protected config k = false ->
     k ∉ inv /\ snapshot_of (inferWorktreeRoot w) k p = false) ->
  Finalize.finalizeEditedFilesForNextStep clock w config inv = (zeroDelta, w).
Proof.
  intros Hnothing. unfold Finalize.finalizeEditedFilesForNextStep.
  rewrite (nothing_edited config inv w Hnothing).
  rewrite (nothing_invalidated config inv w Hnothing). done.
Qed.

Lemma finalize_nothing_to_finalize_witness :
  Finalize.finalizeEditedFilesForNextStep (rt := posix) (fun _ => 0%Z)
    read_without_assistant no_protection ∅
  = (zeroDelta, read_without_assistant).
Proof.
  apply (finalize_nothing_to_finalize (H := posix)).
  intros p k Hp Hc Hf Hprot. split; [apply not_elem_of_empty|].
  apply list_elem_of_In in Hp. simpl in Hp.
  destruct Hp as [<-|[]]. vm_compute. by case_match.
Defined.


(** ** What the keeper shows *)

Lemma filter_snd_last {R A} (P : A -> Prop) `{forall x, Decision (P x)}
    (L : list (R * A)) xs x :
  filter P L.*2 = xs ++ [x] ->
  exists L0 r L', L = L0 ++ (r, x) :: L'
    /\ filter P L0.*2 = xs /\ P x /\ (forall y, y ∈ L' -> ~ P y.2).
Proof.
  revert L. induction xs as [|x0 xs IH]; intros L Hf; simpl in Hf.
  - apply filter_snd_cons in Hf as (L0 & r & L' & -> & H0 & Hx & Hrest).
    exists L0, r, L'. split_and!; try done.
    + apply (filter_none P). intros a Ha. apply list_elem_of_fmap in Ha as (y & -> & Hy).
      by apply H0.
    + exact (filter_snd_nil P L' Hrest).
  - apply filter_snd_cons in Hf as (L0 & r & L' & -> & H0 & Hx & Hrest).
    destruct (IH L' Hrest) as (L1 & r1 & L2 & -> & H1 & Hx1 & H2).
    exists (L0 ++ (r, x0) :: L1), r1, L2. split_and!; try done.
    + by rewrite <- app_assoc.
    + rewrite fmap_app, filter_app, fmap_cons, filter_cons, decide_True by done.
      rewrite H1. rewrite (filter_none P L0.*2); [done|].
      intros a Ha. apply list_elem_of_fmap in Ha as (y & -> & Hy). by apply H0.
Qed.

Section Latest.
Context {rt : Runtime}.
Variable config : WhitelistConfig.
Variable inv : gset string.
Variable root : option string.

Import Cleanup.

(** Pass 1 on a Part that is not a file operation on [k] leaves what is
    recorded for [k]. *)
Lemma collect_part_other r h p k :
  file_operation_of root k p = false ->
  latestByFile (collect_part config inv root r h p) !! k = latestByFile h !! k
  /\ lastReadByFile (collect_part config inv root r h p) !! k
     = lastReadByFile h !! k.
Proof.
  intros Hno. unfold collect_part.
  destruct p as [t| |]; [|done..].
  unfold isCompletedToolPart.
  destruct (state t) as [| |st|] eqn:Hst; try done.
  destruct (isFileTool (tool t)) eqn:Hf; [|done]. simpl.
  destruct (resolved t root) as [k0|] eqn:Hres; [|done].
  destruct (isFileProtected k0 _ _); [done|].
  assert (k0 <> k) as Hne.
  { intros ->. unfold file_operation_of, file_operation, completed, file_of in Hno.
    rewrite Hst, Hf, Hres in Hno. simpl in Hno.
    by rewrite !bool_decide_eq_true_2 in Hno by eauto. }
  repeat case_match; simpl; rewrite ?lookup_insert_ne by done; done.
Qed.

Lemma foldl_collect_other h (L : list (ToolRef * ChatMessagePart)) k :
  (forall y, y ∈ L -> ~ file_operation_of root k y.2) ->
  latestByFile (foldl (collect_step config inv root) h L) !! k = latestByFile h !! k
  /\ lastReadByFile (foldl (collect_step config inv root) h L) !! k
     = lastReadByFile h !! k.
Proof.
  revert h. induction L as [|[r p] L IH]; intros h Hno; [done|]. simpl.
  destruct (IH (collect_step config inv root h (r, p))) as [-> ->].
  { intros y Hy. apply Hno. by right. }
  apply collect_part_other.
  specialize (Hno (r, p) ltac:(by left)). simpl in Hno.
  simpl. destruct (file_operation_of root k p); [by destruct Hno|done].
Qed.

(** Pass 1 on an edit, multiedit or write with recoverable content: the
    content becomes the latest content of the file, as raw text. *)
Lemma collect_part_snapshot r h t k X :
  file_operation_of root k (PTool t) = true -> snapshot_content t = Some X ->
  protected config k = false -> k ∉ inv ->
  let h' := collect_part config inv root r h (PTool t) in
  latestByFile h' !! k = Some {| content := X; contentKind := RawText |}
  /\ lastReadByFile h' !! k = lastReadByFile h !! k.
Proof.
  intros Hop Hc Hprot Hinv. simpl.
  apply file_operation_of_inv in Hop as (t' & st & [= <-] & Hst & Hf & Hres).
  unfold protected in Hprot. unfold snapshot_content in Hc. rewrite Hst in Hc.
  unfold collect_part, isCompletedToolPart. rewrite Hst, Hf, Hres, Hprot. simpl.
  rewrite (bool_decide_eq_false_2 _ Hinv).
  destruct (bool_decide (tool t = "edit") || bool_decide (tool t = "multiedit"))
    eqn:He.
  - assert (tool t <> "read") as Hnr.
    { intros Hr. rewrite Hr in He. done. }
    rewrite (bool_decide_eq_false_2 _ Hnr). simpl. rewrite Hc. simpl.
    by rewrite lookup_insert_eq.
  - destruct (bool_decide (tool t = "write")) eqn:Hw; [|done].
    apply bool_decide_eq_true_1 in Hw. rewrite Hw. simpl.
    rewrite Hc. simpl. by rewrite lookup_insert_eq.
Qed.

(** Whatever pass 1 records as read output is a non-empty string. *)
Lemma collect_read_output_nonempty w k l :
  latestByFile (collect config inv root w) !! k = Some l ->
  contentKind l = ReadOutput -> str_empty (content l) = false.
Proof.
  rewrite collect_located. revert k l.
  apply (foldl_invariant
    (fun h => forall k l, latestByFile h !! k = Some l ->
       contentKind l = ReadOutput -> str_empty (content l) = false)).
  { intros k l. simpl. by rewrite lookup_empty. }
  intros h [r p] _ IH k l. unfold collect_step, collect_part. simpl.
  destruct p as [t| |]; [|by apply IH..].
  destruct (isCompletedToolPart t) as [st|]; [|by apply IH].
  destruct (negb (isFileTool (tool t))); [by apply IH|].
  destruct (resolved t root) as [k0|]; [|by apply IH].
  destruct (isFileProtected k0 _ _); [by apply IH|].
  repeat case_match; simpl; try (by apply IH);
    (destruct (decide (k = k0)) as [->|Hne];
     [rewrite lookup_insert_eq; intros [= <-]; simpl; try done
     |rewrite lookup_insert_ne by done; by apply IH]).
  bool_hyps. by destruct (str_empty (output st)).
Qed.

End Latest.

Lemma renderReadLikeOutput_nonempty `{Runtime} s :
  str_empty (renderReadLikeOutput s) = false.
Proof. done. Qed.

Section SoleKeeper.
Context {rt : Runtime}.
Variable config : WhitelistConfig.
Variable inv : gset string.
Variable w : list ChatMessage.
Hypothesis stable : stable_keys w.
Hypothesis distinct : distinct_read_callIDs w.

Import Cleanup.

Local Abbreviation root := (inferWorktreeRoot w).
Local Abbreviation h := (collect config inv root w).
Local Abbreviation s := (pick_keepers inv h w).
Local Abbreviation keeps := (sweep_keeps config inv root h s).
Local Abbreviation cpart := (consolidated_part root h (filesWithRead h)).

(** The file operations of a consolidated file after the pass: the keeper
    alone, when its call identifier is not empty. *)
Lemma sole_keeper k r0 t0 c :
  lastReadByFile h !! k = Some r0 -> tool_at w r0 = Some t0 ->
  callID t0 = Some c -> c <> "" ->
  filter (fun p => file_operation_of root k p)
    (all_parts (cleanupMessagesForContextJar w config inv).2)
  = [PTool (rewrite_keeper k (latestByFile h !! k) t0)].
Proof.
  intros Hr0 Ht0 Hc Hne.
  destruct (keeper_is_kept config inv w stable k r0 t0 c Hr0 Ht0 Hc Hne)
    as (Hop0 & _ & Hkeep0).
  assert (filesWithHistory h <> []) as Hh.
  { intros Hnil.
    pose proof (collect_lastRead_sets config inv root w k r0 Hr0) as (_ & Hin & _).
    simpl in Hin. rewrite Hnil in Hin. by apply elem_of_nil in Hin. }
  rewrite (cleanup_all_parts config inv w Hh), list_filter_filter.
  rewrite <- (consolidated_part_keeper config inv w k r0 t0 Hr0 Ht0).
  apply (filter_unique _ (fun rp => cpart rp.1 rp.2) (located w) r0 (PTool t0)).
  - apply NoDup_located.
  - by apply tool_at_located.
  - simpl. split; apply Is_true_true; done.
  - intros r x Hin [HQx Hkx]. simpl in *.
    apply Is_true_true in HQx. apply Is_true_true in Hkx.
    eapply (kept_operation_is_keeper config inv w stable distinct k r0 r x); eauto.
Qed.

End SoleKeeper.

(** X2.  When the last completed file operation on a file in the window is an edit,
    multiedit or write whose content [X] can be recovered, and the file has a
    read with a non-empty output before it, the consolidation pass leaves one
    file operation for the file: a read whose output is [X] rendered as a read
    output (numbered lines between the file markers).  The file is neither
    protected nor invalidated, its usable reads carry non-empty call
    identifiers, no two completed reads share one, and the keys of the window
    are fixed points of the path resolver. *)
Theorem keeper_shows_last_snapshot `{Runtime} (w : list ChatMessage)
    (config : WhitelistConfig) (inv : gset string) (k : string)
    (ops : list ChatMessagePart) (e : ToolPart) (X : string) :
  stable_keys w -> distinct_read_callIDs w ->
  protected config k = false -> k ∉ inv ->
  filter (fun p => file_operation_of (inferWorktreeRoot w) k p) (all_parts w)
  = ops ++ [PTool e] ->
  snapshot_content e = Some X ->
  (exists q, q ∈ ops /\ usable_read (inferWorktreeRoot w) k q = true) ->
  (forall q, q ∈ ops -> usable_read (inferWorktreeRoot w) k q = true ->
     exists c, read_callID q = Some c /\ c <> "") ->
  let w' := (Cleanup.cleanupMessagesForContextJar w config inv).2 in
  exists keeper,
    filter (fun p => file_operation_of (inferWorktreeRoot w') k p) (all_parts w')
    = [PTool keeper]
    /\ tool keeper = "read"
    /\ part_output keeper = renderReadLikeOutput X.
Proof.
  intros Hs Hd Hprot Hinv Hops HX (q & Hq & Hu) Hids. simpl.
  rewrite (inferWorktreeRoot_info w) by apply cleanup_info.
  assert (forall p, p ∈ ops -> p ∈ all_parts w) as Hsub.
  { intros p Hp.
    assert (p ∈ filter (fun p => file_operation_of (inferWorktreeRoot w) k p) (all_parts w)) as Hin
      by (rewrite Hops, elem_of_app; by left).
    by apply list_elem_of_filter in Hin as [_ ?]. }
  destruct (collect_has_lastRead config inv (inferWorktreeRoot w) w k q (Hsub q Hq) Hu Hprot Hinv)
    as [r0 Hr0].
  destruct (keeper_exists config inv w k r0 Hr0)
    as (t0 & st0 & Ht0 & Hall0 & Hst0 & Hrd0 & Hres0 & _ & Hu0 & _).
  assert (PTool t0 ∈ ops) as Hin0.
  { assert (PTool t0 ∈ filter (fun p => file_operation_of (inferWorktreeRoot w) k p) (all_parts w))
      as Hin.
    { apply list_elem_of_filter. split; [|done].
      apply Is_true_true. by apply usable_read_operation. }
    rewrite Hops, elem_of_app in Hin. destruct Hin as [?|Hin]; [done|].
    apply list_elem_of_singleton in Hin as [= ->].
    unfold snapshot_content in HX. rewrite Hst0, Hrd0 in HX. done. }
  destruct (Hids _ Hin0 Hu0) as (c & Hc & Hne).
  rewrite (read_callID_read t0 st0 Hst0 Hrd0) in Hc.
  pose proof (sole_keeper config inv w Hs Hd k r0 t0 c Hr0 Ht0 Hc Hne) as Hsole.
  assert (Cleanup.latestByFile (Cleanup.collect config inv (inferWorktreeRoot w) w) !! k
          = Some {| Cleanup.content := X; Cleanup.contentKind := Cleanup.RawText |})
    as Hlatest.
  { rewrite collect_located.
    pose proof Hops as Hops'. rewrite <- all_parts_located in Hops'.
    apply filter_snd_last in Hops' as (L0 & r & L' & HL & _ & Hop & Hrest).
    rewrite HL, foldl_app. simpl.
    destruct (foldl_collect_other config inv (inferWorktreeRoot w)
                (collect_step config inv (inferWorktreeRoot w)
                   (foldl (collect_step config inv (inferWorktreeRoot w)) Cleanup.noHistory L0)
                   (r, PTool e)) L' k Hrest) as [-> _].
    apply Is_true_true in Hop.
    by apply (collect_part_snapshot config inv (inferWorktreeRoot w) r _ e k X). }
  eexists. split; [exact Hsole|].
  unfold Cleanup.rewrite_keeper. rewrite Hst0, Hlatest. simpl.
  split; [done|]. unfold part_output. done.
Qed.

Lemma keeper_shows_last_snapshot_witness :
  let w' := (Cleanup.cleanupMessagesForContextJar (rt := posix) read_then_edit
               no_protection ∅).2 in
  exists keeper,
    filter (fun p => file_operation_of (rt := posix) (inferWorktreeRoot w') "/w/a.ts" p)
      (all_parts w')
    = [PTool keeper]
    /\ tool keeper = "read"
    /\ part_output keeper = renderReadLikeOutput "X".
Proof.
  eapply (keeper_shows_last_snapshot (H := posix) read_then_edit no_protection ∅
            "/w/a.ts" [read_part "call_1" "/w/a.ts" "<file>old</file>"]).
  - apply stable_keys_by_parts. vm_compute. reflexivity.
  - apply NoDup_by_decide. vm_compute. reflexivity.
  - vm_compute. reflexivity.
  - apply not_elem_of_empty.
  - vm_compute. reflexivity.
  - vm_compute. reflexivity.
  - eexists. split; [by left|]. vm_compute. reflexivity.
  - intros q Hq _. apply list_elem_of_singleton in Hq as ->.
    exists "call_1". split; [reflexivity|discriminate].
Defined.


(** ** A second consolidation pass *)

Lemma imap_fixed {A} (f : nat -> A -> A) (l : list A) :
  (forall i x, l !! i = Some x -> f i x = x) -> imap f l = l.
Proof.
  revert f. induction l as [|a l IH]; intros f Hf; [done|]. simpl. f_equal.
  - by apply (Hf 0).
  - apply IH. intros i x Hi. by apply (Hf (S i)).
Qed.

Lemma rewrite_keeper_twice `{Runtime} k latest t st :
  state t = Completed st ->
  Cleanup.rewrite_keeper k
    (Some {| Cleanup.content := part_output (Cleanup.rewrite_keeper k latest t);
             Cleanup.contentKind := Cleanup.ReadOutput |})
    (Cleanup.rewrite_keeper k latest t)
  = Cleanup.rewrite_keeper k latest t.
Proof.
  intros Hst. unfold Cleanup.rewrite_keeper, part_output. rewrite Hst. simpl.
  by rewrite (obj_set_same "filePath" (JStr k)) by apply assoc_obj_set.
Qed.

Section FixedPoint.
Context {rt : Runtime}.
Variable config : WhitelistConfig.
Variable inv : gset string.
Variable v : list ChatMessage.

Import Cleanup.

Local Abbreviation root := (inferWorktreeRoot v).
Local Abbreviation h := (collect config inv root v).
Local Abbreviation s := (pick_keepers inv h v).
Local Abbreviation keeps := (sweep_keeps config inv root h s).

Hypothesis no_invalidated :
  forall p k, p ∈ all_parts v -> file_operation_of root k p = true ->
    protected config k = false -> k ∉ inv.

Hypothesis keepers_settled :
  forall k r t, lastReadByFile h !! k = Some r -> tool_at v r = Some t ->
    rewrite_keeper k (latestByFile h !! k) t = t
    /\ (exists c, callID t = Some c /\ c <> "")
    /\ (forall p, p ∈ all_parts v -> file_operation_of root k p = true ->
          p = PTool t).

Lemma settled_window : consolidated_window root h (filesWithRead h) v = v.
Proof.
  unfold consolidated_window. apply imap_fixed. intros i m Hm.
  rewrite imap_fixed; [apply set_parts_id|].
  intros j p Hp.
  assert (part_at v (i, j) = Some p) as Hat by (apply part_at_lookup; eauto).
  destruct (consolidated_part_cases config inv v (i, j) p Hat)
    as [?|(k & t & st & -> & Hlast & _ & _ & _ & _ & _ & _ & _ & ->)]; [done|].
  f_equal. apply (keepers_settled k (i, j) t Hlast).
  unfold tool_at. by rewrite Hat.
Qed.

Lemma settled_keeps p : p ∈ all_parts v -> keeps p = true.
Proof.
  intros Hp. destruct (keeps p) eqn:Hk; [done|exfalso].
  destruct (sweep_keeps_false config inv root v _ p Hk)
    as (t & st & k & -> & Hst & Hf & Hres & Hh & Hprot & Hcase).
  assert (file_operation_of root k (PTool t) = true) as Hop
    by (by eapply file_operation_of_intro).
  destruct Hcase as [Hinv|(Hinv & Hcons & Hnot)].
  - by apply (no_invalidated (PTool t) k).
  - apply (pick_keepers_spec config inv root v) in Hcons as [r Hr].
    destruct (keeper_exists config inv v k r Hr)
      as (t' & st' & Ht' & Hall' & Hst' & Hrd' & _).
    destruct (keepers_settled k r t' Hr Ht') as (_ & (c & Hc & Hne) & Hsole).
    assert (PTool t = PTool t') as [= ->] by (by apply Hsole).
    apply Hnot. split; [done|]. exists c. split_and!; [done|done|].
    apply (pick_keepers_spec config inv root v). exists k, r, t'.
    split_and!; [done|done|]. by rewrite Hc.
Qed.

Lemma settled_cleanup_window : (cleanupMessagesForContextJar v config inv).2 = v.
Proof.
  rewrite cleanup_window. destruct (filesWithHistory h) as [|k0 ks]; [done|].
  rewrite settled_window. apply fmap_fixed. intros m Hm.
  rewrite filter_all; [apply set_parts_id|].
  intros p Hp. apply Is_true_true, settled_keeps.
  apply list_elem_of_lookup in Hm as [i Hm]. apply list_elem_of_lookup in Hp as [j Hp].
  by eapply elem_of_all_parts.
Qed.

Lemma kept_costs p :
  keeps p = true ->
  after_cost config inv root h s p = before_cost config inv root h s p.
Proof.
  unfold sweep_keeps, before_cost, after_cost, sweep_part.
  destruct p as [t| |]; [|done..].
  destruct (isCompletedToolPart t); [|done].
  destruct (negb (isFileTool (tool t))); [done|].
  destruct (resolved t root) as [k|]; [|done].
  destruct (negb (bool_decide (k ∈ filesWithHistory h))); [done|].
  destruct (isFileProtected k _ _); [done|].
  destruct (bool_decide (k ∈ inv)); [done|].
  destruct (negb (bool_decide (k ∈ filesToConsolidate s))); [done|].
  destruct (bool_decide (tool t = "read") && _); [|done].
  intros _. done.
Qed.

Lemma settled_totals :
  tokensAfter (cleanupMessagesForContextJar v config inv).1
  = tokensBefore (cleanupMessagesForContextJar v config inv).1.
Proof.
  unfold cleanupMessagesForContextJar.
  destruct (filesWithHistory h) as [|k0 ks]; [done|].
  destruct (sweep_tokens config inv root h s
              (count_unread_invalidated inv h (sel_delta s)) (window s)) as [-> ->].
  destruct (count_unread_invalidated_tokens inv h (sel_delta s)) as [-> ->].
  destruct (pick_keepers_tokens inv h v) as [-> ->].
  rewrite (proj1 (pick_keepers_spec config inv root v)), settled_window.
  do 2 f_equal. apply list_fmap_ext. intros i p Hp.
  apply kept_costs, settled_keeps. by eapply list_elem_of_lookup_2.
Qed.

End FixedPoint.

Section Idempotent.
Context {rt : Runtime}.
Variable config : WhitelistConfig.
Variable inv : gset string.
Variable w : list ChatMessage.

Import Cleanup.

Local Abbreviation root := (inferWorktreeRoot w).
Local Abbreviation w1 := ((cleanupMessagesForContextJar w config inv).2).
Local Abbreviation h := (collect config inv root w).
Local Abbreviation h1 := (collect config inv root w1).

Hypothesis stable : stable_keys w.
Hypothesis distinct : distinct_read_callIDs w.
Hypothesis ids :
  forall q k, q ∈ all_parts w -> usable_read root k q = true ->
    protected config k = false -> k ∉ inv ->
    exists c, read_callID q = Some c /\ c <> "".

Lemma root_after : inferWorktreeRoot w1 = root.
Proof. apply inferWorktreeRoot_info, cleanup_info. Qed.

Lemma after_origin p :
  p ∈ all_parts w1 ->
  p ∈ all_parts w
  \/ exists k r t, lastReadByFile h !! k = Some r /\ tool_at w r = Some t
       /\ PTool t ∈ all_parts w /\ resolved t root = Some k
       /\ p = PTool (rewrite_keeper k (latestByFile h !! k) t).
Proof.
  intros Hp. destruct (filesWithHistory h) as [|k0 ks] eqn:Hh.
  - left. rewrite cleanup_window in Hp. by rewrite Hh in Hp.
  - rewrite cleanup_all_parts in Hp by (by rewrite Hh).
    apply list_elem_of_filter in Hp as [_ Hp].
    apply list_elem_of_fmap in Hp as ([r x] & -> & Hin). simpl.
    pose proof Hin as Hat. apply elem_of_located in Hat.
    destruct (consolidated_part_cases config inv w r x Hat)
      as [->|(k & t & st & -> & Hlast & _ & _ & Hres & _ & _ & Hall & _ & ->)].
    + left. rewrite <- all_parts_located. apply list_elem_of_fmap. by exists (r, x).
    + right. exists k, r, t. split_and!; try done. unfold tool_at. by rewrite Hat.
Qed.

Lemma after_usable_consolidated k t1 :
  PTool t1 ∈ all_parts w1 -> usable_read root k (PTool t1) = true ->
  protected config k = false -> k ∉ inv ->
  is_Some (lastReadByFile h !! k).
Proof.
  intros Hin Hu Hprot Hinv.
  destruct (after_origin _ Hin) as [Hw|(k' & r & t & Hlast & Ht & Hall & Hres & Heq)].
  - by eapply collect_has_lastRead.
  - injection Heq as ->.
    destruct (keeper_exists config inv w k' r Hlast)
      as (t' & st & Ht' & _ & Hst & _).
    assert (t' = t) as -> by congruence.
    destruct (stable_keys_elem w (PTool t) k' stable Hall Hres) as [Hn Hne].
    pose proof (resolved_rewrite_keeper root t st k' (latestByFile h !! k') Hst Hn Hne)
      as Hres'.
    apply usable_read_inv in Hu as (t2 & st2 & [= <-] & _ & _ & Hres2 & _).
    assert (k' = k) as -> by congruence. eauto.
Qed.

Lemma after_sole_keeper k :
  is_Some (lastReadByFile h !! k) ->
  exists t0 st0 c, state t0 = Completed st0 /\ callID t0 = Some c /\ c <> ""
    /\ filter (fun p => file_operation_of root k p) (all_parts w1)
       = [PTool (rewrite_keeper k (latestByFile h !! k) t0)].
Proof.
  intros [r0 Hr0].
  destruct (keeper_exists config inv w k r0 Hr0)
    as (t0 & st0 & Ht0 & Hall0 & Hst0 & Hrd0 & Hres0 & _ & Hu0 & Hprot & Hinv).
  destruct (ids _ k Hall0 Hu0 Hprot Hinv) as (c & Hc & Hne).
  rewrite (read_callID_read t0 st0 Hst0 Hrd0) in Hc.
  exists t0, st0, c. split_and!; try done.
  by apply (sole_keeper config inv w stable distinct k r0 t0 c).
Qed.

Lemma after_latest k keeper :
  filter (fun p => file_operation_of root k p) (all_parts w1) = [PTool keeper] ->
  usable_read root k (PTool keeper) = true ->
  protected config k = false -> k ∉ inv ->
  latestByFile h1 !! k
  = Some {| content := part_output keeper; contentKind := ReadOutput |}.
Proof.
  intros Hf Hu Hprot Hinv. rewrite collect_located.
  rewrite <- all_parts_located in Hf.
  apply filter_snd_cons in Hf as (L0 & r & L' & -> & _ & _ & Hrest).
  rewrite foldl_app. simpl.
  destruct (foldl_collect_other config inv root
              (collect_step config inv root
                 (foldl (collect_step config inv root) noHistory L0)
                 (r, PTool keeper)) L' k) as [-> _].
  { exact (filter_snd_nil _ L' Hrest). }
  exact (proj1 (proj2 (collect_part_usable_read config inv root r _ keeper k
                         Hu Hprot Hinv))).
Qed.

Lemma after_no_invalidated p k :
  p ∈ all_parts w1 -> file_operation_of root k p = true ->
  protected config k = false -> k ∉ inv.
Proof.
  intros Hp Hop Hprot Hinv.
  by apply (cleanup_wipes_invalidated config inv w stable k p).
Qed.

Lemma after_keepers_settled k r t :
  lastReadByFile h1 !! k = Some r -> tool_at w1 r = Some t ->
  rewrite_keeper k (latestByFile h1 !! k) t = t
  /\ (exists c, callID t = Some c /\ c <> "")
  /\ (forall p, p ∈ all_parts w1 -> file_operation_of root k p = true ->
        p = PTool t).
Proof.
  intros Hr Ht.
  pose proof (keeper_exists config inv w1 k r) as Hex.
  rewrite root_after in Hex.
  destruct (Hex Hr) as (t' & st & Ht' & Hall & Hst & Hrd & Hres & _ & Hu & Hprot & Hinv).
  assert (t' = t) as -> by congruence.
  destruct (after_sole_keeper k) as (t0 & st0 & c & Hst0 & Hc & Hne & Hsole).
  { by eapply after_usable_consolidated. }
  assert (PTool t ∈ filter (fun p => file_operation_of root k p) (all_parts w1))
    as Hin.
  { apply list_elem_of_filter. split; [|done].
    apply Is_true_true. by apply usable_read_operation. }
  rewrite Hsole in Hin. apply list_elem_of_singleton in Hin as [= ->].
  split_and!.
  - rewrite (after_latest k _ Hsole Hu Hprot Hinv).
    by apply (rewrite_keeper_twice k _ t0 st0).
  - exists c. split; [|done].
    destruct (rewrite_keeper_fields k (latestByFile h !! k) t0 st0 Hst0)
      as (st' & _ & _ & ->). done.
  - intros p Hp Hop.
    assert (p ∈ filter (fun p => file_operation_of root k p) (all_parts w1)) as Hin'.
    { apply list_elem_of_filter. split; [by apply Is_true_true|done]. }
    rewrite Hsole in Hin'. by apply list_elem_of_singleton in Hin'.
Qed.

End Idempotent.

(** X1.  A second consolidation pass changes nothing.  When the keys of the window
    are fixed points of the path resolver, no two completed reads share a call
    identifier, and the reads with a non-empty output of the files that are
    neither protected nor invalidated carry a non-empty call identifier, the
    window that one pass leaves is left as it is by the next pass, which
    reports as many tokens after as before. *)
Theorem cleanup_idempotent `{Runtime} (w : list ChatMessage)
    (config : WhitelistConfig) (inv : gset string) :
  stable_keys w -> distinct_read_callIDs w ->
  (forall q k, q ∈ all_parts w -> usable_read (inferWorktreeRoot w) k q = true ->
     protected config k = false -> k ∉ inv ->
     exists c, read_callID q = Some c /\ c <> "") ->
  let first := Cleanup.cleanupMessagesForContextJar w config inv in
  let second := Cleanup.cleanupMessagesForContextJar first.2 config inv in
  second.2 = first.2 /\ tokensAfter second.1 = tokensBefore second.1.
Proof.
  intros Hs Hd Hids. simpl.
  assert (forall p k,
    p ∈ all_parts (Cleanup.cleanupMessagesForContextJar w config inv).2 ->
    file_operation_of
      (inferWorktreeRoot (Cleanup.cleanupMessagesForContextJar w config inv).2) k p
    = true ->
    protected config k = false -> k ∉ inv) as H1.
  { intros p k. rewrite root_after. by apply after_no_invalidated. }
  split.
  - apply settled_cleanup_window; [exact H1|].
    intros k r t. rewrite root_after. by apply after_keepers_settled.
  - apply settled_totals; [exact H1|].
    intros k r t. rewrite root_after. by apply after_keepers_settled.
Qed.

Lemma cleanup_idempotent_witness :
  let first := Cleanup.cleanupMessagesForContextJar (rt := posix) read_edit_read
                 no_protection ∅ in
  let second := Cleanup.cleanupMessagesForContextJar (rt := posix) first.2
                  no_protection ∅ in
  second.2 = first.2 /\ tokensAfter second.1 = tokensBefore second.1.
Proof.
  apply (cleanup_idempotent (H := posix) read_edit_read no_protection ∅).
  - apply stable_keys_by_parts. vm_compute. reflexivity.
  - apply NoDup_by_decide. vm_compute. reflexivity.
  - intros q k Hin Hu _ _. apply list_elem_of_In in Hin. simpl in Hin.
    destruct Hin as [<-|[<-|[<-|[<-|[<-|[]]]]]]; try discriminate Hu.
    + exists "call_1". split; [reflexivity|discriminate].
    + exists "call_3". split; [reflexivity|discriminate].
Defined.


(** ** Lines of text *)

Lemma append_cons x (a b : string) : String x a +:+ b = String x (a +:+ b).
Proof. reflexivity. Qed.

Lemma append_nil (b : string) : "" +:+ b = b.
Proof. reflexivity. Qed.

Lemma append_assoc' (a b c : string) : (a +:+ b) +:+ c = a +:+ (b +:+ c).
Proof.
  induction a as [|x a IH]; [done|]. rewrite !append_cons. by rewrite IH.
Qed.

Lemma has_char_app c s t : has_char c (s +:+ t) = has_char c s || has_char c t.
Proof.
  induction s as [|a s IH]; [done|]. rewrite append_cons. simpl.
  rewrite IH. by rewrite orb_assoc.
Qed.

Lemma split_lines_one s : has_char LF s = false -> split_lines s = [s].
Proof.
  induction s as [|a s IH]; simpl; [done|]. intros Hs.
  apply orb_false_iff in Hs as [Ha Hs]. rewrite Ha, (IH Hs). done.
Qed.

Lemma split_lines_app s t :
  has_char LF s = false -> split_lines (s +:+ String LF t) = s :: split_lines t.
Proof.
  induction s as [|a s IH].
  - intros _. by rewrite append_nil.
  - intros Hs. simpl in Hs. apply orb_false_iff in Hs as [Ha Hs].
    rewrite append_cons. simpl. by rewrite Ha, (IH Hs).
Qed.

Lemma split_lines_nonempty s : split_lines s <> [].
Proof.
  induction s as [|a s IH]; simpl; [done|].
  case_bool_decide; [done|]. by destruct (split_lines s).
Qed.

Lemma split_lines_no_LF s : Forall (fun l => has_char LF l = false) (split_lines s).
Proof.
  induction s as [|a s IH]; simpl.
  - by apply Forall_singleton.
  - case_bool_decide as Ha.
    + by apply Forall_cons.
    + destruct (split_lines s) as [|first others]; simpl.
      * apply Forall_singleton. simpl. by rewrite bool_decide_eq_false_2.
      * apply Forall_cons in IH as [H1 H2]. apply Forall_cons. split; [|done].
        simpl. by rewrite bool_decide_eq_false_2.
Qed.

(** Splitting at the newlines undoes joining with newlines, for pieces that
    hold no newline. *)
Lemma split_join_lines ls :
  ls <> [] -> Forall (fun l => has_char LF l = false) ls ->
  split_lines (join_lines ls) = ls.
Proof.
  induction ls as [|l ls IH]; [done|]. intros _ Hls.
  apply Forall_cons in Hls as [Hl Hls].
  destruct ls as [|l' ls]; simpl.
  - by apply split_lines_one.
  - change (str1 LF +:+ ?x) with (String LF x).
    rewrite split_lines_app by done. f_equal. by apply IH.
Qed.

Lemma join_split_lines s : join_lines (split_lines s) = s.
Proof.
  induction s as [|a s IH]; simpl; [done|].
  case_bool_decide as Ha.
  - subst a. pose proof (split_lines_nonempty s) as Hne.
    destruct (split_lines s) as [|l ls] eqn:Hs; [done|].
    simpl in *. by rewrite IH.
  - pose proof (split_lines_nonempty s) as Hne.
    destruct (split_lines s) as [|l ls] eqn:Hs; [done|].
    rewrite <- IH. destruct ls; simpl; done.
Qed.

Lemma string_of_uint_no_LF d : has_char LF (NilEmpty.string_of_uint d) = false.
Proof. induction d; simpl; try done. Qed.

Lemma toString_no_LF n : has_char LF (toString n) = false.
Proof. apply string_of_uint_no_LF. Qed.

Lemma zeros_no_LF n : has_char LF (zeros n) = false.
Proof. induction n as [|n IH]; simpl; [done|]. done. Qed.

Lemma padStart0_no_LF width s :
  has_char LF s = false -> has_char LF (padStart0 width s) = false.
Proof. intros Hs. unfold padStart0. by rewrite has_char_app, zeros_no_LF, Hs. Qed.

Lemma split_render_lines `{Runtime} i lines rest :
  Forall (fun l => has_char LF l = false) lines ->
  split_lines (render_lines i lines +:+ rest)
  = imap (fun j line => padStart0 5 (toString (i + j + 1)) +:+ "| " +:+ line) lines
    ++ split_lines rest.
Proof.
  revert i. induction lines as [|line lines IH]; intros i Hls; [done|].
  apply Forall_cons in Hls as [Hl Hls]. simpl.
  rewrite !append_assoc'.
  change (String "|" (String " " ?x)) with ("| " +:+ x).
  rewrite <- (append_assoc' "| " line), <- append_assoc'.
  change (str1 LF +:+ ?x) with (String LF x).
  rewrite split_lines_app.
  - rewrite Nat.add_0_r. f_equal. rewrite IH by done. f_equal.
    apply imap_ext. intros j l _. simpl. do 3 f_equal. lia.
  - rewrite !has_char_app, padStart0_no_LF by apply toString_no_LF.
    simpl. by rewrite Hl.
Qed.

(** X18.  The rendering of a text, split at its newlines: the opening marker, one
    line per line of the text (carriage-return line-feed pairs counting as one
    newline), each with its number from 1 padded with zeros to five digits,
    an empty line, the footer giving the number of lines, and the closing
    marker. *)
Theorem rendering_lines `{Runtime} (rawContent : string) :
  let lines := split_lines (normalizeNewlines rawContent) in
  split_lines (renderReadLikeOutput rawContent)
  = "<file>"
    :: imap (fun i line => padStart0 5 (toString (i + 1)) +:+ "| " +:+ line) lines
    ++ [""; "(End of file - total " +:+ toString (length lines) +:+ " lines)";
        "</file>"].
Proof.
  cbv zeta. set (lines := split_lines (normalizeNewlines rawContent)).
  assert (renderReadLikeOutput rawContent
          = "<file>" +:+ String LF
              (render_lines 0 lines +:+ String LF
                 (("(End of file - total " +:+ toString (length lines) +:+ " lines)")
                  +:+ String LF "</file>"))) as ->.
  { unfold renderReadLikeOutput. fold lines. unfold str1.
    rewrite !append_assoc', !append_cons, !append_nil.
    rewrite ?append_assoc', ?append_cons, ?append_nil. done. }
  rewrite split_lines_app by done. f_equal.
  rewrite split_render_lines by apply split_lines_no_LF. f_equal.
  rewrite <- (append_nil (String LF _)).
  rewrite split_lines_app by done. f_equal.
  rewrite split_lines_app; [done|].
  rewrite !has_char_app, toString_no_LF. done.
Qed.

(** X19.  The preview that a synthetic read carries in its metadata holds the first
    twenty lines of its output and no more. *)
Theorem preview_lines (output : string) :
  split_lines (Finalize.preview output) = take 20 (split_lines output).
Proof.
  unfold Finalize.preview. apply split_join_lines.
  - pose proof (split_lines_nonempty output). by destruct (split_lines output).
  - apply Forall_take, split_lines_no_LF.
Qed.

(** ** The call identifier of a synthetic read *)

Lemma sanitize_label_chars label : all_chars is_label_char (sanitize_label label) = true.
Proof.
  induction label as [|a label IH]; simpl; [done|].
  rewrite IH, andb_true_r. by destruct (is_label_char a) eqn:Ha.
Qed.

Lemma sanitize_label_length label :
  String.length (sanitize_label label) = String.length label.
Proof. induction label as [|a label IH]; simpl; [done|]. by rewrite IH. Qed.

Lemma sanitize_label_fixed label :
  all_chars is_label_char label = true -> sanitize_label label = label.
Proof.
  induction label as [|a label IH]; simpl; [done|]. intros Hl.
  apply andb_prop in Hl as [Ha Hl]. by rewrite Ha, IH.
Qed.

(** X25.  The call identifier of a synthetic read is the fixed prefix followed by
    the label with every character outside letters, digits, underscore and
    hyphen replaced by an underscore: as long as the label, made of those
    characters only, and the label itself when the label has no other
    character. *)
Theorem synthetic_callID `{Runtime} (filePath output label : string) (now : Z) :
  exists suffix,
    callID (Finalize.makeSyntheticReadPart filePath output label now)
    = Some ("context-jar-final-read-" +:+ suffix)
    /\ all_chars is_label_char suffix = true
    /\ String.length suffix = String.length label
    /\ (all_chars is_label_char label = true -> suffix = label).
Proof.
  exists (sanitize_label label). split_and!; [done|..].
  - apply sanitize_label_chars.
  - apply sanitize_label_length.
  - apply sanitize_label_fixed.
Qed.


(** ** Patterns *)

Lemma glob_test_star pattern text :
  glob_test (String (ch 42) pattern) text
  = glob_test pattern text
    || match text with
       | String a text' => regex_dot a && glob_test (String (ch 42) pattern) text'
       | EmptyString => false
       end.
Proof. by destruct text. Qed.

Lemma glob_test_literal_char c pattern text :
  glob_literal c = true ->
  glob_test (String c pattern) text
  = match text with
    | String a text' => bool_decide (a = c) && glob_test pattern text'
    | EmptyString => false
    end.
Proof.
  unfold glob_literal. intros Hc. apply negb_true_iff, orb_false_iff in Hc as [H1 H2].
  simpl. by rewrite H1, H2.
Qed.

Lemma glob_test_literal pattern text :
  all_chars glob_literal pattern = true ->
  glob_test pattern text = bool_decide (text = pattern).
Proof.
  revert text. induction pattern as [|c pattern IH]; intros text Hp.
  - by destruct text.
  - simpl in Hp. apply andb_prop in Hp as [Hc Hp].
    rewrite glob_test_literal_char by done.
    destruct text as [|a text]; [done|]. rewrite IH by done.
    repeat case_bool_decide; simplify_eq; done.
Qed.

(** X21.  A pattern without star or question mark matches one text only: itself.
    Every character that a regular expression would read as syntax is
    escaped. *)
Theorem literal_pattern_matches_itself (pattern text : string) :
  all_chars glob_literal pattern = true ->
  glob_test pattern text = true <-> text = pattern.
Proof.
  intros Hp. rewrite glob_test_literal by done. apply bool_decide_eq_true.
Qed.

Lemma literal_pattern_matches_itself_witness :
  glob_test "a+b(1).[x]" "a+b(1).[x]" = true <-> "a+b(1).[x]" = "a+b(1).[x]".
Proof.
  apply literal_pattern_matches_itself. vm_compute. reflexivity.
Defined.

(** X20.  A star followed by literal characters matches the texts that end with
    those characters and have no line terminator before them: the star does
    not run over a line feed or a carriage return. *)
Theorem star_suffix_pattern (suffix text : string) :
  all_chars glob_literal suffix = true ->
  glob_test (String (ch 42) suffix) text = true
  <-> exists before, text = before +:+ suffix /\ all_chars regex_dot before = true.
Proof.
  intros Hs. split.
  - induction text as [|a text IH]; rewrite glob_test_star.
    + rewrite orb_false_r, glob_test_literal by done.
      intros Ht. apply bool_decide_eq_true_1 in Ht. by exists "".
    + intros Ht. apply orb_prop in Ht as [Ht|Ht].
      * rewrite glob_test_literal in Ht by done.
        apply bool_decide_eq_true_1 in Ht. by exists "".
      * apply andb_prop in Ht as [Ha Ht].
        destruct (IH Ht) as (before & -> & Hb).
        exists (String a before). split; [done|]. simpl. by rewrite Ha, Hb.
  - intros (before & -> & Hb). induction before as [|a before IH].
    + rewrite append_nil, glob_test_star, glob_test_literal by done.
      by rewrite bool_decide_eq_true_2.
    + simpl in Hb. apply andb_prop in Hb as [Ha Hb].
      rewrite append_cons, glob_test_star, Ha, (IH Hb). by rewrite orb_true_r.
Qed.

Lemma star_suffix_pattern_witness :
  glob_test "*.json" "/w/package.json" = true
  <-> exists before, "/w/package.json" = before +:+ ".json"
        /\ all_chars regex_dot before = true.
Proof.
  apply (star_suffix_pattern ".json"). vm_compute. reflexivity.
Defined.

(** ** The worktree root *)

(** X22.  The worktree root is the root named by the last message that names one:
    messages after it name none, and a window none of whose messages names a
    root has no worktree root. *)
Theorem inferWorktreeRoot_last (messages : list ChatMessage) :
  match inferWorktreeRoot messages with
  | Some r =>
      r <> ""
      /\ exists before m after,
           messages = before ++ m :: after
           /\ path (info m) ≫= root = Some r
           /\ Forall (fun m' => names_root m' = false) after
  | None => Forall (fun m => names_root m = false) messages
  end.
Proof.
  induction messages as [|m messages IH]; simpl; [done|].
  destruct (inferWorktreeRoot messages) as [r|].
  - destruct IH as (Hne & before & m0 & after & -> & Hr & Hafter).
    split; [done|]. exists (m :: before), m0, after. done.
  - unfold names_root in *.
    destruct (path (info m) ≫= root) as [r|] eqn:Hr.
    + destruct (str_empty r) eqn:He.
      * apply Forall_cons. split; [|done]. by rewrite Hr, He.
      * split; [by destruct r|]. exists [], m, messages. done.
    + apply Forall_cons. split; [|done]. by rewrite Hr.
Qed.

(** ** Normalized paths *)

Lemma trimStart_ws a s : is_ws a = true -> trimStart (String a s) = trimStart s.
Proof. intros Ha. simpl. by rewrite Ha. Qed.

Lemma trimEnd_app_ws s a :
  is_ws a = true -> trimEnd (s +:+ str1 a) = trimEnd s.
Proof.
  intros Ha. induction s as [|b s IH]; simpl.
  - by rewrite Ha.
  - by rewrite IH.
Qed.

Lemma trimStart_app_nonempty s t :
  str_empty (trimStart s) = false -> trimStart (s +:+ t) = trimStart s +:+ t.
Proof.
  induction s as [|a s IH]; simpl; [done|].
  destruct (is_ws a); [apply IH|done].
Qed.

Lemma trim_padding_start a s : is_ws a = true -> trim (String a s) = trim s.
Proof. intros Ha. unfold trim. by rewrite trimStart_ws. Qed.

Lemma trim_padding_end s a :
  is_ws a = true -> str_empty (trim s) = false -> trim (s +:+ str1 a) = trim s.
Proof.
  intros Ha Hs. unfold trim in *.
  assert (str_empty (trimStart s) = false) as Hne.
  { destruct (trimStart s); [done|done]. }
  rewrite trimStart_app_nonempty by done. by apply trimEnd_app_ws.
Qed.

(** X23.  White space around a path does not change the file it names: a path that
    is not blank resolves to the same key with a white-space character put
    before it or after it. *)
Theorem normalizeFilePath_padding `{Runtime} (filePath : string) (a : ascii)
    (worktreeRoot : option string) :
  is_ws a = true -> str_empty (trim filePath) = false ->
  normalizeFilePath (String a filePath) worktreeRoot
  = normalizeFilePath filePath worktreeRoot
  /\ normalizeFilePath (filePath +:+ str1 a) worktreeRoot
     = normalizeFilePath filePath worktreeRoot.
Proof.
  intros Ha Hs. unfold normalizeFilePath.
  rewrite trim_padding_start, trim_padding_end by done.
  assert (str_empty filePath = false) as Hne by (by destruct filePath).
  rewrite Hne. split; [done|]. by destruct filePath.
Qed.

Lemma normalizeFilePath_padding_witness :
  normalizeFilePath (rt := posix) (String (ch 32) "/w/a.ts") (Some "/w")
  = normalizeFilePath (rt := posix) "/w/a.ts" (Some "/w")
  /\ normalizeFilePath (rt := posix) ("/w/a.ts" +:+ str1 (ch 32)) (Some "/w")
     = normalizeFilePath (rt := posix) "/w/a.ts" (Some "/w").
Proof.
  apply (normalizeFilePath_padding (H := posix)); vm_compute; reflexivity.
Defined.


(** ** The stats tracker *)

Lemma shouldReportOnIdle_lookup sid (store : StatsStore) stats :
  store !! sid = Some stats ->
  shouldReportOnIdle sid store
  = match lastReportedAt stats with
    | None => true
    | Some reported =>
        if (reported =? 0)%Z then true else (reported <? lastUpdatedAt stats)%Z
    end.
Proof. intros Hs. unfold shouldReportOnIdle. by rewrite Hs. Qed.

(** X17.  A session is reported once per activity.  After a step is recorded at
    time [now] and reported at a later time [t] (not zero), the session has
    nothing to report; a step recorded afterwards at time [now'] makes it
    reportable again exactly when [now'] is later than [t]: a step recorded in
    the millisecond of the report is not reported until another step
    follows.  A session recorded for the first time is reportable. *)
Theorem report_once_per_activity (sid : string) (d d' : StepTokenDelta)
    (now t now' : Z) (store : StatsStore) :
  (t <> 0)%Z -> (now <= t)%Z ->
  let recorded := (record sid d now store).1 in
  let reported := markReported sid t recorded in
  let again := (record sid d' now' reported).1 in
  (store !! sid = None -> shouldReportOnIdle sid recorded = true)
  /\ shouldReportOnIdle sid reported = false
  /\ shouldReportOnIdle sid again = bool_decide (t < now')%Z.
Proof.
  intros Ht Hnow. simpl. split_and!.
  - intros Hnone. unfold record. simpl.
    erewrite shouldReportOnIdle_lookup by apply lookup_insert_eq.
    simpl. by rewrite Hnone.
  - unfold markReported, record. simpl. rewrite lookup_insert_eq.
    erewrite shouldReportOnIdle_lookup by apply lookup_insert_eq. simpl.
    rewrite (proj2 (Z.eqb_neq t 0) Ht). apply Z.ltb_ge. done.
  - unfold markReported, record. simpl. rewrite lookup_insert_eq.
    erewrite shouldReportOnIdle_lookup by apply lookup_insert_eq. simpl.
    rewrite lookup_insert_eq. simpl.
    rewrite (proj2 (Z.eqb_neq t 0) Ht).
    case_bool_decide; [by apply Z.ltb_lt|by apply Z.ltb_ge; lia].
Qed.

Lemma report_once_per_activity_witness :
  let recorded := (record "ses_1" zeroDelta 10 ∅).1 in
  let reported := markReported "ses_1" 20 recorded in
  let again := (record "ses_1" zeroDelta 20 reported).1 in
  ((∅ : StatsStore) !! "ses_1" = None -> shouldReportOnIdle "ses_1" recorded = true)
  /\ shouldReportOnIdle "ses_1" reported = false
  /\ shouldReportOnIdle "ses_1" again = bool_decide (20 < 20)%Z.
Proof.
  apply (report_once_per_activity "ses_1" zeroDelta zeroDelta 10 20 20 ∅); lia.
Defined.


(** ** The invalidation tracker *)

Lemma getInvalidatedFiles_addInvalidated parent paths store sid :
  getInvalidatedFiles (Some sid) (addInvalidated parent paths store)
  = if bool_decide (sid = parent) && negb (str_empty sid)
    then getInvalidatedFiles (Some sid) store ∪ list_to_set paths
    else getInvalidatedFiles (Some sid) store.
Proof.
  unfold getInvalidatedFiles, addInvalidated.
  destruct (str_empty sid) eqn:He; [by rewrite andb_false_r|].
  rewrite andb_true_r. case_bool_decide as Hs.
  - subst. by rewrite lookup_insert_eq.
  - by rewrite lookup_insert_ne.
Qed.

Lemma elem_of_omap_diff_path `{Runtime} root (diffs : list JValue) k :
  k ∈ omap (diff_path root) diffs
  <-> exists d file, d ∈ diffs /\ as_string (prop "file" d) = Some file
        /\ normalizeFilePath file root = Some k /\ k <> "".
Proof.
  rewrite list_elem_of_omap. unfold diff_path. split.
  - intros (d & Hd & Hk). exists d.
    destruct (as_string (prop "file" d)) as [file|]; [|done]. exists file.
    destruct (normalizeFilePath file root) as [x|]; [|done].
    destruct (str_empty x) eqn:Hx; [done|]. injection Hk as ->.
    split_and!; try done. by intros ->.
  - intros (d & file & Hd & Hf & Hn & Hne). exists d. split; [done|].
    rewrite Hf, Hn. by destruct k.
Qed.

(** X13.  A finished subagent task invalidates, for the session that ran it, the
    files of the subagent's diff and nothing else: the files invalidated
    afterwards are those invalidated before and the non-empty normalized paths
    of the diff entries; the sets of the other sessions are as they were.  The
    task names its session, and no entry of the diff is [null]. *)
Theorem task_invalidates_changed_files `{Runtime} (worktreeRoot : option string)
    (parent child : string) (metadata : option JValue) (v1 v2 : option JValue)
    (store : InvalidationStore) :
  as_string (metadata ≫= prop "sessionId") = Some child -> child <> "" ->
  parent <> "" ->
  Forall (fun d => is_null d = false) (getSessionDiff v1 v2) ->
  exists store',
    onTaskToolAfter worktreeRoot parent metadata v1 v2 store = Some store'
    /\ (forall k,
          k ∈ getInvalidatedFiles (Some parent) store'
          <-> k ∈ getInvalidatedFiles (Some parent) store
              \/ exists d file,
                   d ∈ getSessionDiff v1 v2
                   /\ as_string (prop "file" d) = Some file
                   /\ normalizeFilePath file worktreeRoot = Some k /\ k <> "")
    /\ (forall other, other <> parent ->
          getInvalidatedFiles (Some other) store'
          = getInvalidatedFiles (Some other) store).
Proof.
  intros Hm Hchild Hparent Hnull. unfold onTaskToolAfter. rewrite Hm.
  assert (str_empty child = false) as -> by (by destruct child).
  assert (str_empty parent = false) as Hp by (by destruct parent).
  change (extractDiffs (Some (JArr ?x))) with x. cbv beta zeta.
  assert (existsb is_null (getSessionDiff v1 v2) = false) as ->.
  { apply not_true_is_false. intros Hex. apply existsb_exists in Hex as (d & Hd & Hn).
    rewrite Forall_forall in Hnull. apply list_elem_of_In in Hd.
    by rewrite (Hnull d Hd) in Hn. }
  case_bool_decide as Hnil.
  - eexists. split; [done|]. split; [|done].
    intros k. split; [by left|]. intros [?|Hk]; [done|].
    apply elem_of_omap_diff_path in Hk. rewrite Hnil in Hk.
    by apply elem_of_nil in Hk.
  - eexists. split; [done|]. split.
    + intros k. rewrite getInvalidatedFiles_addInvalidated.
      rewrite bool_decide_eq_true_2, Hp by done. simpl.
      rewrite elem_of_union, elem_of_list_to_set, elem_of_omap_diff_path. done.
    + intros other Hne. rewrite getInvalidatedFiles_addInvalidated.
      by rewrite bool_decide_eq_false_2.
Qed.

Lemma task_invalidates_changed_files_witness :
  exists store',
    onTaskToolAfter (H := posix) (Some "/w") "ses_1"
      (Some (JObj [("sessionId", JStr "ses_2")]))
      (Some (JArr [JObj [("file", JStr "a.ts")]])) None ∅ = Some store'
    /\ (forall k,
          k ∈ getInvalidatedFiles (Some "ses_1") store'
          <-> k ∈ getInvalidatedFiles (Some "ses_1") ∅
              \/ exists d file,
                   d ∈ getSessionDiff (Some (JArr [JObj [("file", JStr "a.ts")]])) None
                   /\ as_string (prop "file" d) = Some file
                   /\ normalizeFilePath (rt := posix) file (Some "/w") = Some k
                   /\ k <> "")
    /\ (forall other, other <> "ses_1" ->
          getInvalidatedFiles (Some other) store'
          = getInvalidatedFiles (Some other) ∅).
Proof.
  apply (task_invalidates_changed_files (H := posix) (Some "/w") "ses_1" "ses_2").
  - reflexivity.
  - discriminate.
  - discriminate.
  - vm_compute. repeat constructor.
Defined.

(** ** The plugin *)

Section PluginSteps.
Context {rt : Runtime}.

Lemma onTaskToolAfter_grows root parent metadata v1 v2 store store' sid :
  onTaskToolAfter root parent metadata v1 v2 store = Some store' ->
  getInvalidatedFiles sid store ⊆ getInvalidatedFiles sid store'.
Proof.
  unfold onTaskToolAfter. intros Hs.
  repeat case_match; simplify_eq; try done.
  destruct sid as [sid|]; [|done].
  rewrite getInvalidatedFiles_addInvalidated. case_match; set_solver.
Qed.

Lemma after_call_config p c :
  whitelistConfig (after_call p c) = whitelistConfig p
  /\ worktree (after_call p c) = worktree p.
Proof.
  destruct c as [e|sid' ok now|tl hsid md v1 v2|clock now ms]; simpl.
  - unfold event_before_send. repeat case_match; done.
  - done.
  - unfold tool_execute_after. repeat case_match; simplify_eq; done.
  - unfold messages_transform. repeat case_match; simplify_eq; done.
Qed.

Lemma after_call_invalidated p c sid :
  getInvalidatedFiles sid (invalidatedByParentSession p)
  ⊆ getInvalidatedFiles sid (invalidatedByParentSession (after_call p c)).
Proof.
  destruct c as [e|sid' ok now|tl hsid md v1 v2|clock now ms]; simpl.
  - unfold event_before_send. repeat case_match; done.
  - done.
  - unfold tool_execute_after.
    destruct (negb (bool_decide (tl = "task"))); [done|].
    destruct (onTaskToolAfter _ _ _ _ _ _) as [store'|] eqn:Hs; [|done].
    simpl. by eapply onTaskToolAfter_grows.
  - unfold messages_transform. repeat case_match; simplify_eq; done.
Qed.

Lemma after_calls_config p calls :
  whitelistConfig (after_calls p calls) = whitelistConfig p.
Proof.
  unfold after_calls.
  apply (foldl_invariant (fun q => whitelistConfig q = whitelistConfig p)); [done|].
  intros q c _ <-. apply after_call_config.
Qed.

Lemma after_calls_invalidated p calls sid :
  getInvalidatedFiles sid (invalidatedByParentSession p)
  ⊆ getInvalidatedFiles sid (invalidatedByParentSession (after_calls p calls)).
Proof.
  unfold after_calls.
  apply (foldl_invariant
    (fun q => getInvalidatedFiles sid (invalidatedByParentSession p)
              ⊆ getInvalidatedFiles sid (invalidatedByParentSession q))); [done|].
  intros q c _ Hq. etrans; [exact Hq|]. apply after_call_invalidated.
Qed.

Lemma messages_transform_runs clock now messages p config sid :
  whitelistConfig p = Some config ->
  shouldSkipContextCleanup (inferModelFromMessages messages) (Some config) = false ->
  inferSessionID messages = Some sid ->
  let invalidated := getInvalidatedFiles (Some sid) (invalidatedByParentSession p) in
  let pass :=
    if bool_decide (sid ∈ pendingFinalize p)
    then Finalize.finalizeEditedFilesForNextStep clock messages config invalidated
    else Cleanup.cleanupMessagesForContextJar messages config invalidated in
  (messages_transform clock now messages p).2 = pass.2
  /\ pendingFinalize (messages_transform clock now messages p).1
     = pendingFinalize p ∖ {[sid]}
  /\ invalidatedByParentSession (messages_transform clock now messages p).1
     = invalidatedByParentSession p
  /\ whitelistConfig (messages_transform clock now messages p).1 = Some config
  /\ get sid (bySession (messages_transform clock now messages p).1)
     = Some (record sid pass.1 now (bySession p)).2.
Proof.
  intros Hc Hskip Hsid. simpl. unfold messages_transform.
  rewrite Hc, Hskip, Hsid.
  destruct (bool_decide (sid ∈ pendingFinalize p)).
  - destruct (Finalize.finalizeEditedFilesForNextStep _ _ _ _) as [delta out].
    simpl. split_and!; try done. unfold get. by rewrite lookup_insert_eq.
  - destruct (Cleanup.cleanupMessagesForContextJar _ _ _) as [delta out].
    simpl. split_and!; try done. unfold get. by rewrite lookup_insert_eq.
Qed.

End PluginSteps.

(** X12.  Invalidations never expire: whatever hooks are called, in whatever order
    and with whatever answers from outside, a file invalidated for a session
    stays invalidated for it. *)
Theorem invalidation_never_expires `{Runtime} (p : Plugin) (calls : list HookCall)
    (sid : option string) (k : string) :
  k ∈ getInvalidatedFiles sid (invalidatedByParentSession p) ->
  k ∈ getInvalidatedFiles sid (invalidatedByParentSession (after_calls p calls)).
Proof. apply after_calls_invalidated. Qed.

(** X11.  A file invalidated for a session stays out of its prompt: after any
    sequence of hook calls, a pass of the transform hook over messages of that
    session (one that the whitelist does not skip) leaves no completed file
    operation on the file, a read made after the invalidation included.  The
    file is not protected and the keys of the messages are fixed points of the
    path resolver. *)
Theorem invalidated_file_stays_wiped `{Runtime} (p : Plugin) (calls : list HookCall)
    (config : WhitelistConfig) (sid k : string) (clock : nat -> Z) (now : Z)
    (messages : list ChatMessage) :
  k ∈ getInvalidatedFiles (Some sid) (invalidatedByParentSession p) ->
  whitelistConfig p = Some config ->
  shouldSkipContextCleanup (inferModelFromMessages messages) (Some config) = false ->
  inferSessionID messages = Some sid ->
  stable_keys messages -> protected config k = false ->
  forall q,
    q ∈ all_parts (messages_transform clock now messages (after_calls p calls)).2 ->
    file_operation_of (inferWorktreeRoot messages) k q = false.
Proof.
  intros Hk Hc Hskip Hsid Hs Hprot q Hq.
  assert (whitelistConfig (after_calls p calls) = Some config) as Hc'
    by (by rewrite after_calls_config).
  destruct (messages_transform_runs clock now messages (after_calls p calls)
              config sid Hc' Hskip Hsid) as (Hout & _).
  rewrite Hout in Hq.
  assert (k ∈ getInvalidatedFiles (Some sid)
                (invalidatedByParentSession (after_calls p calls))) as Hk'
    by (by apply (after_calls_invalidated p calls (Some sid))).
  destruct (file_operation_of (inferWorktreeRoot messages) k q) eqn:Hop; [|done].
  exfalso. destruct (bool_decide (sid ∈ pendingFinalize (after_calls p calls))).
  - by eapply (finalize_wipes_invalidated config _ messages Hs clock k q).
  - by eapply (cleanup_wipes_invalidated config _ messages Hs k q).
Qed.


Lemma example_plugin_invalidated :
  "/w/a.ts" ∈ getInvalidatedFiles (Some "ses_1")
                (invalidatedByParentSession example_plugin).
Proof.
  unfold getInvalidatedFiles, example_plugin. simpl.
  rewrite lookup_singleton_eq. simpl. by apply elem_of_singleton.
Qed.

Lemma invalidation_never_expires_witness :
  "/w/a.ts"
  ∈ getInvalidatedFiles (Some "ses_1")
      (invalidatedByParentSession
         (after_calls (H := posix) example_plugin
            [ToolExecuteAfter "task" "ses_1"
               (Some (JObj [("sessionId", JStr "ses_2")]))
               (Some (JArr [JObj [("file", JStr "b.ts")]])) None;
             MessagesTransform (fun _ => 0%Z) 30 read_edit_read])).
Proof.
  apply (invalidation_never_expires (H := posix) example_plugin).
  apply example_plugin_invalidated.
Defined.

Lemma invalidated_file_stays_wiped_witness :
  Forall
    (fun q =>
       file_operation_of (rt := posix) (inferWorktreeRoot read_edit_read) "/w/a.ts" q
       = false)
    (all_parts
       (messages_transform (H := posix) (fun _ => 0%Z) 30 read_edit_read
          (after_calls (H := posix) example_plugin
             [EventBeforeSend (SessionIdle "ses_1")])).2).
Proof.
  apply Forall_forall.
  apply (invalidated_file_stays_wiped (H := posix) example_plugin
           [EventBeforeSend (SessionIdle "ses_1")] no_protection "ses_1" "/w/a.ts").
  - apply example_plugin_invalidated.
  - reflexivity.
  - reflexivity.
  - reflexivity.
  - apply stable_keys_by_parts. vm_compute. reflexivity.
  - vm_compute. reflexivity.
Defined.

(** ** Idle, then the next step *)

Lemma event_before_send_fields e p sid :
  idle_session e = Some sid ->
  pendingFinalize (event_before_send e p).1 = pendingFinalize p ∪ {[sid]}
  /\ whitelistConfig (event_before_send e p).1 = whitelistConfig p
  /\ invalidatedByParentSession (event_before_send e p).1
     = invalidatedByParentSession p
  /\ bySession (event_before_send e p).1 = bySession p.
Proof.
  intros He. unfold event_before_send. rewrite He.
  repeat case_match; simpl; done.
Qed.

(** X14.  An idle event marks the session for finalization, and one pass consumes
    the mark: of the passes of the transform hook that follow the event for
    the session (passes that the whitelist does not skip), the first is a
    finalization pass and the second a consolidation pass, both with the
    session's invalidated files; the tracker then holds the delta of the
    second pass as the session's total. *)
Theorem finalization_follows_idle `{Runtime} (p : Plugin) (e : PluginEvent)
    (sid : string) (config : WhitelistConfig)
    (clock clock' : nat -> Z) (now now' : Z) (ms ms' : list ChatMessage) :
  idle_session e = Some sid -> whitelistConfig p = Some config ->
  shouldSkipContextCleanup (inferModelFromMessages ms) (Some config) = false ->
  inferSessionID ms = Some sid ->
  shouldSkipContextCleanup (inferModelFromMessages ms') (Some config) = false ->
  inferSessionID ms' = Some sid ->
  let invalidated := getInvalidatedFiles (Some sid) (invalidatedByParentSession p) in
  let first := messages_transform clock now ms (event_before_send e p).1 in
  let second := messages_transform clock' now' ms' first.1 in
  first.2 = (Finalize.finalizeEditedFilesForNextStep clock ms config invalidated).2
  /\ second.2 = (Cleanup.cleanupMessagesForContextJar ms' config invalidated).2
  /\ total <$> get sid (bySession second.1)
     = Some (Cleanup.cleanupMessagesForContextJar ms' config invalidated).1.
Proof.
  intros He Hc Hskip Hsid Hskip' Hsid'. simpl.
  destruct (event_before_send_fields e p sid He) as (Hpend & Hc1 & Hinv1 & _).
  rewrite <- Hc1 in Hc.
  destruct (messages_transform_runs clock now ms (event_before_send e p).1 config sid
              Hc Hskip Hsid) as (Hout & Hpend2 & Hinv2 & Hc2 & _).
  destruct (messages_transform_runs clock' now' ms'
              (messages_transform clock now ms (event_before_send e p).1).1 config sid
              Hc2 Hskip' Hsid') as (Hout' & _ & _ & _ & Hget).
  rewrite Hout, Hout', Hget, Hpend2, Hinv2, Hpend, Hinv1.
  rewrite (bool_decide_eq_true_2 (sid ∈ pendingFinalize p ∪ {[sid]}))
    by set_solver.
  rewrite (bool_decide_eq_false_2 (sid ∈ (pendingFinalize p ∪ {[sid]}) ∖ {[sid]}))
    by set_solver.
  done.
Qed.

Lemma finalization_follows_idle_witness :
  let invalidated :=
    getInvalidatedFiles (Some "ses_1") (invalidatedByParentSession example_plugin) in
  let first :=
    messages_transform (H := posix) (fun _ => 0%Z) 30 read_edit_read
      (event_before_send (SessionIdle "ses_1") example_plugin).1 in
  let second :=
    messages_transform (H := posix) (fun _ => 0%Z) 40 read_edit_read first.1 in
  first.2 = (Finalize.finalizeEditedFilesForNextStep (rt := posix) (fun _ => 0%Z)
               read_edit_read no_protection invalidated).2
  /\ second.2 = (Cleanup.cleanupMessagesForContextJar (rt := posix) read_edit_read
                   no_protection invalidated).2
  /\ total <$> get "ses_1" (bySession second.1)
     = Some (Cleanup.cleanupMessagesForContextJar (rt := posix) read_edit_read
               no_protection invalidated).1.
Proof.
  apply (finalization_follows_idle (H := posix) example_plugin (SessionIdle "ses_1")
           "ses_1" no_protection); reflexivity.
Defined.

(** ** The whitelist *)

Lemma inferModelFromMessages_nonempty messages m :
  inferModelFromMessages messages = Some m -> str_empty m = false.
Proof.
  induction messages as [|msg messages IH]; simpl; [done|].
  destruct (inferModelFromMessages messages) as [k|]; [intros [= <-]; by apply IH|].
  case_bool_decide; [|done]. unfold modelKey.
  destruct (model (info msg)) as [r|]; [|done]. intros [= <-].
  destruct (providerID r); done.
Qed.

(** X15.  With an enforced whitelist, a window whose last user message with a model
    names a model outside the list is left alone: the transform hook changes
    neither the messages nor the plugin, so a finalization that is pending
    stays pending and no step is recorded. *)
Theorem disallowed_model_is_left_alone `{Runtime} (p : Plugin)
    (config : WhitelistConfig) (clock : nat -> Z) (now : Z)
    (messages : list ChatMessage) (m : string) :
  whitelistConfig p = Some config -> enforced config = true ->
  inferModelFromMessages messages = Some m -> m ∉ allowedModels config ->
  messages_transform clock now messages p = (p, messages).
Proof.
  intros Hc He Hm Hnot. unfold messages_transform. rewrite Hc, Hm.
  unfold shouldSkipContextCleanup, isModelAllowed, includes.
  rewrite (inferModelFromMessages_nonempty messages m Hm), He. simpl.
  by rewrite bool_decide_eq_false_2.
Qed.

Lemma disallowed_model_is_left_alone_witness :
  messages_transform (H := posix) (fun _ => 0%Z) 30 other_model_window
    whitelisting_plugin
  = (whitelisting_plugin, other_model_window).
Proof.
  apply (disallowed_model_is_left_alone (H := posix) whitelisting_plugin
           one_model_only (fun _ => 0%Z) 30 other_model_window "openai/gpt-4o").
  - reflexivity.
  - reflexivity.
  - reflexivity.
  - vm_compute. intros Hin. apply list_elem_of_In in Hin. simpl in Hin.
    destruct Hin as [Heq|[]]. discriminate Heq.
Defined.

(** ** One summary in flight *)

Lemma after_call_in_flight `{Runtime} p c sid :
  ~ settles sid c -> sid ∈ idleInFlight p -> sid ∈ idleInFlight (after_call p c).
Proof.
  intros Hc Hin.
  destruct c as [e|sid' ok now|tl hsid md v1 v2|clock now ms]; simpl in *.
  - unfold event_before_send. repeat case_match; simpl; set_solver.
  - set_solver.
  - unfold tool_execute_after. repeat case_match; simplify_eq; done.
  - unfold messages_transform. repeat case_match; simplify_eq; done.
Qed.

(** X16.  While the summary of a session is being sent, no second one is: once the
    event hook has asked for a summary, an idle event of the session asks for
    none, whatever other hooks run in between, until the send has settled. *)
Theorem one_summary_in_flight `{Runtime} (p : Plugin) (e e' : PluginEvent)
    (sid : string) (request : SummaryRequest) (calls : list HookCall) :
  idle_session e = Some sid -> idle_session e' = Some sid ->
  (event_before_send e p).2 = Some request ->
  Forall (fun c => ~ settles sid c) calls ->
  (event_before_send e' (after_calls (event_before_send e p).1 calls)).2 = None.
Proof.
  intros He He' Hreq Hcalls.
  assert (sid ∈ idleInFlight (event_before_send e p).1) as Hin.
  { unfold event_before_send in *. rewrite He in *.
    repeat case_match; simplify_eq/=. set_solver. }
  assert (sid ∈ idleInFlight (after_calls (event_before_send e p).1 calls)) as Hin'.
  { unfold after_calls. apply foldl_invariant; [done|].
    intros q c Hc Hq. apply after_call_in_flight; [|done].
    rewrite Forall_forall in Hcalls. by apply Hcalls. }
  unfold event_before_send at 1. rewrite He'.
  repeat case_match; simplify_eq/=; try done.
  match goal with H : bool_decide _ = false |- _ =>
    apply bool_decide_eq_false_1 in H; set_solver end.
Qed.

Lemma one_summary_in_flight_witness :
  (event_before_send (SessionStatus "idle" "ses_1")
     (after_calls (H := posix)
        (event_before_send (SessionIdle "ses_1") example_plugin).1
        [MessagesTransform (fun _ => 0%Z) 30 read_edit_read;
         EventAfterSend "ses_2" true 35])).2 = None.
Proof.
  apply (one_summary_in_flight (H := posix) example_plugin (SessionIdle "ses_1")
           (SessionStatus "idle" "ses_1") "ses_1"
           {| req_sessionID := "ses_1"; req_context := None;
              req_stats := (record "ses_1" zeroDelta 10 ∅).2 |}).
  - reflexivity.
  - reflexivity.
  - vm_compute. reflexivity.
  - repeat constructor; simpl; [tauto|discriminate].
Defined.


(** ** The delta of a finalization pass is exact *)

Lemma sum_list_cons (x : nat) (l : list nat) : sum_list (x :: l) = x + sum_list l.
Proof. done. Qed.

Lemma window_tokens_cons `{Runtime} m w :
  window_tokens (m :: w) = sum_list (part_tokens <$> parts m) + window_tokens w.
Proof.
  unfold window_tokens. by rewrite all_parts_cons, fmap_app, sum_list_append.
Qed.

Lemma window_tokens_alter_app `{Runtime} extra w i m :
  w !! i = Some m ->
  window_tokens (alter (fun m => set_parts (parts m ++ extra) m) i w)
  = window_tokens w + sum_list (part_tokens <$> extra).
Proof.
  intros Hm. unfold window_tokens.
  rewrite (all_parts_alter_app extra w i m Hm), (all_parts_take_drop w i m Hm).
  rewrite !fmap_app, !sum_list_append. lia.
Qed.

Section Exact.
Context {rt : Runtime}.
Variable config : WhitelistConfig.
Variable inv : gset string.
Variable root : option string.

Import Finalize.

Lemma wipe_part_conserve g d p :
  let r := wipe_part config inv root g d p in
  tokensAfter r.1 = tokensAfter d
  /\ tokensBefore r.1
     = tokensBefore d + (if r.2 then 0 else part_tokens p).
Proof.
  simpl. unfold wipe_part.
  destruct p as [t| |]; simpl; [|lia..].
  destruct (isCompletedToolPart t); simpl; [|lia].
  destruct (resolved t root) as [k|]; simpl; [|lia].
  destruct (isFileProtected k _ _); simpl; [lia|].
  destruct (negb _); simpl; [lia|].
  destruct (isFileTool (tool t)); simpl; [|lia].
  unfold categorizeBefore, categorizeBeforeTokens.
  destruct (bool_decide (k ∈ inv)); simpl; lia.
Qed.

Lemma wipe_parts_conserve g d ps :
  let r := wipe_parts config inv root g d ps in
  tokensAfter r.1 = tokensAfter d
  /\ sum_list (part_tokens <$> r.2) + tokensBefore r.1
     = sum_list (part_tokens <$> ps) + tokensBefore d.
Proof.
  cbv zeta. revert d. induction ps as [|p ps IH]; intros d; [done|].
  cbn [wipe_parts].
  pose proof (wipe_part_conserve g d p) as [Ha Hb]. cbv zeta in Ha, Hb.
  destruct (wipe_part config inv root g d p) as [d1 b]. cbn [fst snd] in Ha, Hb.
  destruct (IH d1) as [IHa IHb].
  destruct (wipe_parts config inv root g d1 ps) as [d2 ps']. cbn [fst snd] in *.
  split; [congruence|].
  rewrite fmap_cons. destruct b; rewrite ?fmap_cons, !sum_list_cons; lia.
Qed.

Lemma wipe_conserve g d ms :
  let r := wipe config inv root g d ms in
  tokensAfter r.1 = tokensAfter d
  /\ window_tokens r.2 + tokensBefore r.1 = window_tokens ms + tokensBefore d.
Proof.
  cbv zeta. revert d. induction ms as [|m ms IH]; intros d; [done|].
  cbn [wipe].
  pose proof (wipe_parts_conserve g d (parts m)) as [Ha Hb]. cbv zeta in Ha, Hb.
  destruct (wipe_parts config inv root g d (parts m)) as [d1 ps].
  cbn [fst snd] in Ha, Hb.
  destruct (IH d1) as [IHa IHb].
  destruct (wipe config inv root g d1 ms) as [d2 ms']. cbn [fst snd] in *.
  rewrite !window_tokens_cons. cbn [parts set_parts].
  split; [congruence|]. lia.
Qed.

Lemma attach_step clock g i a k :
  is_Some (window a !! i) ->
  let a1 := attach root clock g i a k in
  tokensBefore (att_delta a1) = tokensBefore (att_delta a)
  /\ window_tokens (window a1) + tokensAfter (att_delta a)
     = window_tokens (window a) + tokensAfter (att_delta a1)
  /\ is_Some (window a1 !! i).
Proof.
  intros [m Hm]. cbv zeta. unfold attach.
  destruct (latestByFile g !! k) as [latest|]; [|eauto].
  cbn [window att_delta].
  rewrite (window_tokens_alter_app _ _ i m Hm).
  rewrite list_lookup_alter_eq, Hm.
  unfold categorizeAfter, categorizeAfterTokens, incr_filesConsolidated, add_after.
  cbn [tokensBefore tokensAfter]. rewrite fmap_cons, fmap_nil, sum_list_cons.
  cbn [part_tokens sum_list sum_list_with]. split_and!; [done|lia|by eexists].
Qed.

Lemma attach_conserve clock g i a ks :
  is_Some (window a !! i) ->
  let a' := foldl (attach root clock g i) a ks in
  tokensBefore (att_delta a') = tokensBefore (att_delta a)
  /\ window_tokens (window a') + tokensAfter (att_delta a)
     = window_tokens (window a) + tokensAfter (att_delta a').
Proof.
  cbv zeta. revert a. induction ks as [|k ks IH]; intros a Ha; [done|].
  cbn [foldl].
  destruct (attach_step clock g i a k Ha) as (H1 & H2 & H3).
  destruct (IH _ H3) as [H4 H5]. split; [congruence|lia].
Qed.

Lemma count_invalidated_tokens g d :
  tokensBefore (count_invalidated inv g d) = tokensBefore d
  /\ tokensAfter (count_invalidated inv g d) = tokensAfter d.
Proof.
  apply (count_invalidated_counters inv
           (fun d' => tokensBefore d' = tokensBefore d
                      /\ tokensAfter d' = tokensAfter d)); done.
Qed.

End Exact.

(** X4.  The delta of a finalization pass accounts for the tool Parts of the
    window to the token: the cost of the tool Parts the pass leaves is the
    cost of those it found, less the before total, plus the after total,
    whatever the window, with or without an assistant-authored message. *)
Theorem finalize_delta_is_exact `{Runtime} (clock : nat -> Z) (w : list ChatMessage)
    (config : WhitelistConfig) (inv : gset string) :
  let result := Finalize.finalizeEditedFilesForNextStep clock w config inv in
  window_tokens result.2 + tokensBefore result.1
  = window_tokens w + tokensAfter result.1.
Proof.
  simpl. unfold Finalize.finalizeEditedFilesForNextStep.
  set (root := inferWorktreeRoot w).
  set (g := Finalize.gather config inv root w).
  destruct (count_invalidated_tokens inv g emptyDelta) as [Hb Ha].
  destruct (bool_decide _ && _); simpl; [rewrite Hb, Ha; done|].
  pose proof (wipe_conserve config inv root g
                (Finalize.count_invalidated inv g emptyDelta) w) as [Hwa Hwb].
  pose proof (wipe_snd config inv root w
                (Finalize.count_invalidated inv g emptyDelta) w) as Hsnd.
  simpl in Hwa, Hwb.
  destruct (Finalize.wipe config inv root g _ w) as [d1 ms]. simpl in *.
  rewrite Hb in Hwb. rewrite Ha in Hwa. simpl in *.
  destruct (Finalize.findLastAssistant ms) as [i|] eqn:Hi; simpl; [|lia].
  destruct (findLastAssistant_lookup ms i Hi) as (m & Hm & _).
  pose proof (attach_conserve root clock g i
                {| Finalize.window := ms; Finalize.att_delta := d1;
                   Finalize.made := 0 |}
                (Finalize.editedFiles g)) as Hatt.
  simpl in Hatt. destruct Hatt as [Hab Haa]; [eauto|]. lia.
Qed.

(** ** Where the synthetic reads go *)

Lemma findLastAssistant_last (ms : list ChatMessage) i j m :
  Finalize.findLastAssistant ms = Some i -> i < j -> ms !! j = Some m ->
  role (info m) <> "assistant".
Proof.
  revert i j. induction ms as [|m0 ms IH]; intros i j; simpl; [done|].
  destruct (Finalize.findLastAssistant ms) as [i'|] eqn:Hi.
  - intros [= <-] Hlt Hm. destruct j as [|j]; [lia|]. simpl in Hm.
    apply (IH i' j); [done|lia|done].
  - case_bool_decide; [|done]. intros [= <-] Hlt Hm.
    destruct j as [|j]; [lia|]. simpl in Hm.
    clear IH. revert j Hm Hlt. induction ms as [|m1 ms IH]; intros j Hm _; [done|].
    simpl in Hi. destruct (Finalize.findLastAssistant ms) eqn:Hi'; [done|].
    case_bool_decide; [done|].
    destruct j as [|j]; simpl in Hm; [by simplify_eq|].
    apply (IH eq_refl j Hm). lia.
Qed.

(** X10.  The synthetic reads of a finalization pass go to the last
    assistant-authored message of the window and nowhere else: every other
    message only loses Parts, its Parts after the pass being a sublist of its
    Parts before. *)
Theorem synthetic_reads_go_to_last_assistant `{Runtime} (clock : nat -> Z)
    (w : list ChatMessage) (config : WhitelistConfig) (inv : gset string)
    (i : nat) :
  Finalize.findLastAssistant w = Some i ->
  let w' := (Finalize.finalizeEditedFilesForNextStep clock w config inv).2 in
  (exists m, w !! i = Some m /\ role (info m) = "assistant"
     /\ forall j m', i < j -> w !! j = Some m' -> role (info m') <> "assistant")
  /\ forall j m m', j <> i -> w !! j = Some m -> w' !! j = Some m' ->
       info m' = info m /\ parts m' `sublist_of` parts m.
Proof.
  intros Hi. simpl. split.
  - destruct (findLastAssistant_lookup w i Hi) as (m & Hm & Hr).
    exists m. split_and!; [done|done|]. intros j m'. by apply findLastAssistant_last.
  - intros j m m' Hne Hm. rewrite finalize_window, Hi.
    destruct (bool_decide _ && _).
    { intros Hm'. by simplify_eq. }
    rewrite list_lookup_alter_ne by done. rewrite list_lookup_fmap, Hm. simpl.
    intros [= <-]. split; [done|]. simpl. apply sublist_filter.
Qed.

Lemma synthetic_reads_go_to_last_assistant_witness :
  let w' := (Finalize.finalizeEditedFilesForNextStep (rt := posix) (fun _ => 0%Z)
               read_edit_read no_protection ∅).2 in
  (exists m, read_edit_read !! 1 = Some m /\ role (info m) = "assistant"
     /\ forall j m', 1 < j -> read_edit_read !! j = Some m' ->
          role (info m') <> "assistant")
  /\ forall j m m', j <> 1 -> read_edit_read !! j = Some m -> w' !! j = Some m' ->
       info m' = info m /\ parts m' `sublist_of` parts m.
Proof.
  apply (synthetic_reads_go_to_last_assistant (H := posix)). reflexivity.
Defined.

(** ** The protection helper and the engines *)

Lemma shouldProtectToolPart_inv `{Runtime} t exts pats root :
  shouldProtectToolPart t exts pats root = true ->
  exists k, resolved t root = Some k /\ isFileProtected k exts pats = true.
Proof.
  unfold shouldProtectToolPart, extractFilesFromToolPart, resolved.
  destruct (extractPrimaryFilePath t root) as [k|]; [|done].
  destruct (str_empty k); [done|]. simpl. rewrite orb_false_r. eauto.
Qed.

Lemma revised_keeps T l l' p : revised T l l' -> p ∈ l -> ~ T p -> p ∈ l'.
Proof.
  induction 1 as [|q l l' _ IH|q l l' HT _ IH|q q' l l' HT _ IH];
    intros Hin Hno.
  - done.
  - apply elem_of_cons in Hin as [->|Hin]; [by left|right; by apply IH].
  - apply elem_of_cons in Hin as [->|Hin]; [done|by apply IH].
  - apply elem_of_cons in Hin as [->|Hin]; [done|right; by apply IH].
Qed.

Lemma pruned_keeps T l l' p : pruned T l l' -> p ∈ l -> ~ T p -> p ∈ l'.
Proof. intros Hp. apply revised_keeps. by apply pruned_revised. Qed.

Lemma all_parts_Forall2 (R : list ChatMessagePart -> list ChatMessagePart -> Prop)
    w w' p :
  Forall2 (fun m m' => R (parts m) (parts m')) w w' ->
  (forall l l', R l l' -> p ∈ l -> p ∈ l') ->
  p ∈ all_parts w -> p ∈ all_parts w'.
Proof.
  intros Hw HR. induction Hw as [|m m' w w' Hm _ IH]; [done|].
  rewrite !all_parts_cons, !elem_of_app. intros [Hp|Hp]; [left|right; by apply IH].
  by eapply HR.
Qed.

(** X24.  A tool Part that [shouldProtectToolPart] flags under the configured
    protection is still in the window after a pass of either engine. *)
Theorem flagged_part_survives `{Runtime} (w : list ChatMessage)
    (config : WhitelistConfig) (inv : gset string) (t : ToolPart) :
  shouldProtectToolPart t (protectedExtensions config) (protectedPatterns config)
    (inferWorktreeRoot w) = true ->
  PTool t ∈ all_parts w ->
  PTool t ∈ all_parts (Cleanup.cleanupMessagesForContextJar w config inv).2
  /\ forall clock,
       PTool t ∈ all_parts (Finalize.finalizeEditedFilesForNextStep clock w config inv).2.
Proof.
  intros Hflag Hin. apply shouldProtectToolPart_inv in Hflag as (k & Hres & Hprot).
  split; [|intros clock].
  - eapply (all_parts_Forall2
              (revised (consolidation_target config inv w))); [| |done].
    + eapply Forall2_impl; [apply cleanup_revised|]. by intros m m' [_ ?].
    + intros l l' Hr Hp. apply (revised_keeps _ _ _ _ Hr Hp).
      intros (k' & Hop & Hprot' & _). apply file_operation_of_file in Hop.
      simpl in Hop. unfold protected in Hprot'. congruence.
  - eapply (all_parts_Forall2
              (fun l l' => exists kept extra, l' = kept ++ extra
                 /\ pruned (finalization_target config inv w) l kept
                 /\ Forall synthetic_read extra)); [| |done].
    + eapply Forall2_impl; [apply finalize_pruned|]. by intros m m' [_ ?].
    + intros l l' (kept & extra & -> & Hr & _) Hp. apply elem_of_app. left.
      apply (pruned_keeps _ _ _ _ Hr Hp).
      intros (k' & Hop & Hprot' & _). apply file_operation_of_file in Hop.
      simpl in Hop. unfold protected in Hprot'. congruence.
Qed.

Lemma flagged_part_survives_witness :
  let t :=
    {| id := None; callID := Some "call_1"; tool := "read";
       state :=
         Completed
           {| input := JObj [("filePath", JStr "/w/notes.md")];
              output := "<file>n</file>"; title := "read"; metadata := JObj [];
              time_start := 1; time_end := 2; time_compacted := None;
              attachments := None |};
       part_metadata := None |} in
  PTool t ∈ all_parts
              (Cleanup.cleanupMessagesForContextJar (rt := posix) protected_history
                 default_protection ∅).2
  /\ forall clock,
       PTool t ∈ all_parts
                   (Finalize.finalizeEditedFilesForNextStep (rt := posix) clock
                      protected_history default_protection ∅).2.
Proof.
  apply (flagged_part_survives (H := posix) protected_history default_protection ∅).
  - vm_compute. reflexivity.
  - apply list_elem_of_In. simpl. auto.
Defined.


(** ** What a synthetic read shows *)

Lemma filter_last {A} (P : A -> Prop) `{forall x, Decision (P x)} (l : list A) xs x :
  filter P l = xs ++ [x] ->
  exists l0 l', l = l0 ++ x :: l' /\ P x /\ (forall y, y ∈ l' -> ~ P y).
Proof.
  revert xs. induction l as [|a l IH]; intros xs Hf.
  { by destruct xs. }
  rewrite filter_cons in Hf. destruct (decide (P a)) as [Ha|Ha].
  - destruct xs as [|x0 xs]; simpl in Hf.
    + injection Hf as -> Hnil. exists [], l. split_and!; [done|done|].
      intros y Hy Py.
      assert (y ∈ filter P l) as Hin by (by apply list_elem_of_filter).
      rewrite Hnil in Hin. by apply elem_of_nil in Hin.
    + injection Hf as -> Hrest.
      destruct (IH xs Hrest) as (l0 & l' & -> & Hx & Hno).
      exists (x0 :: l0), l'. done.
  - destruct (IH xs Hf) as (l0 & l' & -> & Hx & Hno).
    exists (a :: l0), l'. done.
Qed.

Section Shown.
Context {rt : Runtime}.
Variable config : WhitelistConfig.
Variable inv : gset string.
Variable w : list ChatMessage.
Hypothesis stable : stable_keys w.

Import Finalize.

Local Abbreviation root := (inferWorktreeRoot w).
Local Abbreviation g := (gather config inv root w).

(** The gathering loop on a Part that is not a snapshot of [k] leaves the
    latest content of [k], once there is one. *)
Lemma gather_part_other g0 p k latest :
  snapshot_of root k p = false -> latestByFile g0 !! k = Some latest ->
  latestByFile (gather_part config inv root g0 p) !! k = Some latest.
Proof.
  intros Hno Hl. unfold gather_part.
  destruct p as [t| |]; [|done..].
  unfold isCompletedToolPart. destruct (state t) as [| |st|] eqn:Hst; try done.
  destruct (resolved t root) as [k0|] eqn:Hres; [|done].
  destruct (isFileProtected k0 _ _); [done|].
  destruct (bool_decide (k0 ∈ inv)); [done|].
  unfold snapshot_of in Hno. rewrite Hst in Hno.
  destruct (decide (k0 = k)) as [->|Hne].
  - rewrite (bool_decide_eq_true_2 _ Hres) in Hno. simpl in Hno.
    destruct (bool_decide (tool t = "edit") || bool_decide (tool t = "multiedit")).
    + simpl in Hno. apply orb_false_iff in Hno as [Hno _].
      apply bool_decide_eq_false_1 in Hno.
      destruct (extractAfterFromEditMetadata (metadata st)); [|done].
      exfalso. apply Hno. eauto.
    + simpl in Hno. destruct (bool_decide (tool t = "write")).
      * simpl in Hno. apply bool_decide_eq_false_1 in Hno.
        destruct (if truthy (input st) then _ else _); [|done].
        exfalso. apply Hno. eauto.
      * destruct (bool_decide (tool t = "read")); [|done].
        change (latestByFile (add_touched k g0)) with (latestByFile g0).
        rewrite Hl. rewrite (bool_decide_eq_true_2 (is_Some (Some latest))) by eauto.
        by rewrite andb_false_r.
  - repeat case_match; simpl; rewrite ?lookup_insert_ne by done; done.
Qed.

Lemma foldl_gather_other g0 l k latest :
  (forall p, p ∈ l -> ~ snapshot_of root k p) ->
  latestByFile g0 !! k = Some latest ->
  latestByFile (foldl (gather_part config inv root) g0 l) !! k = Some latest.
Proof.
  revert g0. induction l as [|p l IH]; intros g0 Hno Hl; [done|]. simpl.
  apply IH; [intros q Hq; apply Hno; by right|].
  apply gather_part_other; [|done].
  specialize (Hno p ltac:(by left)). by destruct (snapshot_of root k p).
Qed.

Lemma gather_part_snapshot g0 t k X :
  snapshot_of root k (PTool t) = true -> snapshot_content t = Some X ->
  protected config k = false -> k ∉ inv ->
  latestByFile (gather_part config inv root g0 (PTool t)) !! k
  = Some {| content := X; isAlreadyReadFormatted := false |}.
Proof.
  intros Hs HX Hprot Hinv.
  apply snapshot_of_inv in Hs as (t' & st & [= <-] & Hst & Hres & _ & _).
  unfold protected in Hprot. unfold snapshot_content in HX. rewrite Hst in HX.
  unfold gather_part, isCompletedToolPart. rewrite Hst, Hres, Hprot.
  rewrite (bool_decide_eq_false_2 _ Hinv).
  destruct (bool_decide (tool t = "edit") || bool_decide (tool t = "multiedit")).
  - rewrite HX. simpl. by rewrite lookup_insert_eq.
  - destruct (bool_decide (tool t = "write")); [|done].
    rewrite HX. simpl. by rewrite lookup_insert_eq.
Qed.

Lemma gather_latest_snapshot k snaps e X :
  filter (fun p => snapshot_of root k p) (all_parts w) = snaps ++ [PTool e] ->
  snapshot_content e = Some X -> protected config k = false -> k ∉ inv ->
  latestByFile g !! k = Some {| content := X; isAlreadyReadFormatted := false |}.
Proof.
  intros Hf HX Hprot Hinv. rewrite gather_flat.
  apply filter_last in Hf as (l0 & l' & -> & He & Hno).
  rewrite foldl_app. simpl.
  apply foldl_gather_other; [done|].
  apply Is_true_true in He. by apply gather_part_snapshot.
Qed.

Lemma elem_of_synthetic_parts_output clock n ks p :
  p ∈ synthetic_parts root clock g n ks ->
  exists k latest now,
    k ∈ ks /\ latestByFile g !! k = Some latest
    /\ p = PTool (makeSyntheticReadPart k
                    (if isAlreadyReadFormatted latest then content latest
                     else renderReadLikeOutput (content latest))
                    (synthetic_label root k) now).
Proof.
  revert n. induction ks as [|k ks IH]; intros n; simpl.
  - intros Hp. by apply elem_of_nil in Hp.
  - destruct (latestByFile g !! k) as [latest|] eqn:Hl.
    + intros [->|Hp]%elem_of_cons.
      * exists k, latest, (clock n). split_and!; [by left|done|done].
      * destruct (IH _ Hp) as (k' & l' & now & ? & ? & ?).
        exists k', l', now. split_and!; [by right|done|done].
    + intros Hp. destruct (IH _ Hp) as (k' & l' & now & ? & ? & ?).
      exists k', l', now. split_and!; [by right|done|done].
Qed.

Lemma finalize_synthetic_output clock k latest :
  (exists m, m ∈ w /\ role (info m) = "assistant") ->
  protected config k = false -> k ∉ inv ->
  (exists q, q ∈ all_parts w /\ snapshot_of root k q = true) ->
  latestByFile g !! k = Some latest ->
  exists now,
    filter (fun p => file_operation_of root k p)
      (all_parts (finalizeEditedFilesForNextStep clock w config inv).2)
    = [PTool (makeSyntheticReadPart k
                (if isAlreadyReadFormatted latest then content latest
                 else renderReadLikeOutput (content latest))
                (synthetic_label root k) now)].
Proof.
  intros (m & Hm & Hrole) Hprot Hinv (q & Hq & Hs) Hl.
  pose proof (gather_edited config inv root w k q Hq Hs Hprot Hinv) as Hed.
  rewrite finalize_window.
  rewrite (bool_decide_eq_false_2 (editedFiles g = []))
    by (intros Hnil; rewrite Hnil in Hed; by apply elem_of_nil in Hed).
  simpl.
  destruct (findLastAssistant_Some w m Hm Hrole) as [i Hi]. rewrite Hi.
  destruct (findLastAssistant_lookup w i Hi) as (mi & Hmi & _).
  destruct (filter_synthetic_parts config inv w stable clock k (editedFiles g) 0)
    as [Hone _]; [apply gather_NoDup|done|].
  destruct (Hone Hed) as (p & Hsyn & Hfilter).
  assert (p ∈ synthetic_parts root clock g 0 (editedFiles g)) as Hp.
  { assert (p ∈ filter (fun p => file_operation_of root k p)
                  (synthetic_parts root clock g 0 (editedFiles g))) as Hin
      by (rewrite Hfilter; by left).
    by apply list_elem_of_filter in Hin as [_ ?]. }
  apply elem_of_synthetic_parts_output in Hp as (k' & latest' & now & Hk' & Hl' & ->).
  assert (k = k') as <-.
  { destruct Hsyn as (o & l & n & Heq). unfold makeSyntheticReadPart in Heq.
    by simplify_eq. }
  assert (latest' = latest) as -> by congruence.
  exists now. rewrite <- Hfilter.
  eapply filter_all_parts_alter_app.
  - rewrite list_lookup_fmap, Hmi. done.
  - intros p' Hp' Hop. rewrite all_parts_filter in Hp'.
    apply list_elem_of_filter in Hp' as [Hkeep Hin].
    apply Is_true_true in Hkeep. apply Is_true_true in Hop.
    apply file_operation_of_inv in Hop as (t & st & -> & Hst & Hft & Hres).
    by destruct (wipe_keeps_true config inv root w t st k Hkeep Hst Hft Hres Hprot).
Qed.

End Shown.

(** X3.  The synthetic read of an edited file shows the content of the file's last
    edit, multiedit or write, whatever reads come after it.  In a window with
    an assistant-authored message, for a file that is neither protected nor
    invalidated and whose last snapshot has the content [X], the finalization
    pass leaves one completed file operation for the file: a read whose output
    is [X] rendered as a read output.  The keys of the window are fixed points
    of the path resolver. *)
Theorem synthetic_read_shows_last_snapshot `{Runtime} (clock : nat -> Z)
    (w : list ChatMessage) (config : WhitelistConfig) (inv : gset string)
    (k : string) (snaps : list ChatMessagePart) (e : ToolPart) (X : string) :
  stable_keys w ->
  (exists m, m ∈ w /\ role (info m) = "assistant") ->
  protected config k = false -> k ∉ inv ->
  filter (fun p => snapshot_of (inferWorktreeRoot w) k p) (all_parts w)
  = snaps ++ [PTool e] ->
  snapshot_content e = Some X ->
  let w' := (Finalize.finalizeEditedFilesForNextStep clock w config inv).2 in
  exists synthetic,
    filter (fun p => file_operation_of (inferWorktreeRoot w') k p) (all_parts w')
    = [PTool synthetic]
    /\ tool synthetic = "read"
    /\ part_output synthetic = renderReadLikeOutput X.
Proof.
  intros Hs Hm Hprot Hinv Hf HX. simpl.
  rewrite (inferWorktreeRoot_info w) by apply finalize_info.
  pose proof (gather_latest_snapshot config inv w k snaps e X Hf HX Hprot Hinv) as Hl.
  destruct (finalize_synthetic_output config inv w Hs clock k
              {| Finalize.content := X; Finalize.isAlreadyReadFormatted := false |}
              Hm Hprot Hinv)
    as [now Hone]; [|exact Hl|].
  { exists (PTool e).
    assert (PTool e ∈ filter (fun p => snapshot_of (inferWorktreeRoot w) k p)
                        (all_parts w)) as Hin
      by (rewrite Hf, elem_of_app; right; by left).
    apply list_elem_of_filter in Hin as [He Hin]. split; [done|].
    by apply Is_true_true. }
  eexists. split; [exact Hone|]. done.
Qed.

Lemma synthetic_read_shows_last_snapshot_witness :
  let w' := (Finalize.finalizeEditedFilesForNextStep (rt := posix) (fun _ => 0%Z)
               read_edit_read no_protection ∅).2 in
  exists synthetic,
    filter (fun p => file_operation_of (rt := posix) (inferWorktreeRoot w') "/w/a.ts" p)
      (all_parts w')
    = [PTool synthetic]
    /\ tool synthetic = "read"
    /\ part_output synthetic = renderReadLikeOutput "X".
Proof.
  eapply (synthetic_read_shows_last_snapshot (H := posix) (fun _ => 0%Z)
            read_edit_read no_protection ∅ "/w/a.ts" []).
  - apply stable_keys_by_parts. vm_compute. reflexivity.
  - eexists. split; [right; by left|]. reflexivity.
  - vm_compute. reflexivity.
  - apply not_elem_of_empty.
  - vm_compute. reflexivity.
  - vm_compute. reflexivity.
Defined.


(** ** The file counters of a consolidation pass *)

Lemma elem_of_tracked_files `{Runtime} config w k :
  k ∈ tracked_files config w
  <-> exists p, p ∈ all_parts w /\ file_operation_of (inferWorktreeRoot w) k p = true
        /\ protected config k = false.
Proof.
  unfold tracked_files. rewrite elem_of_list_to_set, list_elem_of_omap.
  unfold tracked_file, file_operation_of. split.
  - intros (p & Hp & Hk). exists p. split; [done|].
    destruct (file_of (inferWorktreeRoot w) p) as [k0|] eqn:Hf; [|done].
    destruct (file_operation (inferWorktreeRoot w) p) eqn:Hop; [|done].
    destruct (protected config k0) eqn:Hprot; [done|]. simpl in Hk.
    injection Hk as <-. by rewrite bool_decide_eq_true_2.
  - intros (p & Hp & Hop & Hprot). exists p. split; [done|].
    apply andb_prop in Hop as [Hop Hf]. apply bool_decide_eq_true_1 in Hf.
    by rewrite Hf, Hop, Hprot.
Qed.

Lemma elem_of_readable_files `{Runtime} config inv w k :
  k ∈ readable_files config inv w
  <-> exists p, p ∈ all_parts w /\ usable_read (inferWorktreeRoot w) k p = true
        /\ protected config k = false /\ k ∉ inv.
Proof.
  unfold readable_files. rewrite elem_of_list_to_set, list_elem_of_omap.
  unfold readable_file. split.
  - intros (p & Hp & Hk). exists p. split; [done|].
    destruct (file_of (inferWorktreeRoot w) p) as [k0|] eqn:Hf; [|done].
    destruct (usable_read (inferWorktreeRoot w) k0 p) eqn:Hu; [|done].
    destruct (protected config k0) eqn:Hprot; [done|]. simpl in Hk.
    case_bool_decide; [done|]. simpl in Hk. by injection Hk as <-.
  - intros (p & Hp & Hu & Hprot & Hinv). exists p. split; [done|].
    pose proof Hu as Hu'. apply usable_read_operation, file_operation_of_file in Hu'.
    rewrite Hu', Hu, Hprot. simpl. by rewrite bool_decide_eq_false_2.
Qed.

Section Counters.
Context {rt : Runtime}.
Variable config : WhitelistConfig.
Variable inv : gset string.
Variable w : list ChatMessage.

Import Cleanup.

Local Abbreviation root := (inferWorktreeRoot w).
Local Abbreviation h := (collect config inv root w).

Lemma collect_read_history k : k ∈ filesWithRead h -> k ∈ filesWithHistory h.
Proof.
  rewrite collect_located. revert k.
  apply (foldl_invariant
    (fun h => forall k, k ∈ filesWithRead h -> k ∈ filesWithHistory h)).
  { intros k Hk. by apply elem_of_nil in Hk. }
  intros h0 [r p] _ IH k. unfold collect_step, collect_part. simpl.
  destruct p as [t| |]; [|by apply IH..].
  destruct (isCompletedToolPart t) as [st|]; [|by apply IH].
  destruct (negb (isFileTool (tool t))); [by apply IH|].
  destruct (resolved t root) as [k0|]; [|by apply IH].
  destruct (isFileProtected k0 _ _); [by apply IH|].
  repeat case_match; simpl; rewrite ?elem_of_set_add;
    try (intros [->|Hk]; [by left|right; by apply IH]);
    intros Hk; right; by apply IH.
Qed.

Lemma sweep_part_counters hh s d p :
  filesInvalidated (sweep_part config inv root hh s d p).1 = filesInvalidated d
  /\ filesConsolidated (sweep_part config inv root hh s d p).1 = filesConsolidated d.
Proof. unfold sweep_part. repeat case_match; done. Qed.

Lemma count_unread_invalidated_count d :
  filesConsolidated (count_unread_invalidated inv h d) = filesConsolidated d
  /\ filesInvalidated (count_unread_invalidated inv h d)
     = filesInvalidated d
       + length (filter (fun k => k ∉ filesWithRead h /\ k ∈ inv) (filesWithHistory h)).
Proof.
  unfold count_unread_invalidated. generalize (filesWithHistory h) as l.
  intros l. revert d. induction l as [|k l IH]; intros d; simpl; [split; [done|lia]|].
  destruct (IH (if negb (bool_decide (k ∈ filesWithRead h)) && bool_decide (k ∈ inv)
                then incr_filesInvalidated d else d)) as [-> ->].
  rewrite filter_cons.
  destruct (negb (bool_decide (k ∈ filesWithRead h)) && bool_decide (k ∈ inv)) eqn:Hc.
  - apply andb_prop in Hc as [H1 H2]. apply negb_true_iff in H1.
    apply bool_decide_eq_false_1 in H1. apply bool_decide_eq_true_1 in H2.
    rewrite decide_True by done. simpl. split; [done|lia].
  - rewrite decide_False; [done|]. intros [H1 H2].
    rewrite (bool_decide_eq_false_2 _ H1), (bool_decide_eq_true_2 _ H2) in Hc. done.
Qed.

Lemma pick_keepers_count :
  let s := pick_keepers inv h w in
  filesInvalidated (sel_delta s) = length (filter (fun k => k ∈ inv) (filesWithRead h))
  /\ filesConsolidated (sel_delta s) = length (filesToConsolidate s)
  /\ NoDup (filesToConsolidate s).
Proof.
  simpl. unfold pick_keepers.
  pose proof (proj1 (collect_NoDup config inv root w)) as Hnd. simpl in Hnd.
  assert (forall l, l = filesWithRead h ->
    let s := foldl (pick_keeper inv h)
               {| window := w; sel_delta := emptyDelta; keepCallIDs := [];
                  filesToConsolidate := [] |} l in
    filesInvalidated (sel_delta s) = length (filter (fun k => k ∈ inv) l)
    /\ filesConsolidated (sel_delta s) = length (filesToConsolidate s)
    /\ NoDup (filesToConsolidate s)
    /\ (forall k, k ∈ filesToConsolidate s -> k ∈ l)) as Hgen.
  { intros l Hl. simpl.
    apply (foldl_prefix_invariant
      (fun done s =>
         filesInvalidated (sel_delta s) = length (filter (fun k => k ∈ inv) done)
         /\ filesConsolidated (sel_delta s) = length (filesToConsolidate s)
         /\ NoDup (filesToConsolidate s)
         /\ (forall k, k ∈ filesToConsolidate s -> k ∈ done))).
    { split_and!; try done. apply NoDup_nil_2. }
    intros done x rest s Hsplit (Hi & Hc & Hn & Hsub).
    assert (x ∉ done) as Hx.
    { rewrite Hl in Hsplit. rewrite Hsplit in Hnd.
      apply NoDup_app in Hnd as (_ & Hdis & _). intros Hin.
      apply (Hdis x Hin). by left. }
    assert (x ∉ filesToConsolidate s) as Hx' by (intros Hin; by apply Hx, Hsub).
    rewrite filter_app, length_app, filter_cons, filter_nil.
    unfold pick_keeper. case_bool_decide as Hinv.
    - rewrite decide_True by done. simpl. split_and!; try done; [lia|].
      intros k Hk. apply elem_of_app. left. by apply Hsub.
    - rewrite decide_False by done. simpl.
      destruct (lastReadByFile h !! x) as [r|].
      + destruct (tool_at (window s) r) as [part|]; simpl.
        * unfold set_add. rewrite (bool_decide_eq_false_2 _ Hx').
          rewrite length_app. simpl. split_and!; [lia|lia| |].
          -- apply NoDup_app. split_and!; [done| |apply NoDup_singleton].
             intros k Hk Hk'. apply list_elem_of_singleton in Hk'. by subst.
          -- intros k. rewrite !elem_of_app. intros [Hk|Hk]; [left; by apply Hsub|].
             by right.
        * split_and!; try done; [lia|].
          intros k Hk. apply elem_of_app. left. by apply Hsub.
      + split_and!; try done; [lia|].
        intros k Hk. apply elem_of_app. left. by apply Hsub. }
  destruct (Hgen _ eq_refl) as (H1 & H2 & H3 & _). done.
Qed.

Lemma consolidated_files_are_readable :
  list_to_set (filesToConsolidate (pick_keepers inv h w)) = readable_files config inv w.
Proof.
  apply set_eq. intros k.
  rewrite elem_of_list_to_set, elem_of_readable_files.
  rewrite (proj1 (proj2 (pick_keepers_spec config inv root w)) k). split.
  - intros [r Hr].
    destruct (keeper_exists config inv w k r Hr)
      as (t & st & _ & Hall & _ & _ & _ & _ & Hu & Hprot & Hinv). eauto 10.
  - intros (p & Hp & Hu & Hprot & Hinv). by eapply collect_has_lastRead.
Qed.

Lemma history_files_are_tracked :
  list_to_set (filesWithHistory h) = tracked_files config w.
Proof.
  apply set_eq. intros k. rewrite elem_of_list_to_set, elem_of_tracked_files. split.
  - apply collect_filesWithHistory_inv.
  - intros (p & Hp & Hop & Hprot). by eapply collect_filesWithHistory.
Qed.

Lemma invalidated_history_count :
  length (filter (fun k => k ∈ inv) (filesWithRead h))
  + length (filter (fun k => k ∉ filesWithRead h /\ k ∈ inv) (filesWithHistory h))
  = size (tracked_files config w ∩ inv).
Proof.
  destruct (collect_NoDup config inv root w) as [Hnr Hnh]. simpl in Hnr, Hnh.
  rewrite <- history_files_are_tracked.
  rewrite <- (size_list_to_set (C := gset string)
                (filter (fun k => k ∈ inv) (filesWithRead h)))
    by (by apply NoDup_filter).
  rewrite <- (size_list_to_set (C := gset string)
                (filter (fun k => k ∉ filesWithRead h /\ k ∈ inv) (filesWithHistory h)))
    by (by apply NoDup_filter).
  rewrite <- size_union.
  - f_equal. apply set_eq. intros k.
    rewrite elem_of_union, !elem_of_list_to_set, !list_elem_of_filter,
      elem_of_intersection, elem_of_list_to_set.
    pose proof (collect_read_history k).
    destruct (decide (k ∈ filesWithRead h)); tauto.
  - intros k. rewrite !elem_of_list_to_set, !list_elem_of_filter. tauto.
Qed.

End Counters.

(** X26.  The two file counters of a consolidation pass count files, each file
    once however many Parts it has: [filesInvalidated] is the number of
    invalidated files with a completed file operation in the window, and
    [filesConsolidated] the number of files, not invalidated, with a read
    whose output is not empty, protected files not counting. *)
Theorem cleanup_counts_files `{Runtime} (w : list ChatMessage)
    (config : WhitelistConfig) (inv : gset string) :
  let d := (Cleanup.cleanupMessagesForContextJar w config inv).1 in
  filesInvalidated d = size (tracked_files config w ∩ inv)
  /\ filesConsolidated d = size (readable_files config inv w).
Proof.
  simpl. unfold Cleanup.cleanupMessagesForContextJar.
  pose proof (invalidated_history_count config inv w) as Hinv.
  pose proof (consolidated_files_are_readable config inv w) as Hread.
  destruct (pick_keepers_count config inv w) as (Hpi & Hpc & Hnd).
  pose proof (collect_read_history config inv w) as Hsub.
  destruct (count_unread_invalidated_count config inv w
              (Cleanup.sel_delta
                 (Cleanup.pick_keepers inv
                    (Cleanup.collect config inv (inferWorktreeRoot w) w) w)))
    as [Hcc Hci].
  rewrite <- Hinv, <- Hread, size_list_to_set by done.
  destruct (Cleanup.filesWithHistory
              (Cleanup.collect config inv (inferWorktreeRoot w) w))
    as [|k0 ks] eqn:Hh.
  - assert (Cleanup.filesWithRead
              (Cleanup.collect config inv (inferWorktreeRoot w) w) = []) as Hr.
    { destruct (Cleanup.filesWithRead
                  (Cleanup.collect config inv (inferWorktreeRoot w) w))
        as [|k l] eqn:Hr; [done|].
      exfalso. eapply not_elem_of_nil, (Hsub k). by left. }
    rewrite Hr. simpl. split; [done|].
    rewrite <- Hpc. unfold Cleanup.pick_keepers. by rewrite Hr.
  - assert (forall a b d ms,
      filesInvalidated d = a /\ filesConsolidated d = b ->
      filesInvalidated
        (Cleanup.sweep config inv (inferWorktreeRoot w)
           (Cleanup.collect config inv (inferWorktreeRoot w) w)
           (Cleanup.pick_keepers inv
              (Cleanup.collect config inv (inferWorktreeRoot w) w) w) d ms).1 = a
      /\ filesConsolidated
           (Cleanup.sweep config inv (inferWorktreeRoot w)
              (Cleanup.collect config inv (inferWorktreeRoot w) w)
              (Cleanup.pick_keepers inv
                 (Cleanup.collect config inv (inferWorktreeRoot w) w) w) d ms).1 = b)
      as Hsweep.
    { intros a b d ms Hd.
      apply (sweep_invariant config inv (inferWorktreeRoot w)
               (fun d => filesInvalidated d = a /\ filesConsolidated d = b));
        [|done].
      intros d' p [<- <-]. apply sweep_part_counters. }
    destruct (Hsweep _ _ _
                (Cleanup.window
                   (Cleanup.pick_keepers inv
                      (Cleanup.collect config inv (inferWorktreeRoot w) w) w))
                (conj Hci Hcc)) as [-> ->].
    rewrite Hpi, Hpc. done.
Qed.
